(** * Splay-tree memoisation (task_2.py) and the cached range sum (task_1.py)

    A shallow embedding of the two Python modules of the repository and the
    proofs of their specified properties.

    task_2.py builds a pointer-based splay tree: every [Node] object carries
    [left], [right] and [parent] references and the tree object holds [root].
    The embedding keeps that shape: objects live in a store indexed by
    references, every attribute read or write of the source is a read or a
    write of the store, and the two [while] loops take a bound on their
    number of iterations. *)

From stdpp Require Import gmap list sorting.
From Stdlib Require Import ZArith Lia.

Local Open Scope Z_scope.

(** ** The object store *)

(** A reference to a [Node] object. *)
Abbreviation loc := positive.

(** [class Node]: the five attributes set by [Node.__init__]. *)
Record Node := mkNode {
  key : Z;
  val : Z;
  left : option loc;
  right : option loc;
  parent : option loc
}.

(** [class SplayTree]: the attribute [root], together with the store of the
    [Node] objects that are alive. *)
Record SplayTree := mkTree {
  root : option loc;
  heap : gmap loc Node
}.

(** Outcome of running a method: normal return with the new state, a raised
    exception ([AttributeError] on a [None] receiver, or a reference that
    does not denote an object), or the iteration bound was reached. *)
Inductive result (A : Type) : Type :=
  | Ok (a : A) (s : SplayTree)
  | Raise
  | OutOfFuel.
Arguments Ok {A} a s.
Arguments Raise {A}.
Arguments OutOfFuel {A}.

Definition M (A : Type) : Type := SplayTree → result A.

Definition ret {A} (a : A) : M A := λ s, Ok a s.
Definition bind {A B} (m : M A) (f : A → M B) : M B :=
  λ s, match m s with
       | Ok a s' => f a s'
       | Raise => Raise
       | OutOfFuel => OutOfFuel
       end.
Definition raise {A} : M A := λ _, Raise.
Definition out_of_fuel {A} : M A := λ _, OutOfFuel.

Global Instance M_ret : MRet M := @ret.
Global Instance M_bind : MBind M := λ A B f m, bind m f.

(** Attribute reads and writes. *)
Definition get (x : loc) : M Node :=
  λ s, match heap s !! x with Some n => Ok n s | None => Raise end.
Definition put (x : loc) (n : Node) : M unit :=
  λ s, Ok tt (mkTree (root s) (<[x := n]> (heap s))).

Definition get_root : M (option loc) := λ s, Ok (root s) s.
Definition set_root (r : option loc) : M unit := λ s, Ok tt (mkTree r (heap s)).

Definition with_val (n : Node) (v : Z) : Node :=
  mkNode (key n) v (left n) (right n) (parent n).
Definition with_left (n : Node) (o : option loc) : Node :=
  mkNode (key n) (val n) o (right n) (parent n).
Definition with_right (n : Node) (o : option loc) : Node :=
  mkNode (key n) (val n) (left n) o (parent n).
Definition with_parent (n : Node) (o : option loc) : Node :=
  mkNode (key n) (val n) (left n) (right n) o.

Definition set_val (x : loc) (v : Z) : M unit := n ← get x; put x (with_val n v).
Definition set_left (x : loc) (o : option loc) : M unit := n ← get x; put x (with_left n o).
Definition set_right (x : loc) (o : option loc) : M unit := n ← get x; put x (with_right n o).
Definition set_parent (x : loc) (o : option loc) : M unit := n ← get x; put x (with_parent n o).

(** [Node(key, val)]: a new object, with a reference no live object has. *)
Definition new_Node (k v : Z) : M loc :=
  λ s, let x := fresh (dom (heap s)) in
       Ok x (mkTree (root s) (<[x := mkNode k v None None None]> (heap s))).

(** ** task_2.py, [SplayTree] *)

(** [SplayTree._rotate], lines 32-42: [x] and [p] exchange places and the
    middle subtree [b] changes parent; [nx] and [np] are the objects [x]
    and [p] as read on entry, [g] is [p.parent]. *)
Definition rotate_local (x p : loc) (nx np : Node) (g : option loc) : M unit :=
  b ← (if bool_decide (left np = Some x)
       then (let b := right nx in
             set_left p b ;; set_right x (Some p) ;; ret b)
       else (let b := left nx in
             set_right p b ;; set_left x (Some p) ;; ret b));
  match b with
  | Some b => set_parent b (Some p)
  | None => ret tt
  end ;;
  set_parent x g ;;
  set_parent p (Some x).

(** [SplayTree._rotate], lines 43-49: [x] takes the place of [p] under
    [g], or becomes the root. *)
Definition rotate_relink (x p : loc) (g : option loc) : M unit :=
  match g with
  | Some g =>
    ng ← get g;
    if bool_decide (left ng = Some p)
    then set_left g (Some x)
    else set_right g (Some x)
  | None => set_root (Some x)
  end.

(** [SplayTree._rotate], lines 26-49. *)
Definition _rotate (x : loc) : M unit :=
  nx ← get x;
  match parent nx with
  | None => ret tt
  | Some p =>
    np ← get p;
    let g := parent np in
    rotate_local x p nx np g ;;
    rotate_relink x p g
  end.

(** One iteration of the loop of [SplayTree._splay], lines 53-65; [p] is
    [x.parent], which the loop test found present. *)
Definition _splay_step (x p : loc) : M unit :=
  np ← get p;
  match parent np with
  | None => _rotate x
  | Some g =>
    ng ← get g;
    if bool_decide (bool_decide (left np = Some x) = bool_decide (left ng = Some p))
    then _rotate p ;; _rotate x
    else _rotate x ;; _rotate x
  end.

(** [SplayTree._splay], lines 51-65: [fuel] bounds the iterations. *)
Fixpoint _splay (fuel : nat) (x : loc) : M unit :=
  nx ← get x;
  match parent nx with
  | None => ret tt
  | Some p =>
    match fuel with
    | O => out_of_fuel
    | S fuel' => _splay_step x p ;; _splay fuel' x
    end
  end.

(** How the descent shared by [insert] (lines 73-83) and [search] (lines
    95-103) ends: on the node holding the key, or past a leaf with the last
    node visited. *)
Inductive descent : Type :=
  | Found (node : loc)
  | Missed (last : option loc).

(** The loop [while node: ...] of lines 73-79 and 95-101; the second
    argument of the result is [parent] (in [insert]) or [last] (in
    [search]). *)
Fixpoint descend (fuel : nat) (k : Z) (node last : option loc) : M descent :=
  match node with
  | None => ret (Missed last)
  | Some x =>
    match fuel with
    | O => out_of_fuel
    | S fuel' =>
      n ← get x;
      if bool_decide (k < key n) then descend fuel' k (left n) (Some x)
      else if bool_decide (k > key n) then descend fuel' k (right n) (Some x)
      else ret (Found x)
    end
  end.

(** Lines 84-89 of [insert]: the new node is made a child of [parent]. *)
Definition insert_link (k v : Z) (parent : option loc) : M loc :=
  new_node ← new_Node k v;
  set_parent new_node parent ;;
  match parent with
  | None => raise
  | Some p =>
    np ← get p;
    (if bool_decide (k < key np)
     then set_left p (Some new_node)
     else set_right p (Some new_node)) ;;
    ret new_node
  end.

(** [SplayTree.insert], lines 67-90. *)
Definition insert (fuel : nat) (k v : Z) : M unit :=
  r ← get_root;
  match r with
  | None => x ← new_Node k v; set_root (Some x)
  | Some _ =>
    d ← descend fuel k r None;
    match d with
    | Found node => set_val node v ;; _splay fuel node
    | Missed parent => new_node ← insert_link k v parent; _splay fuel new_node
    end
  end.

(** [SplayTree.search], lines 92-107: the result is the node found, or
    [None]. *)
Definition search (fuel : nat) (k : Z) : M (option loc) :=
  r ← get_root;
  d ← descend fuel k r None;
  match d with
  | Found node => _splay fuel node ;; ret (Some node)
  | Missed last =>
    match last with
    | Some l => _splay fuel l
    | None => ret tt
    end ;;
    ret None
  end.

(** [SplayTree.__init__], lines 20-24. *)
Definition empty_tree : SplayTree := mkTree None ∅.
Definition SplayTree_init (fuel : nat) : M unit :=
  set_root None ;; insert fuel 0 0 ;; insert fuel 1 1.

(** [fibonacci_splay], lines 121-130; [depth] bounds the recursion and
    [fuel] the loops of the tree. *)
Fixpoint fibonacci_splay (depth fuel : nat) (n : Z) : M Z :=
  if bool_decide (n < 2) then ret n
  else
    match depth with
    | O => out_of_fuel
    | S depth' =>
      node ← search fuel n;
      match node with
      | Some x => nx ← get x; ret (val nx)
      | None =>
        a ← fibonacci_splay depth' fuel (n - 1);
        b ← fibonacci_splay depth' fuel (n - 2);
        let v := a + b in
        insert fuel n v ;; ret v
      end
    end.

(** ** Observing a state

    The shape reachable from a reference, read back from the store as a tree.
    Every node of the tree records the reference that holds it, its key and
    its value. *)
Inductive tree : Type :=
  | Leaf
  | Br (l : tree) (x : loc) (k v : Z) (r : tree).

(** In-order listing of a tree: reference, key and value of each node. *)
Fixpoint entries (t : tree) : list (loc * Z * Z) :=
  match t with
  | Leaf => []
  | Br l x k v r => entries l ++ (x, k, v) :: entries r
  end.

Definition locs (t : tree) : list loc := (λ e, e.1.1) <$> entries t.
Definition keys (t : tree) : list Z := (λ e, e.1.2) <$> entries t.
Definition items (t : tree) : list (Z * Z) := (λ e, (e.1.2, e.2)) <$> entries t.

(** The ordering invariant, as the specification words it: at every node
    the keys of the left subtree are strictly smaller and the keys of the
    right subtree strictly greater. *)
Fixpoint bst (t : tree) : Prop :=
  match t with
  | Leaf => True
  | Br l _ k _ r =>
    Forall (λ k', k' < k) (keys l) ∧ Forall (λ k', k < k') (keys r) ∧ bst l ∧ bst r
  end.

Global Instance bst_dec (t : tree) : Decision (bst t).
Proof. induction t; simpl; apply _. Defined.

(** Reading the tree below reference [o] out of the store; [p] is the value
    the [parent] attribute of the node at [o] must have.  The reading fails
    on a missing object, on a wrong [parent] attribute, and when [fuel]
    nodes do not reach the leaves. *)
Fixpoint tree_of (fuel : nat) (h : gmap loc Node) (p o : option loc) : option tree :=
  match o with
  | None => Some Leaf
  | Some x =>
    match fuel with
    | O => None
    | S fuel' =>
      n ← h !! x;
      if decide (parent n = p)
      then l ← tree_of fuel' h (Some x) (left n);
           r ← tree_of fuel' h (Some x) (right n);
           Some (Br l x (key n) (val n) r)
      else None
    end
  end.

Definition abs (s : SplayTree) : option tree :=
  tree_of (size (heap s)) (heap s) None (root s).

(** A well-formed state: the store unfolds from [root] into a finite tree
    with consistent [parent] attributes, that tree is ordered, and every
    live node is in it. *)
Definition wf (s : SplayTree) : Prop :=
  match abs s with
  | Some t => bst t ∧ length (entries t) = size (heap s)
  | None => False
  end.

Global Instance wf_dec (s : SplayTree) : Decision (wf s).
Proof. unfold wf. destruct (abs s); apply _. Defined.

(** Keys and values of a state, in order. *)
Definition contents (s : SplayTree) : list (Z * Z) :=
  match abs s with Some t => items t | None => [] end.
Definition inorder_keys (s : SplayTree) : list Z := fst <$> contents s.
Definition node_count (s : SplayTree) : nat := length (contents s).

(** Key of the root node. *)
Definition root_key (s : SplayTree) : option Z :=
  r ← root s; n ← heap s !! r; Some (key n).

(** Number of [parent] links from [x] up to the root. *)
Fixpoint depth_upto (fuel : nat) (h : gmap loc Node) (x : loc) : option nat :=
  n ← h !! x;
  match parent n with
  | None => Some O
  | Some p =>
    match fuel with
    | O => None
    | S fuel' => S <$> depth_upto fuel' h p
    end
  end.

Definition depth (s : SplayTree) (x : loc) : option nat :=
  depth_upto (size (heap s)) (heap s) x.

(** Parent-pointer consistency, as the specification words it. *)
Definition parent_consistent (s : SplayTree) : Prop :=
  ∀ x n, heap s !! x = Some n →
    if decide (root s = Some x) then parent n = None
    else ∃ p np, parent n = Some p ∧ heap s !! p = Some np ∧
         ((left np = Some x ∧ right np ≠ Some x) ∨
          (left np ≠ Some x ∧ right np = Some x)).

(** The companion invariant of the data model: [child.parent == node] for
    every direct child. *)
Definition children_point_back (s : SplayTree) : Prop :=
  ∀ x n c, heap s !! x = Some n → left n = Some c ∨ right n = Some c →
    ∃ nc, heap s !! c = Some nc ∧ parent nc = Some x.

(** ** Trees with a hole

    A node inside a tree is described by the subtree below it and the path
    of frames from it up to the root; the head of the path is the parent. *)
Inductive frame : Type :=
  | InL (x : loc) (k v : Z) (r : tree)   (* the hole is the left child of [x] *)
  | InR (l : tree) (x : loc) (k v : Z).  (* the hole is the right child of [x] *)

Abbreviation path := (list frame).

Fixpoint plug (t : tree) (fs : path) : tree :=
  match fs with
  | [] => t
  | InL x k v r :: fs' => plug (Br t x k v r) fs'
  | InR l x k v :: fs' => plug (Br l x k v t) fs'
  end.

(** The tree in the hole after its root is rotated above the frame [f]. *)
Definition rot (t : tree) (f : frame) : tree :=
  match t, f with
  | Br a x k v b, InL p kp vp c => Br a x k v (Br b p kp vp c)
  | Br a x k v b, InR c p kp vp => Br (Br c p kp vp a) x k v b
  | Leaf, _ => Leaf
  end.

Definition frame_loc (f : frame) : loc :=
  match f with InL x _ _ _ => x | InR _ x _ _ => x end.

Definition is_InL (f : frame) : bool :=
  match f with InL _ _ _ _ => true | InR _ _ _ _ => false end.

(** The [parent] attribute of the node in the hole of a path. *)
Definition hole_parent (fs : path) : option loc := frame_loc <$> head fs.

(** Entries of the whole tree that come before, and after, the hole. *)
Fixpoint before (fs : path) : list (loc * Z * Z) :=
  match fs with
  | [] => []
  | InL _ _ _ _ :: fs' => before fs'
  | InR l x k v :: fs' => before fs' ++ entries l ++ [(x, k, v)]
  end.

Fixpoint after (fs : path) : list (loc * Z * Z) :=
  match fs with
  | [] => []
  | InL x k v r :: fs' => (x, k, v) :: entries r ++ after fs'
  | InR _ _ _ _ :: fs' => after fs'
  end.

(** The store holds tree [t] at reference [o], below parent [p]. *)
Fixpoint is_tree (h : gmap loc Node) (p o : option loc) (t : tree) : Prop :=
  match t with
  | Leaf => o = None
  | Br l x k v r =>
    o = Some x ∧ ∃ lo ro, h !! x = Some (mkNode k v lo ro p) ∧
      is_tree h (Some x) lo l ∧ is_tree h (Some x) ro r
  end.

(** The store holds path [fs] above a hole filled with reference [o], whose
    node has [parent] attribute [p]; [rt] is the root reference. *)
Fixpoint is_path (h : gmap loc Node) (rt : option loc) (fs : path)
    (p o : option loc) : Prop :=
  match fs with
  | [] => o = rt ∧ p = None
  | InL x k v r :: fs' =>
    p = Some x ∧ ∃ ro pp, h !! x = Some (mkNode k v o ro pp) ∧
      is_tree h (Some x) ro r ∧ is_path h rt fs' pp (Some x)
  | InR l x k v :: fs' =>
    p = Some x ∧ ∃ lo pp, h !! x = Some (mkNode k v lo o pp) ∧
      is_tree h (Some x) lo l ∧ is_path h rt fs' pp (Some x)
  end.

(** State [s] holds tree [t] in the hole of path [fs], and nothing else. *)
Record rep (s : SplayTree) (t : tree) (fs : path) (p o : option loc) : Prop := mkRep {
  rep_tree : is_tree (heap s) p o t;
  rep_path : is_path (heap s) (root s) fs p o;
  rep_nodup : NoDup (locs (plug t fs));
  rep_dom : ∀ y, is_Some (heap s !! y) → y ∈ locs (plug t fs)
}.

(** References of the nodes of a path and of the subtrees hanging off it. *)
Definition plocs (fs : path) : list loc := (λ e, e.1.1) <$> (before fs ++ after fs).

(** The key looked for lies strictly between what is before and what is
    after the hole. *)
Definition between (k : Z) (fs : path) : Prop :=
  Forall (λ e, e.1.2 < k) (before fs) ∧ Forall (λ e, k < e.1.2) (after fs).

(** ** Sample states *)

(** The state of a newly constructed [SplayTree()]: key 1 at the root, key 0
    to its left. *)
Definition seeded : SplayTree :=
  mkTree (Some 2%positive)
    (<[2%positive := mkNode 1 1 (Some 1%positive) None None]>
       (<[1%positive := mkNode 0 0 None None (Some 2%positive)]> ∅)).

(** Keys 0, 1, 2, 3 inserted in that order: a left spine with key 3 at the
    root and key 0, at reference 1, three levels down. *)
Definition spine : SplayTree :=
  mkTree (Some 4%positive)
    (<[4%positive := mkNode 3 3 (Some 3%positive) None None]>
       (<[3%positive := mkNode 2 2 (Some 2%positive) None (Some 4%positive)]>
          (<[2%positive := mkNode 1 1 (Some 1%positive) None (Some 3%positive)]>
             (<[1%positive := mkNode 0 0 None None (Some 2%positive)]> ∅)))).

(** ** task_1.py, the cached range sum

    The list objects live in a store indexed by their identity ([id(a)]);
    the module-global name [array] is bound to one of them, or unbound; the
    [lru_cache] of [_cached_sum] is the list of its entries, most recently
    used first.  A raised exception is [None]. *)
Record Env := mkEnv {
  objects : gmap positive (list Z);
  global_array : option positive;
  cache : list (positive * Z * Z * Z)
}.

(** Python's [l[start:stop]] on a list, with negative and out-of-range
    indices clamped the way slicing does. *)
Definition clamp_index (i n : Z) : Z :=
  if bool_decide (i < 0) then Z.max (i + n) 0 else Z.min i n.

Definition py_slice (l : list Z) (start stop : Z) : list Z :=
  let n := Z.of_nat (length l) in
  let a := clamp_index start n in
  let b := clamp_index stop n in
  take (Z.to_nat (b - a)) (drop (Z.to_nat a) l).

(** Python's [sum]. *)
Definition py_sum (l : list Z) : Z := foldl Z.add 0 l.

(** [array[index] = value]: [IndexError] outside the list. *)
Definition py_setitem (l : list Z) (index value : Z) : option (list Z) :=
  let n := Z.of_nat (length l) in
  let i := if bool_decide (index < 0) then index + n else index in
  if bool_decide (0 ≤ i < n) then Some (<[Z.to_nat i := value]> l) else None.

(** [range_sum_no_cache], line 31. *)
Definition range_sum_no_cache (array : positive) (L R : Z) (e : Env) : option Z :=
  l ← objects e !! array; Some (py_sum (py_slice l L (R + 1))).

(** [update_no_cache], line 43. *)
Definition update_no_cache (array : positive) (index value : Z) (e : Env) : option Env :=
  l ← objects e !! array;
  l' ← py_setitem l index value;
  Some (mkEnv (<[array := l']> (objects e)) (global_array e) (cache e)).

(** The body of [_cached_sum], line 60: [array] there is the global name,
    [array_id] is not used. *)
Definition _cached_sum_body (array_id : positive) (L R : Z) (e : Env) : option Z :=
  array ← global_array e;
  l ← objects e !! array;
  Some (py_sum (py_slice l L (R + 1))).

Fixpoint cache_find (k : positive * Z * Z) (c : list (positive * Z * Z * Z)) : option Z :=
  match c with
  | [] => None
  | (k', v) :: c' => if decide (k' = k) then Some v else cache_find k c'
  end.

Definition maxsize : nat := 1000.

(** [_cached_sum] under [@lru_cache(maxsize=1000)], lines 46-60: a hit
    returns the stored result and makes the entry the most recent; a miss
    runs the body, stores the result and drops the least recent entry
    beyond [maxsize]. *)
Definition _cached_sum (array_id : positive) (L R : Z) (e : Env) : option (Z * Env) :=
  let k := (array_id, L, R) in
  match cache_find k (cache e) with
  | Some v =>
    Some (v, mkEnv (objects e) (global_array e)
                   ((k, v) :: filter (λ kv, kv.1 ≠ k) (cache e)))
  | None =>
    v ← _cached_sum_body array_id L R e;
    Some (v, mkEnv (objects e) (global_array e) (take maxsize ((k, v) :: cache e)))
  end.

(** [range_sum_with_cache], line 76: [id(array)] is the reference itself. *)
Definition range_sum_with_cache (array : positive) (L R : Z) (e : Env) : option (Z * Env) :=
  _cached_sum array L R e.

(** [update_with_cache], lines 89-90. *)
Definition update_with_cache (array : positive) (index value : Z) (e : Env) : option Env :=
  l ← objects e !! array;
  l' ← py_setitem l index value;
  Some (mkEnv (<[array := l']> (objects e)) (global_array e) []).

(** Every cached result is what the body would compute now. *)
Definition cache_coherent (e : Env) : Prop :=
  ∀ a L R v, cache_find (a, L, R) (cache e) = Some v →
    _cached_sum_body a L R e = Some v.

(** A sample: the global [array] is the list at identity 1, another list
    lives at identity 2, the cache is empty. *)
Definition two_lists : Env :=
  mkEnv (<[2%positive := [10; 20; 30]]> (<[1%positive := [1; 2; 3]]> ∅))
        (Some 1%positive) [].

(** ** The tree as a finite map, and the Fibonacci numbers *)

(** The finite map from keys to values a state stands for. *)
Definition to_map (s : SplayTree) : gmap Z Z := list_to_map (contents s).

(** The Fibonacci numbers. *)
Fixpoint fib (n : nat) : Z :=
  match n with
  | O => 0
  | S m => match m with
           | O => 1
           | S p => fib m + fib p
           end
  end.

(** What both evaluators return for [n]: [n] itself below 2 (negative
    arguments included), the Fibonacci number from 2 on. *)
Definition fib_value (n : Z) : Z :=
  if bool_decide (n < 2) then n else fib (Z.to_nat n).

(** Every value stored in the tree is the one the evaluators return for its
    key. *)
Definition fib_table (s : SplayTree) : Prop :=
  Forall (λ kv, kv.2 = fib_value kv.1) (contents s).

(** [run_splay] of the main block, lines 149-151: a new tree, then the
    evaluator on it; [n] is the loop variable the closure reads. *)
Definition run_splay (depth fuel : nat) (n : Z) : M Z :=
  SplayTree_init fuel ;; fibonacci_splay depth fuel n.

(** The keys from 2 to [n], the ones [fibonacci_splay(n, tree)] may insert. *)
Definition fib_keys (n : Z) : gset Z := list_to_set (seqZ 2 (n - 1)).

(** The tree in the hole after one iteration of the loop of [_splay] on its
    root, below the frames [f1] (parent) and [f2] (grandparent): zig-zig
    when both are on the same side, zig-zag otherwise. *)
Definition splay2 (t : tree) (f1 f2 : frame) : tree :=
  match t, f1, f2 with
  | Br a x k v b, InL p kp vp c, InL g kg vg d =>
    Br a x k v (Br b p kp vp (Br c g kg vg d))
  | Br a x k v b, InR c p kp vp, InR d g kg vg =>
    Br (Br (Br d g kg vg c) p kp vp a) x k v b
  | Br a x k v b, InR c p kp vp, InL g kg vg d =>
    Br (Br c p kp vp a) x k v (Br b g kg vg d)
  | Br a x k v b, InL p kp vp c, InR d g kg vg =>
    Br (Br d g kg vg a) x k v (Br b p kp vp c)
  | Leaf, _, _ => Leaf
  end.

(** ** task_2.py, [fibonacci_lru] *)

(** The loop of lines 115-117: [iters] iterations of [a, b = b, a + b]. *)
Fixpoint fib_loop (iters : nat) (a b : Z) : Z :=
  match iters with
  | O => b
  | S i => fib_loop i b (a + b)
  end.

(** The body of [fibonacci_lru], lines 112-118; [range(2, n+1)] has
    [n + 1 - 2] elements. *)
Definition fibonacci_lru_body (n : Z) : Z :=
  if bool_decide (n < 2) then n
  else fib_loop (Z.to_nat (n + 1 - 2)) 0 1.

(** [fibonacci_lru] under [@lru_cache(maxsize=None)], lines 110-118: an
    unbounded table of the results computed so far. *)
Definition fibonacci_lru (n : Z) (table : gmap Z Z) : Z * gmap Z Z :=
  match table !! n with
  | Some v => (v, table)
  | None => let v := fibonacci_lru_body n in (v, <[n := v]> table)
  end.

(** Every cached result is what the body computes. *)
Definition lru_table_ok (table : gmap Z Z) : Prop :=
  map_Forall (λ n v, v = fibonacci_lru_body n) table.

(** ** task_1.py, the two query loops of the main block *)

(** A query, as lines 106 and 110 build them: [('Range', L, R)] or
    [('Update', idx, val)]. *)
Inductive Query : Type :=
  | QRange (L R : Z)
  | QUpdate (idx value : Z).

(** Lines 114-118: the loop over the queries without the cache; [array] is
    the global list. *)
Fixpoint main_loop_no_cache (queries : list Query) (e : Env) : option Env :=
  match queries with
  | [] => Some e
  | QRange L R :: qs =>
    array ← global_array e;
    _ ← range_sum_no_cache array L R e;
    main_loop_no_cache qs e
  | QUpdate i v :: qs =>
    array ← global_array e;
    e' ← update_no_cache array i v e;
    main_loop_no_cache qs e'
  end.

(** Lines 123-127: the loop over the queries with the cache. *)
Fixpoint main_loop_with_cache (queries : list Query) (e : Env) : option Env :=
  match queries with
  | [] => Some e
  | QRange L R :: qs =>
    array ← global_array e;
    r ← range_sum_with_cache array L R e;
    main_loop_with_cache qs r.2
  | QUpdate i v :: qs =>
    array ← global_array e;
    e' ← update_with_cache array i v e;
    main_loop_with_cache qs e'
  end.

(** The queries lines 102-110 can generate for an array of [N] elements. *)
Definition generated (N : Z) (q : Query) : Prop :=
  match q with
  | QRange L R => 0 ≤ L ≤ R ∧ R < N
  | QUpdate i v => 0 ≤ i < N ∧ 1 ≤ v ≤ 100
  end.

Global Instance generated_dec N q : Decision (generated N q).
Proof. destruct q; apply _. Defined.

(** What one query does to the list: an update writes, a range query
    leaves the list alone. *)
Definition write (q : Query) (l : list Z) : list Z :=
  match q with
  | QRange _ _ => l
  | QUpdate i v => default l (py_setitem l i v)
  end.

(** The list a sequence of queries leaves. *)
Definition apply_updates (queries : list Query) (l : list Z) : list Z :=
  foldl (λ l q, write q l) l queries.

(** [l[L] + ... + l[R]], index by index. *)
Definition sum_between (l : list Z) (L R : Z) : Z :=
  foldr (λ i acc, default 0 (l !! i) + acc) 0
        (seq (Z.to_nat L) (Z.to_nat (R - L + 1))).

(** The nodes the loop of [search] (lines 95-101) visits for key [k]: the
    root, then from a visited node the left child when [k] is below its
    key and the right child when [k] is above it. *)
Inductive visited (s : SplayTree) (k : Z) : loc → Prop :=
  | visited_root x :
    root s = Some x → visited s k x
  | visited_left y n x :
    visited s k y → heap s !! y = Some n → k < key n → left n = Some x →
    visited s k x
  | visited_right y n x :
    visited s k y → heap s !! y = Some n → key n < k → right n = Some x →
    visited s k x.

(** * Proofs *)

(** ** Trees, paths and the ordering invariant *)

Section Pure.
Implicit Types (t l r : tree) (fs : path) (k v : Z) (x : loc).

Lemma entries_plug t fs :
  entries (plug t fs) = before fs ++ entries t ++ after fs.
Proof.
  revert t. induction fs as [|[x k v r|l x k v] fs IH]; intros t; simpl.
  - by rewrite app_nil_r.
  - rewrite IH. simpl. by rewrite <- !app_assoc.
  - rewrite IH. simpl. by rewrite <- !app_assoc.
Qed.

Lemma locs_Br l x k v r : locs (Br l x k v r) = locs l ++ x :: locs r.
Proof. unfold locs. simpl. by rewrite fmap_app. Qed.

Lemma keys_Br l x k v r : keys (Br l x k v r) = keys l ++ k :: keys r.
Proof. unfold keys. simpl. by rewrite fmap_app. Qed.

Lemma items_Br l x k v r : items (Br l x k v r) = items l ++ (k, v) :: items r.
Proof. unfold items. simpl. by rewrite fmap_app. Qed.

Lemma keys_items t : keys t = fst <$> items t.
Proof. unfold keys, items. rewrite <- list_fmap_compose. done. Qed.

Lemma length_locs t : length (locs t) = length (entries t).
Proof. unfold locs. by rewrite length_fmap. Qed.

(** The ordering invariant is the strict sortedness of the in-order keys. *)
Lemma bst_sorted t : bst t ↔ StronglySorted Z.lt (keys t).
Proof.
  induction t as [|l IHl x k v r IHr]; simpl.
  - split; [constructor | done].
  - rewrite keys_Br, StronglySorted_app, StronglySorted_cons, IHl, IHr.
    rewrite !Forall_forall. split.
    + intros (Hl & Hr & Sl & Sr). split_and!; try done.
      intros a b Ha Hb. apply elem_of_cons in Hb as [->|Hb]; [by apply Hl|].
      specialize (Hl _ Ha). specialize (Hr _ Hb). lia.
    + intros (Hlr & Sl & Hr & Sr). split_and!; try done.
      intros a Ha. apply (Hlr a k Ha). by left.
Qed.

Lemma sorted_NoDup (ks : list Z) : StronglySorted Z.lt ks → NoDup ks.
Proof.
  induction 1 as [|a ks _ IH Ha]; constructor; [|done].
  intros Hin. rewrite Forall_forall in Ha. specialize (Ha _ Hin). lia.
Qed.

Lemma bst_keys_NoDup t : bst t → NoDup (keys t).
Proof. rewrite bst_sorted. apply sorted_NoDup. Qed.

Lemma keys_plug t fs :
  keys (plug t fs) = ((λ e, e.1.2) <$> before fs) ++ keys t ++ ((λ e, e.1.2) <$> after fs).
Proof. unfold keys. by rewrite entries_plug, !fmap_app. Qed.

Lemma locs_plug t fs :
  locs (plug t fs) = ((λ e, e.1.1) <$> before fs) ++ locs t ++ ((λ e, e.1.1) <$> after fs).
Proof. unfold locs. by rewrite entries_plug, !fmap_app. Qed.

(** Two trees in the same hole with the same entries give the same
    entries of the whole. *)
Lemma entries_plug_ext t t' fs :
  entries t = entries t' → entries (plug t fs) = entries (plug t' fs).
Proof. intros E. by rewrite !entries_plug, E. Qed.
End Pure.

(** ** The store: framing *)

Section Store.
Implicit Types (h : gmap loc Node) (t l r : tree) (fs : path) (x y : loc)
  (p o : option loc).

Lemma is_tree_root h p x t : is_tree h p (Some x) t → x ∈ locs t.
Proof.
  destruct t as [|l x' k v r]; simpl; [done|]. intros [[= ->] _].
  rewrite locs_Br. set_solver.
Qed.

Lemma is_tree_lookup h p o t y :
  is_tree h p o t → y ∈ locs t → is_Some (h !! y).
Proof.
  revert p o. induction t as [|l IHl x k v r IHr]; intros p o; simpl.
  - unfold locs; simpl. set_solver.
  - intros (-> & lo & ro & Hx & Hl & Hr). rewrite locs_Br.
    rewrite elem_of_app, elem_of_cons. intros [?|[->|?]]; eauto.
Qed.

(** The entry of a node of the tree is what the store holds for it. *)
Lemma is_tree_entry h p o t y k v :
  is_tree h p o t → (y, k, v) ∈ entries t →
  ∃ n, h !! y = Some n ∧ key n = k ∧ val n = v.
Proof.
  revert p o. induction t as [|l IHl x k' v' r IHr]; intros p o; simpl.
  - set_solver.
  - intros (-> & lo & ro & Hx & Hl & Hr).
    rewrite elem_of_app, elem_of_cons. intros [?|[[= -> -> ->]|?]]; eauto.
Qed.

Lemma is_tree_frame h h' p o t :
  (∀ y, y ∈ locs t → h' !! y = h !! y) →
  is_tree h p o t → is_tree h' p o t.
Proof.
  revert p o. induction t as [|l IHl x k v r IHr]; intros p o Hf; simpl; [done|].
  intros (-> & lo & ro & Hx & Hl & Hr). split; [done|]. exists lo, ro.
  rewrite locs_Br in Hf. split_and!.
  - rewrite Hf; [done|set_solver].
  - apply IHl; [|done]. intros y Hy. apply Hf. set_solver.
  - apply IHr; [|done]. intros y Hy. apply Hf. set_solver.
Qed.

(** Changing the [parent] attribute of the root of a subtree. *)
Lemma is_tree_reparent h h' p p' o t :
  NoDup (locs t) →
  (∀ y, y ∈ locs t → Some y ≠ o → h' !! y = h !! y) →
  (∀ y n, o = Some y → h !! y = Some n → h' !! y = Some (with_parent n p')) →
  is_tree h p o t → is_tree h' p' o t.
Proof.
  destruct t as [|l x k v r]; simpl; [done|].
  rewrite locs_Br. intros ND Hf Hr (-> & lo & ro & Hx & Hl & Hrr).
  apply NoDup_app in ND as (NDl & Hlx & [Hxr NDr]%NoDup_cons).
  split; [done|]. exists lo, ro. split_and!.
  - by rewrite (Hr x _ eq_refl Hx).
  - eapply is_tree_frame; [|done]. intros y Hy. apply Hf; [set_solver|].
    intros [= ->]. apply (Hlx x Hy). set_solver.
  - eapply is_tree_frame; [|done]. intros y Hy. apply Hf; [set_solver|].
    by intros [= ->].
Qed.

Lemma plocs_InL x k v r fs :
  plocs (InL x k v r :: fs) ≡ₚ x :: locs r ++ plocs fs.
Proof.
  unfold plocs, locs. simpl. rewrite !fmap_app, fmap_cons, fmap_app. simpl.
  rewrite <- !Permutation_middle. apply Permutation_skip.
  rewrite !(assoc (++)). apply Permutation_app; [apply Permutation_app_comm|done].
Qed.

Lemma plocs_InR l x k v fs :
  plocs (InR l x k v :: fs) ≡ₚ x :: locs l ++ plocs fs.
Proof.
  unfold plocs, locs. simpl. rewrite !fmap_app. simpl.
  rewrite <- !(assoc (++)). simpl.
  rewrite <- !Permutation_middle. apply Permutation_skip.
  rewrite !(assoc (++)). apply Permutation_app; [apply Permutation_app_comm|done].
Qed.

Lemma is_path_frame h h' rt fs p o :
  (∀ y, y ∈ plocs fs → h' !! y = h !! y) →
  is_path h rt fs p o → is_path h' rt fs p o.
Proof.
  revert p o. induction fs as [|[x k v r|l x k v] fs IH]; intros p o Hf; simpl; [done|..].
  - intros (-> & ro & pp & Hx & Hr & Hp). split; [done|]. exists ro, pp.
    setoid_rewrite plocs_InL in Hf. split_and!.
    + rewrite Hf; [done|set_solver].
    + eapply is_tree_frame; [|done]. intros; apply Hf; set_solver.
    + apply IH; [|done]. intros; apply Hf; set_solver.
  - intros (-> & lo & pp & Hx & Hl & Hp). split; [done|]. exists lo, pp.
    setoid_rewrite plocs_InR in Hf. split_and!.
    + rewrite Hf; [done|set_solver].
    + eapply is_tree_frame; [|done]. intros; apply Hf; set_solver.
    + apply IH; [|done]. intros; apply Hf; set_solver.
Qed.

Lemma is_path_lookup h rt fs p o y :
  is_path h rt fs p o → y ∈ plocs fs → is_Some (h !! y).
Proof.
  revert p o. induction fs as [|[x k v r|l x k v] fs IH]; intros p o Hp.
  - unfold plocs. simpl. by intros ?%elem_of_nil.
  - rewrite plocs_InL. destruct Hp as (-> & ro & pp' & Hx & Hr & Hp).
    rewrite elem_of_cons, elem_of_app. intros [->|[Hy|Hy]]; eauto.
    by eapply is_tree_lookup.
  - rewrite plocs_InR. destruct Hp as (-> & ro & pp' & Hx & Hr & Hp).
    rewrite elem_of_cons, elem_of_app. intros [->|[Hy|Hy]]; eauto.
    by eapply is_tree_lookup.
Qed.

Lemma locs_plug_perm t fs : locs (plug t fs) ≡ₚ locs t ++ plocs fs.
Proof.
  rewrite locs_plug. unfold plocs. rewrite fmap_app.
  by rewrite (assoc (++)), (comm (++) (_ <$> before fs)), <- (assoc (++)).
Qed.
End Store.

(** ** Running the methods step by step *)

Lemma bind_Ok {A B} (m : M A) (f : A → M B) s a s' :
  m s = Ok a s' → (m ≫= f) s = f a s'.
Proof. unfold mbind, M_bind, bind. by intros ->. Qed.

Lemma bind_assoc {A B C} (m : M A) (f : A → M B) (g : B → M C) s :
  ((m ≫= f) ≫= g) s = (m ≫= (λ a, f a ≫= g)) s.
Proof. unfold mbind, M_bind, bind. by destruct (m s). Qed.

Lemma get_Ok s x n : heap s !! x = Some n → get x s = Ok n s.
Proof. unfold get. by intros ->. Qed.

Lemma set_left_Ok s x n o :
  heap s !! x = Some n →
  set_left x o s = Ok tt (mkTree (root s) (<[x := with_left n o]> (heap s))).
Proof. intros H. unfold set_left. by rewrite (bind_Ok _ _ _ _ _ (get_Ok _ _ _ H)). Qed.

Lemma set_right_Ok s x n o :
  heap s !! x = Some n →
  set_right x o s = Ok tt (mkTree (root s) (<[x := with_right n o]> (heap s))).
Proof. intros H. unfold set_right. by rewrite (bind_Ok _ _ _ _ _ (get_Ok _ _ _ H)). Qed.

Lemma set_parent_Ok s x n o :
  heap s !! x = Some n →
  set_parent x o s = Ok tt (mkTree (root s) (<[x := with_parent n o]> (heap s))).
Proof. intros H. unfold set_parent. by rewrite (bind_Ok _ _ _ _ _ (get_Ok _ _ _ H)). Qed.

Lemma set_val_Ok s x n v :
  heap s !! x = Some n →
  set_val x v s = Ok tt (mkTree (root s) (<[x := with_val n v]> (heap s))).
Proof. intros H. unfold set_val. by rewrite (bind_Ok _ _ _ _ _ (get_Ok _ _ _ H)). Qed.

Lemma ret_Ok {A} (a : A) s : ret a s = Ok a s.
Proof. done. Qed.

(** Looking up in a store that was written to at known places. *)
Ltac lk :=
  simpl;
  repeat first [ rewrite lookup_insert_eq | rewrite lookup_insert_ne by congruence ];
  first [ eassumption | reflexivity ].

Ltac step :=
  rewrite ?bind_assoc;
  first
    [ erewrite bind_Ok;
      [| first [ apply get_Ok | apply set_left_Ok | apply set_right_Ok
               | apply set_parent_Ok | apply set_val_Ok | apply ret_Ok ]; lk ]
    | first [ erewrite get_Ok by lk | erewrite set_left_Ok by lk
            | erewrite set_right_Ok by lk | erewrite set_parent_Ok by lk
            | erewrite set_val_Ok by lk ] ];
  cbn [root heap parent left right key val].

(** Splitting a [NoDup] over appended lists into its parts. *)
Ltac nodup_split H :=
  rewrite locs_plug_perm in H;
  rewrite ?locs_Br in H;
  repeat first [ rewrite NoDup_app in H | rewrite NoDup_cons in H ];
  destruct_and? H.

(** Membership goals, from the disjointness facts a [NoDup] splits into:
    every fact is tried at every reference of the context. *)
Ltac clear_store :=
  repeat match goal with
  | H : is_tree _ _ _ _ |- _ => clear H
  | H : is_path _ _ _ _ _ |- _ => clear H
  | H : _ !! _ = _ |- _ => clear H
  | H : locs _ = locs _ |- _ => clear H
  | H : _ = Ok _ _ |- _ => clear H
  | H : _ = hole_parent _ |- _ => clear H
  | H : ∀ y : positive, _ |- _ =>
    lazymatch type of H with
    | ∀ y, y ∈ _ → y ∉ _ => fail
    | _ => clear H
    end
  end.

Ltac clear_foralls :=
  repeat match goal with H : ∀ y : positive, _ |- _ => clear H end.

Ltac memb :=
  repeat first [ rewrite elem_of_app in * | rewrite elem_of_cons in * ];
  intuition congruence.

Ltac sets_core :=
  match goal with
  | H : ?y ∉ _ |- False => apply H; clear_foralls; memb
  | H : ∀ z, z ∈ _ → z ∉ _, y : positive |- False =>
    apply (H y); clear_foralls; memb
  end.

Ltac sets :=
  clear_store;
  lazymatch goal with
  | |- NoDup (_ :: _) => rewrite NoDup_cons; split; [sets | sets]
  | |- NoDup _ => assumption
  | |- _ ∉ _ =>
    repeat first [ rewrite not_elem_of_cons | rewrite not_elem_of_app ];
    split_and?; intros ?; sets_core
  | |- _ ≠ _ => intros ?; sets_core
  | |- False => sets_core
  end.

(** ** Rotation *)

Section Rotate.
Implicit Types (h : gmap loc Node) (t a b c : tree) (fs : path) (x y p : loc).

(** Lines 32-42 when [x] is the left child of [p]. *)
Lemma rotate_local_left s x p k v ao bo kp vp co gp b :
  heap s !! x = Some (mkNode k v ao bo (Some p)) →
  heap s !! p = Some (mkNode kp vp (Some x) co gp) →
  is_tree (heap s) (Some x) bo b →
  NoDup (x :: p :: locs b) →
  ∃ s1, rotate_local x p (mkNode k v ao bo (Some p)) (mkNode kp vp (Some x) co gp) gp s
          = Ok tt s1 ∧
    root s1 = root s ∧
    heap s1 !! x = Some (mkNode k v ao (Some p) gp) ∧
    heap s1 !! p = Some (mkNode kp vp bo co (Some x)) ∧
    is_tree (heap s1) (Some p) bo b ∧
    (∀ y, y ∉ x :: p :: locs b → heap s1 !! y = heap s !! y) ∧
    (∀ y, is_Some (heap s1 !! y) → is_Some (heap s !! y)).
Proof.
  destruct s as [rt h]; simpl. intros Hx Hp Hb ND.
  apply NoDup_cons in ND as [Hxp ND]. apply NoDup_cons in ND as [Hpb ND].
  assert (x ≠ p) by set_solver. assert (x ∉ locs b) by set_solver.
  unfold rotate_local. rewrite bool_decide_true by done. simpl.
  do 3 step.
  destruct bo as [b0|].
  - pose proof (is_tree_root _ _ _ _ Hb) as Hb0.
    assert (b0 ≠ x) by (intros ->; done). assert (b0 ≠ p) by (intros ->; done).
    destruct (is_tree_lookup _ _ _ _ b0 Hb Hb0) as [nb Hnb].
    do 3 step. eexists. split; [reflexivity|]. simpl. split_and!.
    + done.
    + lk.
    + lk.
    + eapply is_tree_reparent; [done| | |done].
      * intros y Hy Hne. assert (y ≠ x) by (intros ->; done).
        assert (y ≠ p) by (intros ->; done). assert (y ≠ b0) by congruence. lk.
      * intros y n [= <-] Hn. rewrite Hnb in Hn. injection Hn as <-. lk.
    + intros y Hy. assert (y ≠ x ∧ y ≠ p ∧ y ≠ b0) as (?&?&?) by set_solver. lk.
    + intros y. rewrite !lookup_insert_is_Some. naive_solver.
  - do 3 step. destruct b; [|by destruct Hb]. eexists. split; [reflexivity|].
    simpl. split_and!; [done|lk|lk|done|..].
    + intros y Hy. assert (y ≠ x ∧ y ≠ p) as (?&?) by set_solver. lk.
    + intros y. rewrite !lookup_insert_is_Some. naive_solver.
Qed.

(** Lines 32-42 when [x] is not the left child of [p]. *)
Lemma rotate_local_right s x p k v ao bo kp vp co gp a :
  heap s !! x = Some (mkNode k v ao bo (Some p)) →
  heap s !! p = Some (mkNode kp vp co (Some x) gp) →
  co ≠ Some x →
  is_tree (heap s) (Some x) ao a →
  NoDup (x :: p :: locs a) →
  ∃ s1, rotate_local x p (mkNode k v ao bo (Some p)) (mkNode kp vp co (Some x) gp) gp s
          = Ok tt s1 ∧
    root s1 = root s ∧
    heap s1 !! x = Some (mkNode k v (Some p) bo gp) ∧
    heap s1 !! p = Some (mkNode kp vp co ao (Some x)) ∧
    is_tree (heap s1) (Some p) ao a ∧
    (∀ y, y ∉ x :: p :: locs a → heap s1 !! y = heap s !! y) ∧
    (∀ y, is_Some (heap s1 !! y) → is_Some (heap s !! y)).
Proof.
  destruct s as [rt h]; simpl. intros Hx Hp Hco Ha ND.
  apply NoDup_cons in ND as [Hxp ND]. apply NoDup_cons in ND as [Hpb ND].
  assert (x ≠ p) by set_solver. assert (x ∉ locs a) by set_solver.
  unfold rotate_local. rewrite bool_decide_false by done. simpl.
  do 3 step.
  destruct ao as [a0|].
  - pose proof (is_tree_root _ _ _ _ Ha) as Ha0.
    assert (a0 ≠ x) by (intros ->; done). assert (a0 ≠ p) by (intros ->; done).
    destruct (is_tree_lookup _ _ _ _ a0 Ha Ha0) as [na Hna].
    do 3 step. eexists. split; [reflexivity|]. simpl. split_and!.
    + done.
    + lk.
    + lk.
    + eapply is_tree_reparent; [done| | |done].
      * intros y Hy Hne. assert (y ≠ x) by (intros ->; done).
        assert (y ≠ p) by (intros ->; done). assert (y ≠ a0) by congruence. lk.
      * intros y n [= <-] Hn. rewrite Hna in Hn. injection Hn as <-. lk.
    + intros y Hy. assert (y ≠ x ∧ y ≠ p ∧ y ≠ a0) as (?&?&?) by set_solver. lk.
    + intros y. rewrite !lookup_insert_is_Some. naive_solver.
  - do 3 step. destruct a; [|by destruct Ha]. eexists. split; [reflexivity|].
    simpl. split_and!; [done|lk|lk|done|..].
    + intros y Hy. assert (y ≠ x ∧ y ≠ p) as (?&?) by set_solver. lk.
    + intros y. rewrite !lookup_insert_is_Some. naive_solver.
Qed.

(** Replacing the reference that fills the hole of a path. *)
Lemma is_path_refill h h' rt rt' fs pp o o' :
  is_path h rt fs pp o →
  NoDup (plocs fs) →
  match fs with
  | [] => rt' = o'
  | InL g _ _ _ :: _ =>
    rt' = rt ∧ ∀ n, h !! g = Some n → h' !! g = Some (with_left n o')
  | InR _ g _ _ :: _ =>
    rt' = rt ∧ ∀ n, h !! g = Some n → h' !! g = Some (with_right n o')
  end →
  (∀ y, y ∈ plocs fs → Some y ≠ pp → h' !! y = h !! y) →
  is_path h' rt' fs pp o'.
Proof.
  destruct fs as [|[g k v r|l g k v] fs]; simpl.
  - intros [_ ->] _ -> _. done.
  - intros (-> & ro & gp & Hg & Hr & Hfs) ND [-> Hg'] Hf.
    setoid_rewrite plocs_InL in ND. setoid_rewrite plocs_InL in Hf.
    apply NoDup_cons in ND as [Hgn ND]. apply NoDup_app in ND as (_ & Hd & _).
    split; [done|]. exists ro, gp. split_and!.
    + by rewrite (Hg' _ Hg).
    + eapply is_tree_frame; [|done]. intros y Hy. apply Hf; [set_solver|].
      intros [= ->]. set_solver.
    + eapply is_path_frame; [|done]. intros y Hy. apply Hf; [set_solver|].
      intros [= ->]. set_solver.
  - intros (-> & lo & gp & Hg & Hl & Hfs) ND [-> Hg'] Hf.
    setoid_rewrite plocs_InR in ND. setoid_rewrite plocs_InR in Hf.
    apply NoDup_cons in ND as [Hgn ND]. apply NoDup_app in ND as (_ & Hd & _).
    split; [done|]. exists lo, gp. split_and!.
    + by rewrite (Hg' _ Hg).
    + eapply is_tree_frame; [|done]. intros y Hy. apply Hf; [set_solver|].
      intros [= ->]. set_solver.
    + eapply is_path_frame; [|done]. intros y Hy. apply Hf; [set_solver|].
      intros [= ->]. set_solver.
Qed.

(** Lines 43-49: the path above [p] now leads to [x]. *)
Lemma rotate_relink_spec s fs gp x p :
  is_path (heap s) (root s) fs gp (Some p) →
  NoDup (p :: plocs fs) →
  ∃ s2, rotate_relink x p gp s = Ok tt s2 ∧
    is_path (heap s2) (root s2) fs gp (Some x) ∧
    (∀ y, Some y ≠ gp → heap s2 !! y = heap s !! y) ∧
    (∀ y, is_Some (heap s2 !! y) → is_Some (heap s !! y)).
Proof.
  destruct s as [rt h]; simpl. intros Hfs ND. apply NoDup_cons in ND as [Hp ND].
  pose proof Hfs as Hfs0.
  destruct fs as [|[g k v r|l g k v] fs]; simpl in Hfs.
  - destruct Hfs as [<- ->]. simpl. eexists. split; [reflexivity|]. simpl.
    split_and!; done.
  - destruct Hfs as (-> & ro & ggp & Hg & Hr & Hfs). unfold rotate_relink.
    step. rewrite bool_decide_true by done. step.
    eexists. split; [reflexivity|]. cbn [root heap]. split_and!.
    + eapply is_path_refill; [exact Hfs0|done| |].
      * split; [done|]. intros n Hn. rewrite Hg in Hn. injection Hn as <-. lk.
      * intros y _ Hy. assert (y ≠ g) by congruence. lk.
    + intros y Hy. assert (y ≠ g) by congruence. lk.
    + intros y. rewrite !lookup_insert_is_Some. naive_solver.
  - destruct Hfs as (-> & lo & ggp & Hg & Hl & Hfs). unfold rotate_relink.
    step. rewrite bool_decide_false; cycle 1.
    { simpl. intros ->. apply is_tree_root in Hl. apply Hp.
      rewrite plocs_InR. set_solver. }
    step.
    eexists. split; [reflexivity|]. cbn [root heap]. split_and!.
    + eapply is_path_refill; [exact Hfs0|done| |].
      * split; [done|]. intros n Hn. rewrite Hg in Hn. injection Hn as <-. lk.
      * intros y _ Hy. assert (y ≠ g) by congruence. lk.
    + intros y Hy. assert (y ≠ g) by congruence. lk.
    + intros y. rewrite !lookup_insert_is_Some. naive_solver.
Qed.

Lemma is_path_parent h rt fs pp o : is_path h rt fs pp o → pp = hole_parent fs.
Proof. destruct fs as [|[]]; simpl; naive_solver. Qed.

Lemma hole_parent_plocs fs g : hole_parent fs = Some g → g ∈ plocs fs.
Proof.
  destruct fs as [|[] fs]; simpl; [done|..]; intros [= <-].
  - rewrite plocs_InL. set_solver.
  - rewrite plocs_InR. set_solver.
Qed.

Lemma entries_rot t f fs :
  t ≠ Leaf → entries (plug (rot t f) fs) = entries (plug t (f :: fs)).
Proof.
  destruct t as [|a x k v b]; [done|]. intros _.
  destruct f as [p kp vp c|c p kp vp]; simpl; apply entries_plug_ext; simpl;
    by rewrite <- ?app_assoc.
Qed.

(** [_rotate] on a node that has a parent. *)
Lemma rotate_spec s a x k v b f fs pp o :
  rep s (Br a x k v b) (f :: fs) pp o →
  ∃ s', _rotate x s = Ok tt s' ∧
    rep s' (rot (Br a x k v b) f) fs (hole_parent fs) (Some x).
Proof.
  intros [Ht Hp ND Hdom].
  assert (∀ t', entries t' = entries (plug (Br a x k v b) (f :: fs)) →
    locs t' = locs (plug (Br a x k v b) (f :: fs))) as Hlocs.
  { intros t' E. unfold locs. by rewrite E. }
  specialize (Hlocs _ (entries_rot (Br a x k v b) f fs ltac:(done))).
  destruct Ht as (-> & ao & bo & Hx & Ha & Hb).
  destruct f as [p kp vp c|c p kp vp]; simpl in Hp.
  - destruct Hp as (-> & co & gp & Hpl & Hc & Hfs).
    pose proof (is_path_parent _ _ _ _ _ Hfs) as Hgp.
    pose proof (hole_parent_plocs fs) as Hg. rewrite <- Hgp in *.
    pose proof ND as ND0. simpl in ND. nodup_split ND.
    destruct (rotate_local_left s x p k v ao bo kp vp co gp b Hx Hpl Hb)
      as (s1 & E1 & Hr1 & Hx1 & Hp1 & Hb1 & Hf1 & Hd1).
    { sets. }
    destruct (rotate_relink_spec s1 fs gp x p) as (s2 & E2 & Hfs2 & Hf2 & Hd2).
    { rewrite Hr1. eapply is_path_frame; [|done]. intros y Hy. apply Hf1. sets. }
    { sets. }
    exists s2. split.
    { unfold _rotate. do 2 step. rewrite (bind_Ok _ _ _ _ _ E1). done. }
    assert (∀ y, y ∉ plocs fs → heap s2 !! y = heap s1 !! y) as Hf2'.
    { intros y Hy. apply Hf2. intros E. apply Hy, Hg. done. }
    split.
    + simpl. split; [done|]. exists ao, (Some p). split_and!.
      * rewrite Hf2' by sets. done.
      * eapply is_tree_frame; [|done]. intros y Hy.
        rewrite Hf2' by sets. apply Hf1. sets.
      * done.
      * exists bo, co. split_and!.
        -- rewrite Hf2' by sets. done.
        -- eapply is_tree_frame; [|done]. intros y Hy. apply Hf2'. sets.
        -- eapply is_tree_frame; [|done]. intros y Hy.
           rewrite Hf2' by sets. apply Hf1. sets.
    + done.
    + rewrite Hlocs. exact ND0.
    + intros y Hy. rewrite Hlocs. auto.
  - destruct Hp as (-> & co & gp & Hpl & Hc & Hfs).
    pose proof (is_path_parent _ _ _ _ _ Hfs) as Hgp.
    pose proof (hole_parent_plocs fs) as Hg. rewrite <- Hgp in *.
    pose proof ND as ND0. simpl in ND. nodup_split ND.
    destruct (rotate_local_right s x p k v ao bo kp vp co gp a Hx Hpl)
      as (s1 & E1 & Hr1 & Hx1 & Hp1 & Ha1 & Hf1 & Hd1); [|done|..].
    { intros ->. apply is_tree_root in Hc. sets. }
    { sets. }
    destruct (rotate_relink_spec s1 fs gp x p) as (s2 & E2 & Hfs2 & Hf2 & Hd2).
    { rewrite Hr1. eapply is_path_frame; [|done]. intros y Hy. apply Hf1. sets. }
    { sets. }
    exists s2. split.
    { unfold _rotate. do 2 step. rewrite (bind_Ok _ _ _ _ _ E1). done. }
    assert (∀ y, y ∉ plocs fs → heap s2 !! y = heap s1 !! y) as Hf2'.
    { intros y Hy. apply Hf2. intros E. apply Hy, Hg. done. }
    split.
    + simpl. split; [done|]. exists (Some p), bo. split_and!.
      * rewrite Hf2' by sets. done.
      * done.
      * exists co, ao. split_and!.
        -- rewrite Hf2' by sets. done.
        -- eapply is_tree_frame; [|done]. intros y Hy.
           rewrite Hf2' by sets. apply Hf1. sets.
        -- eapply is_tree_frame; [|done]. intros y Hy. apply Hf2'. sets.
      * eapply is_tree_frame; [|done]. intros y Hy.
        rewrite Hf2' by sets. apply Hf1. sets.
    + done.
    + rewrite Hlocs. exact ND0.
    + intros y Hy. rewrite Hlocs. auto.
Qed.
End Rotate.

(** ** Splaying *)

Ltac list_norm := repeat first [ rewrite <- app_assoc | rewrite <- app_comm_cons ].

Section Splay.
Implicit Types (h : gmap loc Node) (t a b c : tree) (fs : path) (x y p : loc).

(** Moving the focus one node up, and one node down. *)
Lemma rep_up s t f fs pp o :
  rep s t (f :: fs) pp o →
  rep s (plug t [f]) fs (hole_parent fs) (Some (frame_loc f)).
Proof.
  intros [Ht Hp ND Hdom]. destruct f as [p k v c|c p k v]; simpl in *.
  - destruct Hp as (-> & co & gp & Hpl & Hc & Hfs).
    rewrite <- (is_path_parent _ _ _ _ _ Hfs). split; simpl; eauto 10.
  - destruct Hp as (-> & co & gp & Hpl & Hc & Hfs).
    rewrite <- (is_path_parent _ _ _ _ _ Hfs). split; simpl; eauto 10.
Qed.

Lemma rep_plug s t fs pp o : rep s t fs pp o → rep s (plug t fs) [] None (root s).
Proof.
  revert t pp o. induction fs as [|f fs IH]; intros t pp o H.
  - pose proof H as [_ [-> ->] _ _]. done.
  - apply rep_up in H. apply IH in H. by destruct f.
Qed.

Lemma rep_down_l s l x k v r fs pp o :
  rep s (Br l x k v r) fs pp o → ∃ lo, rep s l (InL x k v r :: fs) (Some x) lo.
Proof.
  intros [Ht Hp ND Hdom]. destruct Ht as (-> & lo & ro & Hx & Hl & Hr).
  exists lo. split; simpl; eauto 10.
Qed.

Lemma rep_down_r s l x k v r fs pp o :
  rep s (Br l x k v r) fs pp o → ∃ ro, rep s r (InR l x k v :: fs) (Some x) ro.
Proof.
  intros [Ht Hp ND Hdom]. destruct Ht as (-> & lo & ro & Hx & Hl & Hr).
  exists ro. split; simpl; eauto 10.
Qed.

Lemma rep_root s a x k v b fs pp o :
  rep s (Br a x k v b) fs pp o →
  o = Some x ∧ pp = hole_parent fs ∧
  ∃ n, heap s !! x = Some n ∧ key n = k ∧ val n = v ∧ parent n = hole_parent fs.
Proof.
  intros [Ht Hp ND Hdom]. destruct Ht as (-> & lo & ro & Hx & Hl & Hr).
  pose proof (is_path_parent _ _ _ _ _ Hp) as ->. eauto 10.
Qed.

(** What the store holds for the parent of the node in the hole. *)
Lemma rep_frame s a x k v b f fs pp o :
  rep s (Br a x k v b) (f :: fs) pp o →
  ∃ n, heap s !! frame_loc f = Some n ∧ parent n = hole_parent fs ∧
    bool_decide (left n = Some x) = is_InL f.
Proof.
  intros [Ht Hp ND Hdom]. destruct Ht as (-> & lo & ro & Hx & Hl & Hr).
  destruct f as [p kp vp c|c p kp vp]; simpl in *.
  - destruct Hp as (_ & co & gp & Hpl & Hc & Hfs).
    pose proof (is_path_parent _ _ _ _ _ Hfs) as ->.
    eexists. split; [done|]. simpl. split; [done|]. by rewrite bool_decide_true.
  - destruct Hp as (_ & co & gp & Hpl & Hc & Hfs).
    pose proof (is_path_parent _ _ _ _ _ Hfs) as ->.
    eexists. split; [done|]. simpl. split; [done|]. rewrite bool_decide_false; [done|].
    intros ->. apply is_tree_root in Hc. nodup_split ND. sets.
Qed.

Lemma rotate_root s a x k v b pp o :
  rep s (Br a x k v b) [] pp o → _rotate x s = Ok tt s.
Proof.
  intros H. apply rep_root in H as (_ & _ & n & Hn & _ & _ & Hp).
  unfold _rotate. step. rewrite Hp. done.
Qed.

(** One iteration of the loop of [_splay]: the node climbs one level when
    its parent is the root, and two levels otherwise. *)
Lemma splay_step_spec s a x k v b f fs pp o :
  rep s (Br a x k v b) (f :: fs) pp o →
  ∃ s' a' b', _splay_step x (frame_loc f) s = Ok tt s' ∧
    rep s' (Br a' x k v b') (tail fs) (hole_parent (tail fs)) (Some x) ∧
    entries (plug (Br a' x k v b') (tail fs)) = entries (plug (Br a x k v b) (f :: fs)).
Proof.
  intros H. pose proof (rep_frame _ _ _ _ _ _ _ _ _ _ H) as (np & Hnp & Hpp & Hside).
  unfold _splay_step. step. rewrite Hpp.
  destruct fs as [|f2 fs]; simpl.
  - (* zig *)
    destruct (rotate_spec _ _ _ _ _ _ _ _ _ _ H) as (s' & E & H').
    destruct f; simpl in H'; do 3 eexists; (split_and!; [exact E|exact H'|]);
      simpl; by rewrite <- ?app_assoc.
  - pose proof (rep_up _ _ _ _ _ _ H) as Hup.
    assert (∃ c p kp vp d, plug (Br a x k v b) [f] = Br c p kp vp d ∧ p = frame_loc f)
      as (c & p & kp & vp & d & Ef & Ep) by (destruct f; simpl; eauto 10).
    rewrite Ef in Hup.
    pose proof (rep_frame _ _ _ _ _ _ _ _ _ _ Hup) as (ng & Hng & _ & Hside2).
    step. rewrite Hside. rewrite Ep in Hside2. rewrite Hside2.
    destruct (rotate_spec _ _ _ _ _ _ _ _ _ _ Hup) as (s1 & E1 & H1).
    destruct (rotate_spec _ _ _ _ _ _ _ _ _ _ H) as (s1' & E1' & H1').
    destruct f as [p' kp' vp' c'|c' p' kp' vp'], f2 as [g kg vg e|e g kg vg];
      simpl in *; injection Ef as <- <- <- <- <-.
    + (* zig-zig, left *)
      rewrite (bind_Ok _ _ _ _ _ E1). clear E1' H1'.
      apply rep_down_l in H1 as [lo H1].
      pose proof (rep_root _ _ _ _ _ _ _ _ _ H1) as (-> & _).
      destruct (rotate_spec _ _ _ _ _ _ _ _ _ _ H1) as (s2 & E2 & H2).
      simpl in H2. do 3 eexists. split_and!; [done..|].
      apply entries_plug_ext. simpl. by list_norm.
    + (* zig-zag *)
      rewrite (bind_Ok _ _ _ _ _ E1'). clear E1 H1.
      destruct (rotate_spec _ _ _ _ _ _ _ _ _ _ H1') as (s2 & E2 & H2).
      simpl in H2. do 3 eexists. split_and!; [done..|].
      apply entries_plug_ext. simpl. by list_norm.
    + (* zig-zag *)
      rewrite (bind_Ok _ _ _ _ _ E1'). clear E1 H1.
      destruct (rotate_spec _ _ _ _ _ _ _ _ _ _ H1') as (s2 & E2 & H2).
      simpl in H2. do 3 eexists. split_and!; [done..|].
      apply entries_plug_ext. simpl. by list_norm.
    + (* zig-zig, right *)
      rewrite (bind_Ok _ _ _ _ _ E1). clear E1' H1'.
      apply rep_down_r in H1 as [ro H1].
      pose proof (rep_root _ _ _ _ _ _ _ _ _ H1) as (-> & _).
      destruct (rotate_spec _ _ _ _ _ _ _ _ _ _ H1) as (s2 & E2 & H2).
      simpl in H2. do 3 eexists. split_and!; [done..|].
      apply entries_plug_ext. simpl. by list_norm.
Qed.

(** [_splay] brings the node to the root in at most as many iterations as
    the node has ancestors, and keeps the in-order listing. *)
Lemma splay_spec fuel s a x k v b fs pp o :
  rep s (Br a x k v b) fs pp o →
  (length fs ≤ fuel)%nat →
  ∃ s' a' b', _splay fuel x s = Ok tt s' ∧
    rep s' (Br a' x k v b') [] None (Some x) ∧
    entries (Br a' x k v b') = entries (plug (Br a x k v b) fs).
Proof.
  revert s a b fs pp o. induction fuel as [|fuel IH]; intros s a b fs pp o H Hlen.
  - destruct fs; [|simpl in Hlen; lia].
    pose proof (rep_root _ _ _ _ _ _ _ _ _ H) as (-> & -> & n & Hn & _ & _ & Hp).
    simpl. step. rewrite Hp. exists s, a, b. split_and!; done.
  - pose proof (rep_root _ _ _ _ _ _ _ _ _ H) as (-> & -> & n & Hn & _ & _ & Hp).
    simpl. step. rewrite Hp. destruct fs as [|f fs].
    { exists s, a, b. split_and!; done. }
    change (hole_parent (f :: fs)) with (Some (frame_loc f)). cbv iota.
    destruct (splay_step_spec _ _ _ _ _ _ _ _ _ _ H) as (s1 & a1 & b1 & E1 & H1 & En1).
    rewrite (bind_Ok _ _ _ _ _ E1).
    destruct (IH _ _ _ _ _ _ H1) as (s' & a' & b' & E' & H' & En').
    { destruct fs; simpl in *; lia. }
    exists s', a', b'. split_and!; [done..|]. etrans; [exact En'|exact En1].
Qed.
End Splay.

(** ** The descent of [insert] and [search] *)

Section Descend.
Implicit Types (h : gmap loc Node) (t a b c : tree) (fs : path) (x y p : loc).

Lemma sorted_middle (l1 l2 : list Z) (x : Z) :
  StronglySorted Z.lt (l1 ++ x :: l2) →
  Forall (λ z, z < x) l1 ∧ Forall (λ z, x < z) l2.
Proof.
  intros Hs. apply StronglySorted_app in Hs as (Hs1 & _ & Hs2).
  apply StronglySorted_cons in Hs2 as [Hs2 _]. split; [|done].
  rewrite Forall_forall. intros z Hz. apply Hs1; [done|]. by left.
Qed.

Lemma keys_plug_Br l x kx v r fs :
  keys (plug (Br l x kx v r) fs) =
  (((λ e, e.1.2) <$> before fs) ++ keys l) ++ kx :: (keys r ++ ((λ e, e.1.2) <$> after fs)).
Proof. rewrite keys_plug, keys_Br. by list_norm. Qed.

Lemma between_sorted_left k l x kx v r fs :
  StronglySorted Z.lt (keys (plug (Br l x kx v r) fs)) →
  between k fs → k < kx → between k (InL x kx v r :: fs).
Proof.
  rewrite keys_plug_Br. intros [_ Hs]%sorted_middle [Hb Ha] Hk.
  split; [done|]. simpl.
  constructor; [done|]. apply Forall_app. split; [|done].
  apply Forall_app in Hs as [Hs _]. unfold keys in Hs.
  rewrite Forall_fmap in Hs. eapply Forall_impl; [exact Hs|]. simpl. intros; lia.
Qed.

Lemma between_sorted_right k l x kx v r fs :
  StronglySorted Z.lt (keys (plug (Br l x kx v r) fs)) →
  between k fs → kx < k → between k (InR l x kx v :: fs).
Proof.
  rewrite keys_plug_Br. intros [Hs _]%sorted_middle [Hb Ha] Hk.
  split; [|done]. simpl.
  apply Forall_app. split; [done|]. apply Forall_app. split; [|by constructor].
  apply Forall_app in Hs as [_ Hs]. unfold keys in Hs.
  rewrite Forall_fmap in Hs. eapply Forall_impl; [exact Hs|]. simpl. intros; lia.
Qed.

Lemma between_not_in k fs : between k fs → k ∉ keys (plug Leaf fs).
Proof.
  intros [Hb Ha]. rewrite keys_plug. change (keys Leaf) with (@nil Z). simpl.
  rewrite elem_of_app, !list_elem_of_fmap. rewrite Forall_forall in Hb, Ha.
  intros [(e & -> & He)|(e & -> & He)].
  - specialize (Hb _ He). lia.
  - specialize (Ha _ He). lia.
Qed.

Lemma descend_spec k fuel s t fs pp o :
  rep s t fs pp o →
  StronglySorted Z.lt (keys (plug t fs)) →
  between k fs →
  (length (entries t) ≤ fuel)%nat →
  (∃ a x v b fs',
      descend fuel k o pp s = Ok (Found x) s ∧
      rep s (Br a x k v b) fs' (hole_parent fs') (Some x) ∧
      plug (Br a x k v b) fs' = plug t fs) ∨
  (∃ fs',
      descend fuel k o pp s = Ok (Missed (hole_parent fs')) s ∧
      rep s Leaf fs' (hole_parent fs') None ∧
      plug Leaf fs' = plug t fs ∧ between k fs' ∧
      (length fs + length (take 1 (entries t)) ≤ length fs')%nat).
Proof.
  revert fuel fs pp o. induction t as [|l IHl x kx v r IHr]; intros fuel fs pp o H Hs Hb Hf.
  - right. exists fs. pose proof H as [Ht Hp _ _]. simpl in Ht. subst o.
    pose proof (is_path_parent _ _ _ _ _ Hp) as ->.
    destruct fuel; simpl; split_and!; (done || lia).
  - pose proof (rep_root _ _ _ _ _ _ _ _ _ H) as (-> & -> & _).
    destruct fuel as [|fuel]; [simpl in Hf; rewrite length_app in Hf; simpl in Hf; lia|].
    simpl in Hf. rewrite length_app in Hf. simpl in Hf.
    pose proof H as [Ht _ _ _]. destruct Ht as (_ & lo & ro & Hx & Hl & Hr).
    simpl. step.
    destruct (decide (k < kx)) as [Hlt|Hge].
    + rewrite bool_decide_true by done.
      destruct (rep_down_l _ _ _ _ _ _ _ _ _ H) as (lo' & H').
      assert (lo' = lo) as -> by (destruct H' as [? Hp' _ _]; simpl in Hp'; naive_solver).
      destruct (IHl fuel _ _ _ H') as [(a & y & w & b & fs' & E & H'' & Epl)|(fs' & E & H'' & Epl & Hb' & Hnil)];
        [exact Hs|by apply (between_sorted_left k l x kx v r fs)|lia|..].
      * left. eauto 10.
      * right. exists fs'. split_and!; try done. revert Hnil.
        destruct (entries l); simpl; lia.
    + rewrite bool_decide_false by done.
      destruct (decide (k > kx)) as [Hgt|Hle].
      * rewrite bool_decide_true by done.
        destruct (rep_down_r _ _ _ _ _ _ _ _ _ H) as (ro' & H').
        assert (ro' = ro) as -> by (destruct H' as [? Hp' _ _]; simpl in Hp'; naive_solver).
        destruct (IHr fuel _ _ _ H') as [(a & y & w & b & fs' & E & H'' & Epl)|(fs' & E & H'' & Epl & Hb' & Hnil)];
          [exact Hs|apply (between_sorted_right k l x kx v r fs); [done..|lia]|lia|..].
        -- left. eauto 10.
        -- right. exists fs'. split_and!; try done. revert Hnil.
           destruct (entries l); simpl; lia.
      * rewrite bool_decide_false by done. assert (k = kx) as -> by lia.
        left. exists l, x, v, r, fs. split_and!; done.
Qed.
End Descend.

(** ** Well-formed states and the trees they hold *)

Section Abs.
Implicit Types (h : gmap loc Node) (t a b c : tree) (fs : path) (x y : loc)
  (p o : option loc).

Lemma tree_of_sound fuel h p o t : tree_of fuel h p o = Some t → is_tree h p o t.
Proof.
  revert p o t. induction fuel as [|fuel IH]; intros p o t; destruct o as [x|]; simpl;
    try (intros [= <-]; done); try done.
  destruct (h !! x) as [n|] eqn:Hx; simpl; [|done].
  destruct (decide (parent n = p)) as [<-|]; [|done].
  destruct (tree_of fuel h (Some x) (left n)) as [l|] eqn:Hl; simpl; [|done].
  destruct (tree_of fuel h (Some x) (right n)) as [r|] eqn:Hr; simpl; [|done].
  intros [= <-]. simpl. split; [done|]. exists (left n), (right n).
  destruct n; simpl in *. eauto.
Qed.

Lemma tree_of_complete fuel h p o t :
  is_tree h p o t → (length (entries t) ≤ fuel)%nat → tree_of fuel h p o = Some t.
Proof.
  revert fuel p o. induction t as [|l IHl x k v r IHr]; intros fuel p o; simpl.
  - intros -> _. by destruct fuel.
  - intros (-> & lo & ro & Hx & Hl & Hr). rewrite length_app. simpl. intros Hf.
    destruct fuel as [|fuel]; [lia|]. simpl. rewrite Hx. simpl.
    rewrite decide_True by done.
    rewrite (IHl fuel _ _ Hl) by lia. rewrite (IHr fuel _ _ Hr) by lia. done.
Qed.

(** The keys of the tree are read from the store. *)
Lemma is_tree_keys h p o t :
  is_tree h p o t →
  keys t = (λ y, default 0 (key <$> h !! y)) <$> locs t.
Proof.
  intros Ht. unfold keys, locs. rewrite <- list_fmap_compose.
  apply list_fmap_ext. intros i [[y k] v] He. simpl.
  apply list_elem_of_lookup_2 in He.
  destruct (is_tree_entry _ _ _ _ _ _ _ Ht He) as (n & -> & <- & _). done.
Qed.

Lemma is_tree_NoDup h p o t : is_tree h p o t → bst t → NoDup (locs t).
Proof.
  intros Ht Hb. apply bst_keys_NoDup in Hb.
  rewrite (is_tree_keys _ _ _ _ Ht) in Hb. by apply NoDup_fmap_1 in Hb.
Qed.

Lemma rep_dom_set s t fs pp o :
  rep s t fs pp o → dom (heap s) = list_to_set (locs (plug t fs)).
Proof.
  intros [Ht Hp ND Hdom].
  apply set_eq. intros y. rewrite elem_of_dom, elem_of_list_to_set.
  split; [by apply Hdom|].
  rewrite locs_plug_perm, elem_of_app. intros [Hy|Hy].
  - by eapply is_tree_lookup.
  - by eapply is_path_lookup.
Qed.

Lemma rep_size s t fs pp o : rep s t fs pp o → size (heap s) = length (entries (plug t fs)).
Proof.
  intros H. rewrite <- length_locs, <- size_dom, (rep_dom_set _ _ _ _ _ H).
  apply size_list_to_set, H.
Qed.

Lemma rep_abs s t : rep s t [] None (root s) → abs s = Some t.
Proof.
  intros H. unfold abs. apply tree_of_complete; [apply H|].
  by rewrite (rep_size _ _ _ _ _ H).
Qed.

(** A state is well formed exactly when it holds an ordered tree. *)
Lemma wf_rep s : wf s ↔ ∃ t, rep s t [] None (root s) ∧ bst t.
Proof.
  split.
  - unfold wf. destruct (abs s) as [t|] eqn:Ht; [|done]. intros [Hb Hlen].
    exists t. split; [|done]. apply tree_of_sound in Ht.
    pose proof (is_tree_NoDup _ _ _ _ Ht Hb) as ND.
    split; simpl; [done..|].
    assert (list_to_set (locs t) = dom (heap s)) as Hd.
    { apply set_subseteq_size_eq.
      - intros y. rewrite elem_of_list_to_set, elem_of_dom. by eapply is_tree_lookup.
      - rewrite size_list_to_set, size_dom, length_locs by done. lia. }
    intros y Hy. apply elem_of_dom in Hy. rewrite <- Hd in Hy.
    by apply elem_of_list_to_set in Hy.
  - intros (t & H & Hb). unfold wf. rewrite (rep_abs _ _ H). split; [done|].
    by rewrite (rep_size _ _ _ _ _ H).
Qed.

Lemma rep_contents s t : rep s t [] None (root s) → contents s = items t.
Proof. intros H. unfold contents. by rewrite (rep_abs _ _ H). Qed.

Lemma rep_root_key s a x k v b :
  rep s (Br a x k v b) [] None (root s) → root s = Some x ∧ root_key s = Some k.
Proof.
  intros H. pose proof H as [Ht _ _ _]. destruct Ht as (Hr & lo & ro & Hx & _).
  unfold root_key. rewrite Hr. simpl. by rewrite Hx.
Qed.

(** Any node of the tree can be taken as the focus. *)
Lemma rep_focus s t fs pp o x :
  rep s t fs pp o → x ∈ locs t →
  ∃ a k v b fs', rep s (Br a x k v b) fs' (hole_parent fs') (Some x) ∧
    plug (Br a x k v b) fs' = plug t fs ∧ (length fs ≤ length fs')%nat.
Proof.
  revert fs pp o. induction t as [|l IHl y k v r IHr]; intros fs pp o H.
  - unfold locs; simpl. by intros ?%elem_of_nil.
  - rewrite locs_Br, elem_of_app, elem_of_cons. intros [Hx|[->|Hx]].
    + destruct (rep_down_l _ _ _ _ _ _ _ _ _ H) as [lo H'].
      destruct (IHl _ _ _ H' Hx) as (a & k' & v' & b & fs' & ? & ? & ?).
      exists a, k', v', b, fs'. split_and!; [done..|]. simpl in *; lia.
    + pose proof (rep_root _ _ _ _ _ _ _ _ _ H) as (-> & -> & _).
      exists l, k, v, r, fs. done.
    + destruct (rep_down_r _ _ _ _ _ _ _ _ _ H) as [lo H'].
      destruct (IHr _ _ _ H' Hx) as (a & k' & v' & b & fs' & ? & ? & ?).
      exists a, k', v', b, fs'. split_and!; [done..|]. simpl in *; lia.
Qed.

Lemma path_length fs : (length fs ≤ length (plocs fs))%nat.
Proof.
  induction fs as [|[] fs IH]; simpl; [lia|..].
  - rewrite plocs_InL. simpl. rewrite length_app. lia.
  - rewrite plocs_InR. simpl. rewrite length_app. lia.
Qed.

Lemma rep_path_length s t fs pp o :
  rep s t fs pp o → (length fs + length (entries t) ≤ size (heap s))%nat.
Proof.
  intros H. rewrite (rep_size _ _ _ _ _ H), <- (length_locs (plug t fs)).
  rewrite locs_plug_perm, length_app.
  pose proof (path_length fs). rewrite length_locs. lia.
Qed.
End Abs.

(** ** [insert] and [search] on the tree a state holds *)

Section Methods.
Implicit Types (h : gmap loc Node) (t a b c : tree) (fs : path) (x y : loc)
  (pp o : option loc).

Lemma locs_plug_val a x k v w b fs :
  locs (plug (Br a x k v b) fs) = locs (plug (Br a x k w b) fs).
Proof. by rewrite !locs_plug, !locs_Br. Qed.

(** Line 81, [node.val = val], on the node in focus. *)
Lemma set_val_spec s a x k w v b fs pp o :
  rep s (Br a x k w b) fs pp o →
  ∃ s1, set_val x v s = Ok tt s1 ∧ rep s1 (Br a x k v b) fs pp o.
Proof.
  destruct s as [rt h]. intros [Ht Hp ND Hdom]. simpl in *.
  destruct Ht as (-> & lo & ro & Hx & Hl & Hr).
  pose proof ND as ND0. nodup_split ND.
  step. eexists. split; [reflexivity|]. split; cbn [root heap].
  - simpl. split; [done|]. exists lo, ro. split_and!.
    + lk.
    + eapply is_tree_frame; [|done]. intros y Hy. assert (y ≠ x) by sets. lk.
    + eapply is_tree_frame; [|done]. intros y Hy. assert (y ≠ x) by sets. lk.
  - eapply is_path_frame; [|done]. intros y Hy. assert (y ≠ x) by sets. lk.
  - by rewrite (locs_plug_val _ _ _ _ w).
  - intros y. rewrite lookup_insert_is_Some, (locs_plug_val _ _ _ _ w).
    intros [<-|[_ Hy]]; eauto.
Qed.

Lemma sorted_insert k fs x v :
  between k fs →
  StronglySorted Z.lt (keys (plug Leaf fs)) →
  StronglySorted Z.lt (keys (plug (Br Leaf x k v Leaf) fs)).
Proof.
  intros [Hb Ha]. rewrite !keys_plug. change (keys Leaf) with (@nil Z).
  change (keys (Br Leaf x k v Leaf)) with [k]. simpl.
  rewrite !StronglySorted_app. intros (Hba & Sb & Sa). split_and!; [|done|].
  - intros z1 z2 H1 H2. apply elem_of_cons in H2 as [->|H2]; [|by apply Hba].
    apply list_elem_of_fmap in H1 as (e & -> & He).
    rewrite Forall_forall in Hb. by apply Hb.
  - apply StronglySorted_cons. split; [|done]. by rewrite Forall_fmap.
Qed.

Lemma new_Node_Ok k v s :
  new_Node k v s =
  Ok (fresh (dom (heap s)))
     (mkTree (root s) (<[fresh (dom (heap s)) := mkNode k v None None None]> (heap s))).
Proof. done. Qed.

(** Lines 84-89: the new node hangs below the last node of the descent. *)
Lemma insert_link_spec s k v f fs pp :
  rep s Leaf (f :: fs) pp None →
  between k (f :: fs) →
  ∃ x s1 np,
    insert_link k v (Some (frame_loc f)) s = Ok x s1 ∧
    heap s !! x = None ∧
    rep s1 (Br Leaf x k v Leaf) (f :: fs) (Some (frame_loc f)) (Some x) ∧
    heap s1 !! x = Some (mkNode k v None None (Some (frame_loc f))) ∧
    heap s1 !! frame_loc f = Some np ∧
    (if is_InL f then left np = Some x else right np = Some x).
Proof.
  destruct s as [rt h]. intros [Ht Hp ND Hdom] [Hb Ha]. cbn [root heap] in *.
  pose proof (is_path_parent _ _ _ _ _ Hp) as Epp.
  change (hole_parent (f :: fs)) with (Some (frame_loc f)) in Epp. subst pp.
  pose proof (new_Node_Ok k v (mkTree rt h)) as Enew. cbn [root heap] in Enew.
  assert (h !! fresh (dom h) = None) as Hx by (apply not_elem_of_dom, is_fresh).
  revert Enew Hx. generalize (fresh (dom h)). intros x Enew Hx.
  assert (∀ y, y ∈ plocs (f :: fs) → y ≠ x) as Hfresh.
  { intros y Hy ->. destruct (is_path_lookup _ _ _ _ _ _ Hp Hy) as [? E]. congruence. }
  rewrite locs_plug_perm in ND. change (locs Leaf) with (@nil loc) in ND. simpl in ND.
  assert (frame_loc f ∈ plocs (f :: fs)) as Hpin by (by apply hole_parent_plocs).
  pose proof (Hfresh _ Hpin) as Hpx.
  unfold insert_link. rewrite (bind_Ok _ _ _ _ _ Enew). step.
  destruct f as [p kp vp r|l p kp vp]; cbn [frame_loc is_InL] in *.
  - pose proof Hp as (_ & ro & gp & Hpl & Hr & Hfs).
    step. rewrite bool_decide_true; cycle 1.
    { simpl in Ha. apply Forall_cons in Ha as [Ha _]. done. }
    step. rewrite ret_Ok. do 3 eexists. split; [reflexivity|].
    cbn [root heap]. split_and!; [done| |lk|lk|done].
    split; cbn [root heap].
    + simpl. split; [done|]. exists None, None. split_and!; [lk|done..].
    + eapply is_path_refill; [exact Hp|done| |].
      * split; [done|]. intros n Hn. rewrite Hpl in Hn. injection Hn as <-. lk.
      * intros y Hy Hne. assert (y ≠ p) by congruence. pose proof (Hfresh _ Hy). lk.
    + rewrite locs_plug_perm. change (locs (Br Leaf x k v Leaf)) with [x]. simpl.
      apply NoDup_cons. split; [|done]. intros Hin. by apply (Hfresh _ Hin).
    + intros y. rewrite !lookup_insert_is_Some.
      rewrite locs_plug_perm. change (locs (Br Leaf x k v Leaf)) with [x]. simpl.
      intros Hy. apply elem_of_cons.
      destruct (decide (x = y)) as [->|]; [by left|right].
      assert (is_Some (h !! y)) as Hy' by naive_solver.
      apply Hdom in Hy'. rewrite locs_plug_perm in Hy'. done.
  - pose proof Hp as (_ & lo & gp & Hpl & Hl & Hfs).
    step. rewrite bool_decide_false; cycle 1.
    { simpl in Hb. rewrite !Forall_app in Hb. destruct Hb as (_ & _ & Hb).
      apply Forall_cons in Hb as [Hb _]. simpl in Hb. lia. }
    step. rewrite ret_Ok. do 3 eexists. split; [reflexivity|].
    cbn [root heap]. split_and!; [done| |lk|lk|done].
    split; cbn [root heap].
    + simpl. split; [done|]. exists None, None. split_and!; [lk|done..].
    + eapply is_path_refill; [exact Hp|done| |].
      * split; [done|]. intros n Hn. rewrite Hpl in Hn. injection Hn as <-. lk.
      * intros y Hy Hne. assert (y ≠ p) by congruence. pose proof (Hfresh _ Hy). lk.
    + rewrite locs_plug_perm. change (locs (Br Leaf x k v Leaf)) with [x]. simpl.
      apply NoDup_cons. split; [|done]. intros Hin. by apply (Hfresh _ Hin).
    + intros y. rewrite !lookup_insert_is_Some.
      rewrite locs_plug_perm. change (locs (Br Leaf x k v Leaf)) with [x]. simpl.
      intros Hy. apply elem_of_cons.
      destruct (decide (x = y)) as [->|]; [by left|right].
      assert (is_Some (h !! y)) as Hy' by naive_solver.
      apply Hdom in Hy'. rewrite locs_plug_perm in Hy'. done.
Qed.

Lemma rep_nil_root s t pp o : rep s t [] pp o → rep s t [] None (root s).
Proof. intros H. pose proof H as [_ [-> ->] _ _]. done. Qed.

Lemma get_root_bind {B} (f : option loc → M B) s :
  (get_root ≫= f) s = f (root s) s.
Proof. done. Qed.

Lemma between_nil k : between k [].
Proof. split; constructor. Qed.

(** The descent from the root ends on the node that holds the key when
    the tree has it. *)
Lemma descend_found fuel s t k :
  rep s t [] None (root s) → bst t → k ∈ keys t →
  (size (heap s) ≤ fuel)%nat →
  ∃ a x v b fs,
    descend fuel k (root s) None s = Ok (Found x) s ∧
    rep s (Br a x k v b) fs (hole_parent fs) (Some x) ∧
    plug (Br a x k v b) fs = t.
Proof.
  intros H Hb Hk Hf. apply bst_sorted in Hb.
  destruct (descend_spec k fuel _ _ _ _ _ H Hb (between_nil k))
    as [(a & x & v & b & fs & E & H' & Ep)|(fs & E & H' & Ep & Hbt & _)].
  - pose proof (rep_size _ _ _ _ _ H) as Hsz. simpl in Hsz. lia.
  - eauto 10.
  - apply between_not_in in Hbt. rewrite Ep in Hbt. done.
Qed.

(** ... and past a leaf, below the last node visited, when it has not. *)
Lemma descend_missed fuel s t k :
  rep s t [] None (root s) → bst t → k ∉ keys t →
  (size (heap s) ≤ fuel)%nat →
  ∃ fs,
    descend fuel k (root s) None s = Ok (Missed (hole_parent fs)) s ∧
    rep s Leaf fs (hole_parent fs) None ∧
    plug Leaf fs = t ∧ between k fs ∧ (t ≠ Leaf → fs ≠ []).
Proof.
  intros H Hb Hk Hf. apply bst_sorted in Hb.
  destruct (descend_spec k fuel _ _ _ _ _ H Hb (between_nil k))
    as [(a & x & v & b & fs & E & H' & Ep)|(fs & E & H' & Ep & Hbt & Hlen)].
  - pose proof (rep_size _ _ _ _ _ H) as Hsz. simpl in Hsz. lia.
  - exfalso. apply Hk. simpl in Ep. rewrite <- Ep, keys_plug, keys_Br. set_solver.
  - exists fs. split_and!; try done. intros Ht ->. destruct t; [done|].
    simpl in Hlen. destruct (entries t1); simpl in Hlen; lia.
Qed.

Lemma insert_empty fuel s k v :
  rep s Leaf [] None (root s) →
  ∃ x s', insert fuel k v s = Ok tt s' ∧ heap s !! x = None ∧
    rep s' (Br Leaf x k v Leaf) [] None (root s').
Proof.
  destruct s as [rt h]. intros [Ht Hp ND Hdom]. cbn [root heap] in *.
  simpl in Ht. subst rt.
  assert (h = ∅) as ->.
  { apply map_empty. intros y. apply eq_None_not_Some. intros Hy.
    apply Hdom in Hy. simpl in Hy. by apply elem_of_nil in Hy. }
  unfold insert. rewrite get_root_bind. cbn [root].
  rewrite (bind_Ok _ _ _ _ _ (new_Node_Ok k v _)). cbn [root heap].
  generalize (fresh (dom (∅ : gmap loc Node))). intros x.
  exists x. eexists. split; [reflexivity|]. split; [done|].
  split; cbn [root heap]; simpl.
  - split; [done|]. exists None, None. by rewrite lookup_insert_eq.
  - done.
  - apply NoDup_singleton.
  - intros y. rewrite lookup_insert_is_Some, lookup_empty.
    intros [<-|[_ Hn]]; [|by apply is_Some_None in Hn].
    unfold locs; simpl. set_solver.
Qed.

Lemma insert_found fuel s t k v :
  rep s t [] None (root s) → bst t → k ∈ keys t →
  (size (heap s) ≤ fuel)%nat →
  ∃ a x w b fs s' a' b',
    rep s (Br a x k w b) fs (hole_parent fs) (Some x) ∧
    plug (Br a x k w b) fs = t ∧
    insert fuel k v s = Ok tt s' ∧
    rep s' (Br a' x k v b') [] None (root s') ∧
    entries (Br a' x k v b') = entries (plug (Br a x k v b) fs).
Proof.
  intros H Hb Hk Hf.
  destruct (descend_found _ _ _ _ H Hb Hk Hf) as (a & x & w & b & fs & E & H' & Ep).
  destruct (set_val_spec _ _ _ _ _ v _ _ _ _ H') as (s1 & E1 & H1).
  destruct (splay_spec fuel _ _ _ _ _ _ _ _ _ H1) as (s' & a' & b' & E' & H'' & En).
  { pose proof (rep_path_length _ _ _ _ _ H'). lia. }
  exists a, x, w, b, fs, s', a', b'. split_and!; try done.
  - unfold insert. rewrite get_root_bind.
    destruct (rep_root _ _ _ _ _ _ _ _ _ H') as (_ & _ & n & Hn & _).
    destruct (root s) as [r|] eqn:Er.
    + cbn beta iota. rewrite (bind_Ok _ _ _ _ _ E). cbn beta iota.
      rewrite (bind_Ok _ _ _ _ _ E1). done.
    + destruct H as [Ht _ _ _]. destruct t; [|by destruct Ht].
      unfold keys in Hk. simpl in Hk. by apply elem_of_nil in Hk.
  - by apply rep_nil_root in H''.
Qed.

Lemma rep_root_Some s t r :
  rep s t [] None (root s) → root s = Some r → t ≠ Leaf.
Proof. intros [Ht _ _ _] Hr ->. simpl in Ht. congruence. Qed.

Lemma rep_root_None s t :
  rep s t [] None (root s) → root s = None → t = Leaf.
Proof. intros [Ht _ _ _] Hr. rewrite Hr in Ht. destruct t; [done|by destruct Ht]. Qed.

Lemma insert_missed fuel s t k v :
  rep s t [] None (root s) → bst t → k ∉ keys t → t ≠ Leaf →
  (size (heap s) ≤ fuel)%nat →
  ∃ f fs x s1 np s' a' b',
    descend fuel k (root s) None s = Ok (Missed (Some (frame_loc f))) s ∧
    rep s Leaf (f :: fs) (Some (frame_loc f)) None ∧
    plug Leaf (f :: fs) = t ∧
    insert_link k v (Some (frame_loc f)) s = Ok x s1 ∧
    heap s !! x = None ∧
    heap s1 !! x = Some (mkNode k v None None (Some (frame_loc f))) ∧
    heap s1 !! frame_loc f = Some np ∧
    (if is_InL f then left np = Some x else right np = Some x) ∧
    _splay fuel x s1 = Ok tt s' ∧
    insert fuel k v s = Ok tt s' ∧
    rep s' (Br a' x k v b') [] None (root s') ∧
    entries (Br a' x k v b') = entries (plug (Br Leaf x k v Leaf) (f :: fs)) ∧
    bst (Br a' x k v b').
Proof.
  intros H Hb Hk Hne Hf.
  destruct (descend_missed _ _ _ _ H Hb Hk Hf) as (fs0 & E & H' & Ep & Hbt & Hnil).
  destruct fs0 as [|f fs]; [by destruct (Hnil Hne)|].
  change (hole_parent (f :: fs)) with (Some (frame_loc f)) in *.
  destruct (insert_link_spec _ _ v _ _ _ H' Hbt) as (x & s1 & np & E1 & Hx & H1 & Hx1 & Hp1 & Hc).
  destruct (splay_spec fuel _ _ _ _ _ _ _ _ _ H1) as (s' & a' & b' & E' & H'' & En).
  { pose proof (rep_path_length _ _ _ _ _ H'). lia. }
  exists f, fs, x, s1, np, s', a', b'. split_and!; try done.
  - unfold insert. rewrite get_root_bind.
    destruct (root s) as [r|] eqn:Er.
    + cbn beta iota. rewrite (bind_Ok _ _ _ _ _ E). cbn beta iota.
      rewrite (bind_Ok _ _ _ _ _ E1). done.
    + destruct H as [Ht _ _ _]. destruct t; [done|by destruct Ht].
  - by apply rep_nil_root in H''.
  - apply bst_sorted. unfold keys. rewrite En. apply sorted_insert; [done|].
    rewrite Ep. by apply bst_sorted.
Qed.

Lemma search_found fuel s t k :
  rep s t [] None (root s) → bst t → k ∈ keys t →
  (size (heap s) ≤ fuel)%nat →
  ∃ a x v b fs s' a' b',
    rep s (Br a x k v b) fs (hole_parent fs) (Some x) ∧
    plug (Br a x k v b) fs = t ∧
    search fuel k s = Ok (Some x) s' ∧
    rep s' (Br a' x k v b') [] None (root s') ∧
    entries (Br a' x k v b') = entries t.
Proof.
  intros H Hb Hk Hf.
  destruct (descend_found _ _ _ _ H Hb Hk Hf) as (a & x & w & b & fs & E & H' & Ep).
  destruct (splay_spec fuel _ _ _ _ _ _ _ _ _ H') as (s' & a' & b' & E' & H'' & En).
  { pose proof (rep_path_length _ _ _ _ _ H'). lia. }
  exists a, x, w, b, fs, s', a', b'. split_and!; try done.
  - unfold search. rewrite get_root_bind, (bind_Ok _ _ _ _ _ E). cbn beta iota.
    rewrite (bind_Ok _ _ _ _ _ E'). done.
  - by apply rep_nil_root in H''.
  - by rewrite En, Ep.
Qed.

Lemma search_missed_empty fuel s k :
  rep s Leaf [] None (root s) → search fuel k s = Ok None s.
Proof.
  intros [Ht _ _ _]. simpl in Ht. unfold search.
  rewrite get_root_bind, Ht. by destruct fuel.
Qed.

Lemma search_missed fuel s t k :
  rep s t [] None (root s) → bst t → k ∉ keys t → t ≠ Leaf →
  (size (heap s) ≤ fuel)%nat →
  ∃ f fs s' a' kp vp b',
    descend fuel k (root s) None s = Ok (Missed (Some (frame_loc f))) s ∧
    rep s Leaf (f :: fs) (Some (frame_loc f)) None ∧
    plug Leaf (f :: fs) = t ∧
    _splay fuel (frame_loc f) s = Ok tt s' ∧
    search fuel k s = Ok None s' ∧
    rep s' (Br a' (frame_loc f) kp vp b') [] None (root s') ∧
    entries (Br a' (frame_loc f) kp vp b') = entries t.
Proof.
  intros H Hb Hk Hne Hf.
  destruct (descend_missed _ _ _ _ H Hb Hk Hf) as (fs0 & E & H' & Ep & Hbt & Hnil).
  destruct fs0 as [|f fs]; [by destruct (Hnil Hne)|].
  change (hole_parent (f :: fs)) with (Some (frame_loc f)) in *.
  pose proof (rep_up _ _ _ _ _ _ H') as Hup.
  assert (∃ c kp vp d, plug Leaf [f] = Br c (frame_loc f) kp vp d)
    as (c & kp & vp & d & Ef) by (destruct f; simpl; eauto 10).
  rewrite Ef in Hup.
  destruct (splay_spec fuel _ _ _ _ _ _ _ _ _ Hup) as (s' & a' & b' & E' & H'' & En).
  { pose proof (rep_path_length _ _ _ _ _ H'). simpl in *. lia. }
  exists f, fs, s', a', kp, vp, b'. split_and!; try done.
  - unfold search. rewrite get_root_bind, (bind_Ok _ _ _ _ _ E). cbn beta iota.
    rewrite (bind_Ok _ _ _ _ _ E'). done.
  - by apply rep_nil_root in H''.
  - rewrite En, <- Ef, <- Ep. by destruct f.
Qed.
End Methods.

(** ** Depth and parent pointers *)

Section Shape.
Implicit Types (h : gmap loc Node) (t a b c : tree) (fs : path) (x y : loc)
  (pp o : option loc).

Lemma depth_upto_spec fuel s a x k v b fs pp o :
  rep s (Br a x k v b) fs pp o → (length fs ≤ fuel)%nat →
  depth_upto fuel (heap s) x = Some (length fs).
Proof.
  revert fuel a x k v b pp o. induction fs as [|f fs IH]; intros fuel a x k v b pp o H Hf.
  - destruct (rep_root _ _ _ _ _ _ _ _ _ H) as (_ & _ & n & Hn & _ & _ & Hp).
    destruct fuel; simpl; rewrite Hn; simpl; by rewrite Hp.
  - destruct (rep_root _ _ _ _ _ _ _ _ _ H) as (_ & _ & n & Hn & _ & _ & Hp).
    destruct fuel as [|fuel]; [simpl in Hf; lia|]. simpl. rewrite Hn. simpl.
    rewrite Hp. change (hole_parent (f :: fs)) with (Some (frame_loc f)). cbv iota.
    apply rep_up in H.
    assert (∃ c kp vp d, plug (Br a x k v b) [f] = Br c (frame_loc f) kp vp d)
      as (c & kp & vp & d & Ef) by (destruct f; simpl; eauto 10).
    rewrite Ef in H. rewrite (IH fuel _ _ _ _ _ _ _ H); [done|]. simpl in Hf. lia.
Qed.

Lemma depth_spec s a x k v b fs pp o :
  rep s (Br a x k v b) fs pp o → depth s x = Some (length fs).
Proof.
  intros H. unfold depth. eapply depth_upto_spec; [done|].
  pose proof (rep_path_length _ _ _ _ _ H). lia.
Qed.

(** The root reference is the node of the outermost frame. *)
Lemma is_path_root h rt f fs pp o :
  is_path h rt (f :: fs) pp o → ∃ r, rt = Some r ∧ r ∈ plocs (f :: fs).
Proof.
  revert f pp o. induction fs as [|f' fs IH]; intros f pp o Hp.
  - exists (frame_loc f). split; [|by apply hole_parent_plocs].
    destruct f; simpl in Hp; naive_solver.
  - assert (∃ pp' o', is_path h rt (f' :: fs) pp' o') as (pp' & o' & Hp')
      by (destruct f; simpl in Hp; naive_solver).
    destruct (IH _ _ _ Hp') as (r & -> & Hr). exists r. split; [done|].
    destruct f; [rewrite plocs_InL|rewrite plocs_InR]; set_solver.
Qed.

Lemma rep_parent_consistent s t : rep s t [] None (root s) → parent_consistent s.
Proof.
  intros H x n Hn.
  assert (x ∈ locs t) as Hx by (apply (rep_dom _ _ _ _ _ H); eauto).
  destruct (rep_focus _ _ _ _ _ _ H Hx) as (a & k & v & b & fs & H' & _ & _).
  destruct (rep_root _ _ _ _ _ _ _ _ _ H') as (_ & _ & n' & Hn' & _ & _ & Hp).
  rewrite Hn in Hn'. injection Hn' as <-.
  destruct fs as [|f fs].
  - rewrite decide_True; [done|]. by destruct H' as [_ [<- _] _ _].
  - pose proof H' as [Ht Hpath ND _].
    destruct (is_path_root _ _ _ _ _ _ Hpath) as (r & Hr & Hrin).
    pose proof ND as ND0. nodup_split ND.
    rewrite decide_False; cycle 1.
    { rewrite Hr. intros [= ->]. sets. }
    clear Hrin. change (hole_parent (f :: fs)) with (Some (frame_loc f)) in *.
    destruct f as [p kp vp c|c p kp vp]; simpl in *; nodup_split ND0.
    + destruct Hpath as (_ & co & gp & Hpl & Hc & _).
      eexists _, _. split_and!; [done..|]. left. simpl. split; [done|].
      intros ->. apply is_tree_root in Hc. sets.
    + destruct Hpath as (_ & co & gp & Hpl & Hc & _).
      eexists _, _. split_and!; [done..|]. right. simpl. split; [|done].
      intros ->. apply is_tree_root in Hc. sets.
Qed.

Lemma is_tree_child h pp o t :
  is_tree h pp o t → ∀ y, o = Some y → ∃ ny, h !! y = Some ny ∧ parent ny = pp.
Proof.
  destruct t as [|l x k v r]; simpl; [by intros -> y|].
  intros (-> & lo & ro & Hx & _) y [= <-]. eauto.
Qed.

Lemma rep_children_point_back s t : rep s t [] None (root s) → children_point_back s.
Proof.
  intros H x n y Hn Hc.
  assert (x ∈ locs t) as Hx by (apply (rep_dom _ _ _ _ _ H); eauto).
  destruct (rep_focus _ _ _ _ _ _ H Hx) as (a & k & v & b & fs & [Ht _ _ _] & _ & _).
  destruct Ht as (_ & lo & ro & Hx' & Hl & Hr).
  rewrite Hn in Hx'. injection Hx' as ->. simpl in Hc.
  destruct Hc as [->| ->];
    [exact (is_tree_child _ _ _ _ Hl _ eq_refl)|exact (is_tree_child _ _ _ _ Hr _ eq_refl)].
Qed.

Lemma wf_parent_consistent s : wf s → parent_consistent s ∧ children_point_back s.
Proof.
  intros (t & H & _)%wf_rep.
  split; [by eapply rep_parent_consistent|by eapply rep_children_point_back].
Qed.

Lemma bst_entries t t' : entries t' = entries t → bst t → bst t'.
Proof. rewrite !bst_sorted. unfold keys. by intros ->. Qed.

(** [_rotate] on any live node keeps the state well formed. *)
Lemma rotate_wf s x :
  wf s → is_Some (heap s !! x) →
  ∃ s', _rotate x s = Ok tt s' ∧ wf s' ∧ contents s' = contents s.
Proof.
  intros (t & H & Hb)%wf_rep Hx.
  assert (x ∈ locs t) as Hin by (by apply (rep_dom _ _ _ _ _ H)).
  destruct (rep_focus _ _ _ _ _ _ H Hin) as (a & k & v & b & fs & H' & Ep & _).
  simpl in Ep. destruct fs as [|f fs].
  - exists s. split; [by eapply rotate_root|]. split; [|done].
    apply wf_rep. eauto.
  - destruct (rotate_spec _ _ _ _ _ _ _ _ _ _ H') as (s' & E & H'').
    exists s'. split; [done|].
    pose proof (rep_plug _ _ _ _ _ H'') as Ht'.
    pose proof (entries_rot (Br a x k v b) f fs ltac:(done)) as En.
    rewrite Ep in En. revert Ht' En. generalize (plug (rot (Br a x k v b) f) fs).
    intros t' Ht' En.
    split.
    + apply wf_rep. exists t'. split; [done|]. by eapply bst_entries.
    + rewrite (rep_contents _ _ Ht'), (rep_contents _ _ H). unfold items. by rewrite En.
Qed.
End Shape.

(** ** [insert] and [search] on well-formed states *)

Section Correct.
Implicit Types (h : gmap loc Node) (t a b c : tree) (fs : path) (x y : loc)
  (pp o : option loc).

Lemma items_entries t : items t = (λ e, (e.1.2, e.2)) <$> entries t.
Proof. done. Qed.

Lemma rep_inorder_keys s t : rep s t [] None (root s) → inorder_keys s = keys t.
Proof. intros H. unfold inorder_keys. by rewrite (rep_contents _ _ H), keys_items. Qed.

Lemma wf_abs s :
  wf s → ∃ t, abs s = Some t ∧ bst t ∧ NoDup (keys t).
Proof.
  intros (t & H & Hb)%wf_rep. exists t. split_and!; [by apply rep_abs|done|].
  by apply bst_keys_NoDup.
Qed.

Lemma insert_correct fuel s k v :
  wf s → (size (heap s) ≤ fuel)%nat →
  ∃ s', insert fuel k v s = Ok tt s' ∧ wf s' ∧ root_key s' = Some k ∧
    ((k ∈ inorder_keys s ∧ dom (heap s') = dom (heap s) ∧
      ∃ l1 w l2, contents s = l1 ++ (k, w) :: l2 ∧ contents s' = l1 ++ (k, v) :: l2) ∨
     ((k ∉ inorder_keys s) ∧ size (heap s') = S (size (heap s)) ∧
      ∃ l1 l2, contents s = l1 ++ l2 ∧ contents s' = l1 ++ (k, v) :: l2)).
Proof.
  intros (t & H & Hb)%wf_rep Hf.
  rewrite (rep_inorder_keys _ _ H), (rep_contents _ _ H).
  destruct (decide (k ∈ keys t)) as [Hk|Hk].
  - destruct (insert_found fuel _ _ _ v H Hb Hk Hf)
      as (a & x & w & b & fs & s' & a' & b' & H' & Ep & E & H'' & En).
    exists s'. split; [done|].
    assert (bst (Br a' x k v b')) as Hb'.
    { apply bst_sorted. apply bst_sorted in Hb. revert Hb. rewrite <- Ep.
      unfold keys. rewrite En, !entries_plug. simpl.
      by rewrite !fmap_app, !fmap_cons. }
    split; [apply wf_rep; eauto|]. split; [exact (proj2 (rep_root_key _ _ _ _ _ _ H''))|].
    left. split; [done|]. split.
    + rewrite (rep_dom_set _ _ _ _ _ H''), (rep_dom_set _ _ _ _ _ H'). simpl.
      f_equal. unfold locs at 1. rewrite En. apply locs_plug_val.
    + rewrite (rep_contents _ _ H''), !items_entries, En, <- Ep, !entries_plug. simpl.
      exists ((λ e, (e.1.2, e.2)) <$> (before fs ++ entries a)), w,
        ((λ e, (e.1.2, e.2)) <$> (entries b ++ after fs)).
      rewrite !fmap_app. simpl. split; by list_norm.
  - assert (t = Leaf ∨ t ≠ Leaf) as [->|Hne] by (destruct t; [by left|by right]).
    + destruct (insert_empty fuel _ k v H) as (x & s' & E & Hx & H').
      exists s'. split; [done|]. split; [apply wf_rep; eexists; split; [done|]; simpl|].
      { split_and!; (done || constructor). }
      split; [exact (proj2 (rep_root_key _ _ _ _ _ _ H'))|]. right. split; [done|]. split.
      * by rewrite (rep_size _ _ _ _ _ H'), (rep_size _ _ _ _ _ H).
      * exists [], []. by rewrite (rep_contents _ _ H').
    + destruct (insert_missed fuel _ _ _ v H Hb Hk Hne Hf)
        as (f & fs & x & s1 & np & s' & a' & b' & E & H' & Ep & E1 & Hx & Hx1 & Hp1 & Hc
            & E' & Ei & H'' & En & Hb').
      exists s'. split; [done|]. split; [apply wf_rep; eauto|].
      split; [exact (proj2 (rep_root_key _ _ _ _ _ _ H''))|]. right. split; [done|]. split.
      * rewrite (rep_size _ _ _ _ _ H''), (rep_size _ _ _ _ _ H). simpl plug.
        rewrite En, <- Ep, !entries_plug, !length_app. simpl. lia.
      * rewrite (rep_contents _ _ H''), !items_entries, En, <- Ep, !entries_plug.
        exists ((λ e, (e.1.2, e.2)) <$> before (f :: fs)),
          ((λ e, (e.1.2, e.2)) <$> after (f :: fs)).
        rewrite !fmap_app. done.
Qed.

Lemma search_correct fuel s k :
  wf s → (size (heap s) ≤ fuel)%nat →
  ∃ r s', search fuel k s = Ok r s' ∧ wf s' ∧
    contents s' = contents s ∧ dom (heap s') = dom (heap s) ∧
    ((k ∈ inorder_keys s ∧
      ∃ x n, r = Some x ∧ root s' = Some x ∧ root_key s' = Some k ∧
             heap s !! x = Some n ∧ key n = k) ∨
     ((k ∉ inorder_keys s) ∧ r = None ∧
      match root s with
      | None => s' = s
      | Some _ =>
        ∃ last, descend fuel k (root s) None s = Ok (Missed (Some last)) s ∧
                _splay fuel last s = Ok tt s' ∧ root s' = Some last
      end)).
Proof.
  intros (t & H & Hb)%wf_rep Hf.
  rewrite (rep_inorder_keys _ _ H), (rep_contents _ _ H).
  destruct (decide (k ∈ keys t)) as [Hk|Hk].
  - destruct (search_found fuel _ _ _ H Hb Hk Hf)
      as (a & x & v & b & fs & s' & a' & b' & H' & Ep & E & H'' & En).
    exists (Some x), s'. split; [done|].
    split; [apply wf_rep; eexists; split; [done|]; by eapply bst_entries|].
    split; [by rewrite (rep_contents _ _ H''), !items_entries, En|].
    split.
    { rewrite (rep_dom_set _ _ _ _ _ H''), (rep_dom_set _ _ _ _ _ H). simpl.
      unfold locs. by rewrite En. }
    left. split; [done|].
    destruct (rep_root _ _ _ _ _ _ _ _ _ H') as (_ & _ & n & Hn & Hkn & _).
    destruct (rep_root_key _ _ _ _ _ _ H'') as [Hr Hrk]. eauto 10.
  - assert (t = Leaf ∨ t ≠ Leaf) as [->|Hne] by (destruct t; [by left|by right]).
    + exists None, s. rewrite (search_missed_empty _ _ _ H).
      split; [done|]. split; [apply wf_rep; eauto|].
      split; [by rewrite (rep_contents _ _ H)|]. split; [done|].
      right. split; [done|]. split; [done|].
      destruct H as [Ht _ _ _]. simpl in Ht. by rewrite Ht.
    + destruct (search_missed fuel _ _ _ H Hb Hk Hne Hf)
        as (f & fs & s' & a' & kp & vp & b' & E & H' & Ep & E' & Es & H'' & En).
      exists None, s'. split; [done|].
      split; [apply wf_rep; eexists; split; [done|]; by eapply bst_entries|].
      split; [by rewrite (rep_contents _ _ H''), !items_entries, En|].
      split.
      { rewrite (rep_dom_set _ _ _ _ _ H''), (rep_dom_set _ _ _ _ _ H). simpl.
        unfold locs. by rewrite En. }
      right. split; [done|]. split; [done|].
      destruct (root s) as [r|] eqn:Er.
      * exists (frame_loc f). split_and!; [done..|].
        exact (proj1 (rep_root_key _ _ _ _ _ _ H'')).
      * destruct H as [Ht _ _ _]. destruct t; [done|by destruct Ht].
Qed.
End Correct.

(** ** More fuel never changes a result *)

Section Fuel.
Lemma bind_Ok_inv {A B} (m : M A) (f : A → M B) s b s'' :
  (m ≫= f) s = Ok b s'' → ∃ a s', m s = Ok a s' ∧ f a s' = Ok b s''.
Proof. unfold mbind, M_bind, bind. destruct (m s); [eauto|done..]. Qed.

Lemma splay_mono f f' x s s' :
  _splay f x s = Ok tt s' → (f ≤ f')%nat → _splay f' x s = Ok tt s'.
Proof.
  revert f' s. induction f as [|f IH]; intros f' s E Hf.
  - destruct f'; simpl in *.
    + done.
    + apply bind_Ok_inv in E as (n & s1 & E1 & E2). rewrite (bind_Ok _ _ _ _ _ E1).
      by destruct (parent n).
  - destruct f' as [|f']; [lia|]. simpl in *.
    apply bind_Ok_inv in E as (n & s1 & E1 & E2). rewrite (bind_Ok _ _ _ _ _ E1).
    destruct (parent n); [|done].
    apply bind_Ok_inv in E2 as ([] & s2 & E2 & E3). rewrite (bind_Ok _ _ _ _ _ E2).
    apply IH; [done|lia].
Qed.

Lemma descend_mono f f' k node last s d s' :
  descend f k node last s = Ok d s' → (f ≤ f')%nat →
  descend f' k node last s = Ok d s'.
Proof.
  revert f' node last s. induction f as [|f IH]; intros f' node last s E Hf.
  - destruct node; simpl in E; [done|]. by destruct f'.
  - destruct f' as [|f']; [lia|]. destruct node as [x|]; simpl in *; [|done].
    apply bind_Ok_inv in E as (n & s1 & E1 & E2). rewrite (bind_Ok _ _ _ _ _ E1).
    repeat case_bool_decide; try done; apply IH; (done || lia).
Qed.

Lemma insert_mono f f' k v s s' :
  insert f k v s = Ok tt s' → (f ≤ f')%nat → insert f' k v s = Ok tt s'.
Proof.
  unfold insert. rewrite !get_root_bind. intros E Hf.
  destruct (root s); [|done].
  apply bind_Ok_inv in E as (d & s1 & E1 & E2).
  rewrite (bind_Ok _ _ _ _ _ (descend_mono _ _ _ _ _ _ _ _ E1 Hf)).
  destruct d.
  - apply bind_Ok_inv in E2 as ([] & s2 & E2 & E3). rewrite (bind_Ok _ _ _ _ _ E2).
    by eapply splay_mono.
  - apply bind_Ok_inv in E2 as (x & s2 & E2 & E3). rewrite (bind_Ok _ _ _ _ _ E2).
    by eapply splay_mono.
Qed.

Lemma search_mono f f' k s r s' :
  search f k s = Ok r s' → (f ≤ f')%nat → search f' k s = Ok r s'.
Proof.
  unfold search. rewrite !get_root_bind. intros E Hf.
  apply bind_Ok_inv in E as (d & s1 & E1 & E2).
  rewrite (bind_Ok _ _ _ _ _ (descend_mono _ _ _ _ _ _ _ _ E1 Hf)).
  destruct d as [x|[l|]].
  - apply bind_Ok_inv in E2 as ([] & s2 & E2 & E3).
    by rewrite (bind_Ok _ _ _ _ _ (splay_mono _ _ _ _ _ E2 Hf)).
  - apply bind_Ok_inv in E2 as ([] & s2 & E2 & E3).
    by rewrite (bind_Ok _ _ _ _ _ (splay_mono _ _ _ _ _ E2 Hf)).
  - done.
Qed.

Lemma init_mono f f' s s' :
  SplayTree_init f s = Ok tt s' → (f ≤ f')%nat → SplayTree_init f' s = Ok tt s'.
Proof.
  unfold SplayTree_init. intros E Hf.
  apply bind_Ok_inv in E as ([] & s1 & E1 & E2). rewrite (bind_Ok _ _ _ _ _ E1).
  apply bind_Ok_inv in E2 as ([] & s2 & E2 & E3).
  rewrite (bind_Ok _ _ _ _ _ (insert_mono _ _ _ _ _ _ E2 Hf)).
  by eapply insert_mono.
Qed.

Lemma fibonacci_splay_mono d d' f f' n s r s' :
  fibonacci_splay d f n s = Ok r s' → (d ≤ d')%nat → (f ≤ f')%nat →
  fibonacci_splay d' f' n s = Ok r s'.
Proof.
  revert d' n s r s'. induction d as [|d IH]; intros d' n s r s' E Hd Hf.
  - destruct d'; simpl in *; case_bool_decide; done.
  - destruct d' as [|d']; [lia|]. simpl in *. case_bool_decide; [done|].
    apply bind_Ok_inv in E as (o & s1 & E1 & E2).
    rewrite (bind_Ok _ _ _ _ _ (search_mono _ _ _ _ _ _ E1 Hf)).
    destruct o; [done|].
    apply bind_Ok_inv in E2 as (a & s2 & E2 & E3).
    rewrite (bind_Ok _ _ _ _ _ (IH d' _ _ _ _ E2 ltac:(lia) Hf)).
    apply bind_Ok_inv in E3 as (b & s3 & E3 & E4).
    rewrite (bind_Ok _ _ _ _ _ (IH d' _ _ _ _ E3 ltac:(lia) Hf)).
    apply bind_Ok_inv in E4 as ([] & s4 & E4 & E5).
    by rewrite (bind_Ok _ _ _ _ _ (insert_mono _ _ _ _ _ _ E4 Hf)).
Qed.
End Fuel.

(** * The specified properties of the splay tree *)

Lemma seeded_init : SplayTree_init 2 empty_tree = Ok tt seeded.
Proof. vm_compute. reflexivity. Qed.

Lemma spine_built :
  (SplayTree_init 4 ;; insert 4 2 2 ;; insert 4 3 3) empty_tree = Ok tt spine.
Proof. vm_compute. reflexivity. Qed.

Lemma wf_empty_tree : wf empty_tree.
Proof. apply (bool_decide_eq_true_1 _). vm_compute. reflexivity. Defined.

Lemma wf_seeded : wf seeded.
Proof. apply (bool_decide_eq_true_1 _). vm_compute. reflexivity. Defined.

Lemma wf_spine : wf spine.
Proof. apply (bool_decide_eq_true_1 _). vm_compute. reflexivity. Defined.

(** The constructor returns the well-formed state [seeded], whatever fuel
    above 2 it is given. *)
Lemma SplayTree_init_wf fuel :
  (2 ≤ fuel)%nat → SplayTree_init fuel empty_tree = Ok tt seeded ∧ wf seeded.
Proof.
  intros Hf. split; [|apply wf_seeded]. eapply init_mono; [apply seeded_init|done].
Qed.

(** A ground fact, decided by evaluation. *)
Ltac ground := apply (bool_decide_eq_true_1 _); vm_compute; reflexivity.

(** A conjunction of ground equations, run one after the other: each run
    produces the state the next one starts from. *)
Ltac run_all :=
  repeat (split; [vm_compute; reflexivity|]); vm_compute; reflexivity.

Lemma Ok_inj {A} (a a' : A) s s' : Ok a s = Ok a' s' → a = a' ∧ s = s'.
Proof. by intros [= -> ->]. Qed.

Lemma depth_is_Some s x d : depth s x = Some d → is_Some (heap s !! x).
Proof.
  unfold depth. destruct (size (heap s)); simpl; destruct (heap s !! x); eauto; done.
Qed.

Lemma filter_key_unique (k v : Z) (l1 l2 : list (Z * Z)) :
  NoDup (fst <$> (l1 ++ (k, v) :: l2)) →
  filter (λ kv, kv.1 = k) (l1 ++ (k, v) :: l2) = [(k, v)].
Proof.
  rewrite fmap_app, fmap_cons. simpl. intros ND.
  apply NoDup_app in ND as (_ & H1 & [H2 _]%NoDup_cons).
  rewrite filter_app, filter_cons_True by done.
  assert (∀ l, k ∉ fst <$> l → filter (λ kv : Z * Z, kv.1 = k) l = []) as Hnil.
  { intros l Hl. induction l as [|[k' v'] l IH]; [done|].
    rewrite fmap_cons, not_elem_of_cons in Hl. destruct Hl as [Hne Hl].
    rewrite filter_cons_False by (simpl in *; congruence). auto. }
  rewrite (Hnil l2) by done. rewrite (Hnil l1); [done|].
  intros Hin. apply (H1 k Hin). by left.
Qed.

(** C1. For every well-formed state (the store unfolds into a tree that
    satisfies the ordering invariant) and every key and value, [insert]
    and [search] return, and the state they leave again unfolds into a tree
    in which every node has only smaller keys in its left subtree and only
    greater keys in its right subtree, with no key held twice. *)
Theorem insert_search_preserve_bst (fuel : nat) (s : SplayTree) (k v : Z) :
  wf s → (size (heap s) ≤ fuel)%nat →
  (∃ s' t', insert fuel k v s = Ok tt s' ∧
     abs s' = Some t' ∧ bst t' ∧ NoDup (keys t')) ∧
  (∃ r s' t', search fuel k s = Ok r s' ∧
     abs s' = Some t' ∧ bst t' ∧ NoDup (keys t')).
Proof.
  intros Hwf Hf. split.
  - destruct (insert_correct fuel s k v Hwf Hf) as (s' & E & Hwf' & _).
    destruct (wf_abs _ Hwf') as (t' & ? & ? & ?). eauto 10.
  - destruct (search_correct fuel s k Hwf Hf) as (r & s' & E & Hwf' & _).
    destruct (wf_abs _ Hwf') as (t' & ? & ? & ?). eauto 10.
Qed.

Lemma insert_search_preserve_bst_witness :
  wf seeded ∧ (size (heap seeded) ≤ 2)%nat ∧
  ((∃ s' t', insert 2 5 8 seeded = Ok tt s' ∧
      abs s' = Some t' ∧ bst t' ∧ NoDup (keys t')) ∧
   (∃ r s' t', search 2 5 seeded = Ok r s' ∧
      abs s' = Some t' ∧ bst t' ∧ NoDup (keys t'))).
Proof.
  split; [ground|]. split; [vm_compute; lia|].
  apply insert_search_preserve_bst; [ground|vm_compute; lia].
Defined.

(** C2. For every well-formed state and every key present in the tree,
    [search] returns the node that holds the key, and that node is the root
    afterwards: the root's key is the key searched. *)
Theorem search_present_root (fuel : nat) (s : SplayTree) (k : Z) :
  wf s → k ∈ inorder_keys s → (size (heap s) ≤ fuel)%nat →
  ∃ x n s', search fuel k s = Ok (Some x) s' ∧
    heap s !! x = Some n ∧ key n = k ∧
    root s' = Some x ∧ root_key s' = Some k.
Proof.
  intros Hwf Hk Hf.
  destruct (search_correct fuel s k Hwf Hf)
    as (r & s' & E & _ & _ & _ & [(_ & x & n & -> & ? & ? & ? & ?)|(Hk' & _)]); [|done].
  eauto 10.
Qed.

Lemma search_present_root_witness :
  wf seeded ∧ 0 ∈ inorder_keys seeded ∧ (size (heap seeded) ≤ 2)%nat ∧
  ∃ x n s', search 2 0 seeded = Ok (Some x) s' ∧
    heap seeded !! x = Some n ∧ key n = 0 ∧
    root s' = Some x ∧ root_key s' = Some 0.
Proof.
  split; [ground|]. split; [ground|]. split; [vm_compute; lia|].
  apply search_present_root; [ground|ground|vm_compute; lia].
Defined.

(** C3. For every well-formed state, the empty tree included, and every key
    and value, [insert] returns with the key at the root and the ordering
    invariant in place.  When the key was present, the node that held it is
    the one at the root, its value is overwritten and no node is created:
    the live nodes are the same and the contents differ in that value only.
    When the key was absent from a non-empty tree, a new node is created
    with the key and value, made a child of the last node the descent
    visited, and splayed to the root.  On the empty tree the new node is
    the whole tree. *)
Theorem insert_postcondition (fuel : nat) (s : SplayTree) (k v : Z) :
  wf s → (size (heap s) ≤ fuel)%nat →
  ∃ s', insert fuel k v s = Ok tt s' ∧ root_key s' = Some k ∧ wf s' ∧
    (k ∈ inorder_keys s →
       dom (heap s') = dom (heap s) ∧
       (∃ x n n', heap s !! x = Some n ∧ key n = k ∧ root s' = Some x ∧
                  heap s' !! x = Some n' ∧ key n' = k ∧ val n' = v) ∧
       (∃ l1 w l2, contents s = l1 ++ (k, w) :: l2 ∧
                   contents s' = l1 ++ (k, v) :: l2)) ∧
    (k ∉ inorder_keys s → root s ≠ None →
       ∃ last new s1 nl,
         descend fuel k (root s) None s = Ok (Missed (Some last)) s ∧
         insert_link k v (Some last) s = Ok new s1 ∧
         heap s !! new = None ∧
         heap s1 !! new = Some (mkNode k v None None (Some last)) ∧
         heap s1 !! last = Some nl ∧
         (left nl = Some new ∨ right nl = Some new) ∧
         _splay fuel new s1 = Ok tt s' ∧
         root s' = Some new) ∧
    (root s = None →
       ∃ new, heap s !! new = None ∧ root s' = Some new ∧
         heap s' = <[new := mkNode k v None None None]> (heap s)).
Proof.
  intros Hwf Hf.
  destruct (insert_correct fuel s k v Hwf Hf) as (s' & E & Hwf' & Hrk & Hcases).
  exists s'. split_and!; [done..| | |].
  - intros Hk. destruct Hcases as [(_ & Hdom & Hc)|[Hk' _]]; [|done].
    split_and!; [done| |done].
    apply wf_rep in Hwf as (t & H & Hb).
    rewrite (rep_inorder_keys _ _ H) in Hk.
    destruct (insert_found fuel _ _ _ v H Hb Hk Hf)
      as (a & x & w & b & fs & s'' & a' & b' & H' & Ep & E' & H'' & En).
    rewrite E in E'. apply Ok_inj in E' as [_ <-].
    destruct (rep_root _ _ _ _ _ _ _ _ _ H') as (_ & _ & n & Hn & Hkn & _).
    destruct (rep_root _ _ _ _ _ _ _ _ _ H'') as (_ & _ & n' & Hn' & Hkn' & Hvn' & _).
    exists x, n, n'. split_and!; try done. exact (proj1 (rep_root_key _ _ _ _ _ _ H'')).
  - intros Hk Hr.
    apply wf_rep in Hwf as (t & H & Hb).
    rewrite (rep_inorder_keys _ _ H) in Hk.
    assert (t ≠ Leaf) as Hne.
    { intros ->. destruct H as [Ht _ _ _]. simpl in Ht. done. }
    destruct (insert_missed fuel _ _ _ v H Hb Hk Hne Hf)
      as (f & fs & x & s1 & np & s'' & a' & b' & Ed & H' & Ep & E1 & Hx & Hx1 & Hp1 & Hc
          & Es & E' & H'' & En & Hb').
    rewrite E in E'. apply Ok_inj in E' as [_ <-].
    exists (frame_loc f), x, s1, np. split_and!; try done.
    + destruct (is_InL f); eauto.
    + exact (proj1 (rep_root_key _ _ _ _ _ _ H'')).
  - intros Hr. revert E. unfold insert. rewrite get_root_bind, Hr.
    rewrite (bind_Ok _ _ _ _ _ (new_Node_Ok k v s)). intros [= <-].
    eexists. split; [|split; reflexivity]. apply not_elem_of_dom, is_fresh.
Qed.

Lemma insert_postcondition_witness :
  wf seeded ∧ (size (heap seeded) ≤ 2)%nat ∧
  ∃ s', insert 2 5 8 seeded = Ok tt s' ∧ root_key s' = Some 5 ∧ wf s' ∧
    (5 ∈ inorder_keys seeded →
       dom (heap s') = dom (heap seeded) ∧
       (∃ x n n', heap seeded !! x = Some n ∧ key n = 5 ∧ root s' = Some x ∧
                  heap s' !! x = Some n' ∧ key n' = 5 ∧ val n' = 8) ∧
       (∃ l1 w l2, contents seeded = l1 ++ (5, w) :: l2 ∧
                   contents s' = l1 ++ (5, 8) :: l2)) ∧
    (5 ∉ inorder_keys seeded → root seeded ≠ None →
       ∃ last new s1 nl,
         descend 2 5 (root seeded) None seeded = Ok (Missed (Some last)) seeded ∧
         insert_link 5 8 (Some last) seeded = Ok new s1 ∧
         heap seeded !! new = None ∧
         heap s1 !! new = Some (mkNode 5 8 None None (Some last)) ∧
         heap s1 !! last = Some nl ∧
         (left nl = Some new ∨ right nl = Some new) ∧
         _splay 2 new s1 = Ok tt s' ∧
         root s' = Some new) ∧
    (root seeded = None →
       ∃ new, heap seeded !! new = None ∧ root s' = Some new ∧
         heap s' = <[new := mkNode 5 8 None None None]> (heap seeded)).
Proof.
  split; [ground|]. split; [vm_compute; lia|].
  apply insert_postcondition; [ground|vm_compute; lia].
Defined.

(** C5. For every node [x] of a well-formed state, at depth [d]: one
    iteration of the loop of [_splay] returns and lowers the depth of [x]
    by one when the parent of [x] is the root (zig) and by two otherwise
    (zig-zig, zig-zag); and [_splay] returns within [d] iterations, with
    [x] at the root. *)
Theorem splay_terminates (s : SplayTree) (x : loc) (d : nat) :
  wf s → depth s x = Some d →
  (∀ n p, heap s !! x = Some n → parent n = Some p →
     ∃ np s' d', heap s !! p = Some np ∧
       _splay_step x p s = Ok tt s' ∧ depth s' x = Some d' ∧
       match parent np with
       | None => d = S d'
       | Some _ => d = S (S d')
       end) ∧
  (∀ fuel, (d ≤ fuel)%nat →
     ∃ s', _splay fuel x s = Ok tt s' ∧ root s' = Some x ∧ depth s' x = Some O).
Proof.
  intros (t & H & Hb)%wf_rep Hd.
  assert (x ∈ locs t) as Hin by (apply (rep_dom _ _ _ _ _ H); by eapply depth_is_Some).
  destruct (rep_focus _ _ _ _ _ _ H Hin) as (a & k & v & b & fs & H' & _ & _).
  rewrite (depth_spec _ _ _ _ _ _ _ _ _ H') in Hd. injection Hd as <-.
  split.
  - intros n p Hn Hp.
    destruct (rep_root _ _ _ _ _ _ _ _ _ H') as (_ & _ & n' & Hn' & _ & _ & Hp').
    rewrite Hn in Hn'. injection Hn' as <-. rewrite Hp in Hp'.
    destruct fs as [|f fs]; [done|]. injection Hp' as ->.
    destruct (rep_frame _ _ _ _ _ _ _ _ _ _ H') as (np & Hnp & Hgp & _).
    destruct (splay_step_spec _ _ _ _ _ _ _ _ _ _ H') as (s' & a' & b' & E & H'' & _).
    exists np, s', (length (tail fs)). split_and!; [done..| |].
    + by eapply depth_spec.
    + rewrite Hgp. by destruct fs.
  - intros fuel Hf.
    destruct (splay_spec fuel _ _ _ _ _ _ _ _ _ H' Hf) as (s' & a' & b' & E & H'' & _).
    exists s'. split_and!; [done| |].
    + by destruct H'' as [_ [<- _] _ _].
    + by rewrite (depth_spec _ _ _ _ _ _ _ _ _ H'').
Qed.

Lemma splay_terminates_witness :
  wf spine ∧ depth spine 1%positive = Some 3%nat ∧
  (∀ n p, heap spine !! 1%positive = Some n → parent n = Some p →
     ∃ np s' d', heap spine !! p = Some np ∧
       _splay_step 1%positive p spine = Ok tt s' ∧ depth s' 1%positive = Some d' ∧
       match parent np with
       | None => 3%nat = S d'
       | Some _ => 3%nat = S (S d')
       end) ∧
  (∀ fuel, (3 ≤ fuel)%nat →
     ∃ s', _splay fuel 1%positive spine = Ok tt s' ∧ root s' = Some 1%positive ∧
           depth s' 1%positive = Some O).
Proof.
  split; [ground|]. split; [vm_compute; reflexivity|].
  apply splay_terminates; [ground|vm_compute; reflexivity].
Defined.

(** C6. From every well-formed state, after a rotation of any node, after
    [insert] and after [search], the state is again well formed and its
    parent pointers are consistent: every node other than the root is the
    left or the right child of its parent, not both, the root has no
    parent, and every child points back to its parent. *)
Theorem parent_pointers_consistent (fuel : nat) (s : SplayTree) :
  wf s → (size (heap s) ≤ fuel)%nat →
  (∀ x, is_Some (heap s !! x) →
     ∃ s', _rotate x s = Ok tt s' ∧ wf s' ∧
           parent_consistent s' ∧ children_point_back s') ∧
  (∀ k v, ∃ s', insert fuel k v s = Ok tt s' ∧ wf s' ∧
           parent_consistent s' ∧ children_point_back s') ∧
  (∀ k, ∃ r s', search fuel k s = Ok r s' ∧ wf s' ∧
           parent_consistent s' ∧ children_point_back s').
Proof.
  intros Hwf Hf. split_and!.
  - intros x Hx. destruct (rotate_wf s x Hwf Hx) as (s' & E & Hwf' & _).
    exists s'. split; [done|]. split; [done|]. by apply wf_parent_consistent.
  - intros k v. destruct (insert_correct fuel s k v Hwf Hf) as (s' & E & Hwf' & _).
    exists s'. split; [done|]. split; [done|]. by apply wf_parent_consistent.
  - intros k. destruct (search_correct fuel s k Hwf Hf) as (r & s' & E & Hwf' & _).
    exists r, s'. split; [done|]. split; [done|]. by apply wf_parent_consistent.
Qed.

Lemma parent_pointers_consistent_witness :
  wf spine ∧ (size (heap spine) ≤ 4)%nat ∧
  ((∀ x, is_Some (heap spine !! x) →
      ∃ s', _rotate x spine = Ok tt s' ∧ wf s' ∧
            parent_consistent s' ∧ children_point_back s') ∧
   (∀ k v, ∃ s', insert 4 k v spine = Ok tt s' ∧ wf s' ∧
            parent_consistent s' ∧ children_point_back s') ∧
   (∀ k, ∃ r s', search 4 k spine = Ok r s' ∧ wf s' ∧
            parent_consistent s' ∧ children_point_back s')).
Proof.
  split; [ground|]. split; [vm_compute; lia|].
  apply parent_pointers_consistent; [ground|vm_compute; lia].
Defined.

(** C7. From every well-formed state, [insert k v1] followed by
    [insert k v2] leaves exactly one node with key [k], holding [v2], and
    the second insert creates no node: the node count is the one after the
    first insert. *)
Theorem insert_twice_overwrites (fuel : nat) (s : SplayTree) (k v1 v2 : Z) :
  wf s → (size (heap s) < fuel)%nat →
  ∃ s1 s2, insert fuel k v1 s = Ok tt s1 ∧ insert fuel k v2 s1 = Ok tt s2 ∧
    filter (λ kv, kv.1 = k) (contents s2) = [(k, v2)] ∧
    node_count s2 = node_count s1 ∧
    dom (heap s2) = dom (heap s1).
Proof.
  intros Hwf Hf.
  destruct (insert_correct fuel s k v1 Hwf ltac:(lia)) as (s1 & E1 & Hwf1 & _ & Hc1).
  assert (k ∈ inorder_keys s1 ∧ (size (heap s1) ≤ fuel)%nat) as [Hk1 Hf1].
  { unfold inorder_keys.
    destruct Hc1 as [(_ & Hdom & l1 & w & l2 & _ & ->)|(_ & Hsz & l1 & l2 & _ & ->)].
    - split; [rewrite fmap_app; set_solver|].
      rewrite <- size_dom, Hdom, size_dom. lia.
    - split; [rewrite fmap_app; set_solver|lia]. }
  destruct (insert_correct fuel s1 k v2 Hwf1 Hf1) as (s2 & E2 & Hwf2 & _ & Hc2).
  destruct Hc2 as [(_ & Hdom & l1 & w & l2 & Hs1 & Hs2)|[Hk2 _]]; [|done].
  exists s1, s2. split_and!; [done..| | |done].
  - rewrite Hs2. apply filter_key_unique.
    apply wf_rep in Hwf2 as (t2 & H2 & Hb2).
    rewrite <- Hs2, (rep_contents _ _ H2), <- keys_items. by apply bst_keys_NoDup.
  - unfold node_count. rewrite Hs1, Hs2, !length_app. done.
Qed.

Lemma insert_twice_overwrites_witness :
  wf seeded ∧ (size (heap seeded) < 3)%nat ∧
  ∃ s1 s2, insert 3 7 10 seeded = Ok tt s1 ∧ insert 3 7 20 s1 = Ok tt s2 ∧
    filter (λ kv, kv.1 = 7) (contents s2) = [(7, 20)] ∧
    node_count s2 = node_count s1 ∧
    dom (heap s2) = dom (heap s1).
Proof.
  split; [ground|]. split; [vm_compute; lia|].
  apply insert_twice_overwrites; [ground|vm_compute; lia].
Defined.

(** C8. A newly constructed tree holds keys 0 and 1 with values 0 and 1.
    Evaluating [fibonacci_splay(5, tree)] on it returns 5 and leaves the
    values 0, 1, 1, 2, 3, 5 stored for the keys 0 to 5; a following
    [search(5)] finds a node with value 5 and leaves key 5 at the root. *)
Theorem fibonacci_splay_5 (depth fuel : nat) :
  (4 ≤ depth)%nat → (2 ≤ fuel)%nat →
  ∃ s0 s1 x n s2,
    SplayTree_init fuel empty_tree = Ok tt s0 ∧
    contents s0 = [(0, 0); (1, 1)] ∧
    fibonacci_splay depth fuel 5 s0 = Ok 5 s1 ∧
    contents s1 = [(0, 0); (1, 1); (2, 1); (3, 2); (4, 3); (5, 5)] ∧
    search fuel 5 s1 = Ok (Some x) s2 ∧
    heap s2 !! x = Some n ∧ val n = 5 ∧
    root_key s2 = Some 5.
Proof.
  intros Hd Hf.
  assert (∃ s0 s1 x n s2,
    SplayTree_init 2 empty_tree = Ok tt s0 ∧
    contents s0 = [(0, 0); (1, 1)] ∧
    fibonacci_splay 4 2 5 s0 = Ok 5 s1 ∧
    contents s1 = [(0, 0); (1, 1); (2, 1); (3, 2); (4, 3); (5, 5)] ∧
    search 2 5 s1 = Ok (Some x) s2 ∧
    heap s2 !! x = Some n ∧ val n = 5 ∧
    root_key s2 = Some 5) as (s0 & s1 & x & n & s2 & E0 & C0 & E1 & C1 & E2 & Hx & Hv & Hr).
  { do 5 eexists. run_all. }
  exists s0, s1, x, n, s2. split_and!; try done.
  - by eapply init_mono.
  - by eapply fibonacci_splay_mono.
  - by eapply search_mono.
Qed.

Lemma fibonacci_splay_5_witness :
  (4 ≤ 4)%nat ∧ (2 ≤ 2)%nat ∧
  ∃ s0 s1 x n s2,
    SplayTree_init 2 empty_tree = Ok tt s0 ∧
    contents s0 = [(0, 0); (1, 1)] ∧
    fibonacci_splay 4 2 5 s0 = Ok 5 s1 ∧
    contents s1 = [(0, 0); (1, 1); (2, 1); (3, 2); (4, 3); (5, 5)] ∧
    search 2 5 s1 = Ok (Some x) s2 ∧
    heap s2 !! x = Some n ∧ val n = 5 ∧
    root_key s2 = Some 5.
Proof.
  split; [lia|]. split; [lia|]. apply fibonacci_splay_5; lia.
Defined.

(** C9, as stated, fails: the constructor has already inserted keys 0 and
    1, so after inserting 3, 1, 2 the in-order keys are not [1, 2, 3]. *)
Lemma insert_312_counterexample :
  ∃ s0 s1 s2 s3,
    SplayTree_init 2 empty_tree = Ok tt s0 ∧
    insert 2 3 3 s0 = Ok tt s1 ∧
    insert 2 1 1 s1 = Ok tt s2 ∧
    insert 2 2 2 s2 = Ok tt s3 ∧
    inorder_keys s3 ≠ [1; 2; 3].
Proof.
  do 4 eexists. repeat (split; [vm_compute; reflexivity|]). vm_compute. discriminate.
Qed.

(** C9, amended. Inserting keys 3, 1, 2 in that order into a newly
    constructed tree, which holds the pre-seeded keys 0 and 1, leaves key 2
    at the root, and the in-order keys are 0, 1, 2, 3. *)
Theorem insert_312_on_new_tree (fuel : nat) (v3 v1 v2 : Z) :
  (2 ≤ fuel)%nat →
  ∃ s0 s1 s2 s3,
    SplayTree_init fuel empty_tree = Ok tt s0 ∧
    insert fuel 3 v3 s0 = Ok tt s1 ∧
    insert fuel 1 v1 s1 = Ok tt s2 ∧
    insert fuel 2 v2 s2 = Ok tt s3 ∧
    root_key s3 = Some 2 ∧
    inorder_keys s3 = [0; 1; 2; 3].
Proof.
  intros Hf.
  assert (∃ s0 s1 s2 s3,
    SplayTree_init 2 empty_tree = Ok tt s0 ∧
    insert 2 3 v3 s0 = Ok tt s1 ∧
    insert 2 1 v1 s1 = Ok tt s2 ∧
    insert 2 2 v2 s2 = Ok tt s3 ∧
    root_key s3 = Some 2 ∧
    inorder_keys s3 = [0; 1; 2; 3]) as (s0 & s1 & s2 & s3 & E0 & E1 & E2 & E3 & Hr & Hk).
  { do 4 eexists. run_all. }
  exists s0, s1, s2, s3. split_and!; try done; by (eapply init_mono || eapply insert_mono).
Qed.

Lemma insert_312_on_new_tree_witness :
  (2 ≤ 2)%nat ∧
  ∃ s0 s1 s2 s3,
    SplayTree_init 2 empty_tree = Ok tt s0 ∧
    insert 2 3 3 s0 = Ok tt s1 ∧
    insert 2 1 1 s1 = Ok tt s2 ∧
    insert 2 2 2 s2 = Ok tt s3 ∧
    root_key s3 = Some 2 ∧
    inorder_keys s3 = [0; 1; 2; 3].
Proof. split; [lia|]. apply insert_312_on_new_tree. lia. Defined.

(** Without the pre-seeding, on the empty tree, the same three inserts do
    give the in-order keys 1, 2, 3. *)
Remark insert_312_on_empty_tree (v3 v1 v2 : Z) :
  ∃ s1 s2 s3,
    insert 2 3 v3 empty_tree = Ok tt s1 ∧
    insert 2 1 v1 s1 = Ok tt s2 ∧
    insert 2 2 v2 s2 = Ok tt s3 ∧
    root_key s3 = Some 2 ∧
    inorder_keys s3 = [1; 2; 3].
Proof. do 3 eexists. run_all. Qed.

(** * The cached range sum of task_1.py *)

Section Cache.
Implicit Types (c : list (positive * Z * Z * Z)) (k : positive * Z * Z) (e : Env).

Lemma cache_find_filter_ne k k' c :
  k' ≠ k → cache_find k' (filter (λ kv, kv.1 ≠ k) c) = cache_find k' c.
Proof.
  intros Hne. induction c as [|[k0 v0] c IH]; [done|].
  destruct (decide (k0 = k)) as [->|Hk0].
  - rewrite filter_cons_False by (simpl; tauto). simpl.
    by rewrite decide_False by done.
  - rewrite filter_cons_True by done. simpl. by rewrite IH.
Qed.

Lemma cache_find_take k n c v :
  cache_find k (take n c) = Some v → cache_find k c = Some v.
Proof.
  revert n. induction c as [|[k0 v0] c IH]; intros [|n]; simpl; try done.
  destruct (decide (k0 = k)); [done|]. apply IH.
Qed.

Lemma empty_cache_coherent objs g : cache_coherent (mkEnv objs g []).
Proof. intros a L R v. done. Qed.

(** The body of [_cached_sum] looks neither at its first argument nor at
    the cache. *)
Lemma cached_sum_body_env a a' L R e e' :
  global_array e' = global_array e → objects e' = objects e →
  _cached_sum_body a L R e' = _cached_sum_body a' L R e.
Proof. unfold _cached_sum_body. by intros -> ->. Qed.

(** [update_with_cache] leaves a coherent (empty) cache. *)
Lemma update_with_cache_coherent a i v e e' :
  update_with_cache a i v e = Some e' → cache_coherent e'.
Proof.
  unfold update_with_cache. destruct (objects e !! a) as [l|]; simpl; [|done].
  destruct (py_setitem l i v); simpl; [|done]. intros [= <-].
  apply empty_cache_coherent.
Qed.
End Cache.

(** C10, amended. For every list [a] and indices [L], [R]: while the global name
    [array] is bound to a list and the cached results are the sums of that
    list, [range_sum_with_cache(a, L, R)] returns the sum of the slice
    [L..R] of the global list.  That is [sum(a[L:R+1])] when [a] is the
    global list; when [a] is another list, the result does not depend on
    what [a] holds. *)
Theorem range_sum_with_cache_reads_global (e : Env) (a g : positive)
    (gl : list Z) (L R : Z) :
  global_array e = Some g → objects e !! g = Some gl → cache_coherent e →
  ∃ e', range_sum_with_cache a L R e = Some (py_sum (py_slice gl L (R + 1)), e') ∧
    objects e' = objects e ∧ global_array e' = global_array e ∧
    cache_coherent e' ∧
    (a = g →
       range_sum_no_cache a L R e = Some (py_sum (py_slice gl L (R + 1)))) ∧
    (a ≠ g → ∀ al, ∃ e'',
       range_sum_with_cache a L R
         (mkEnv (<[a := al]> (objects e)) (global_array e) (cache e))
       = Some (py_sum (py_slice gl L (R + 1)), e'')).
Proof.
  intros Hg Hgl Hcoh.
  assert (∀ a' L' R', _cached_sum_body a' L' R' e
            = Some (py_sum (py_slice gl L' (R' + 1)))) as Hbody.
  { intros. unfold _cached_sum_body. rewrite Hg. simpl. by rewrite Hgl. }
  unfold range_sum_with_cache, _cached_sum.
  destruct (cache_find (a, L, R) (cache e)) as [v|] eqn:Hfind.
  - pose proof (Hcoh _ _ _ _ Hfind) as Hv. rewrite Hbody in Hv. injection Hv as <-.
    eexists. split; [reflexivity|]. simpl. split_and!; [done..| | |].
    + intros a' L' R' v'. rewrite (cached_sum_body_env _ a' _ _ e) by done. simpl.
      destruct (decide ((a, L, R) = (a', L', R'))) as [[= <- <- <-]|Hne].
      * by intros [= <-].
      * rewrite cache_find_filter_ne by done. apply Hcoh.
    + intros ->. unfold range_sum_no_cache. by rewrite Hgl.
    + intros Hne al. unfold range_sum_with_cache, _cached_sum. simpl. rewrite Hfind.
      eauto.
  - rewrite Hbody. simpl. eexists. split; [reflexivity|]. simpl.
    split_and!; [done..| | |].
    + intros a' L' R' v'. rewrite (cached_sum_body_env _ a' _ _ e) by done. simpl.
      destruct (decide ((a, L, R) = (a', L', R'))) as [[= <- <- <-]|Hne].
      * by intros [= <-].
      * intros Hf. apply Hcoh. by apply cache_find_take in Hf.
    + intros ->. unfold range_sum_no_cache. by rewrite Hgl.
    + intros Hne al. unfold range_sum_with_cache, _cached_sum. simpl. rewrite Hfind.
      unfold _cached_sum_body. simpl. rewrite Hg. simpl.
      rewrite lookup_insert_ne by done. rewrite Hgl. simpl. eauto.
Qed.

Lemma range_sum_with_cache_reads_global_witness :
  global_array two_lists = Some 1%positive ∧
  objects two_lists !! 1%positive = Some [1; 2; 3] ∧
  cache_coherent two_lists ∧
  ∃ e', range_sum_with_cache 2%positive 0 1 two_lists
          = Some (py_sum (py_slice [1; 2; 3] 0 (1 + 1)), e') ∧
    objects e' = objects two_lists ∧ global_array e' = global_array two_lists ∧
    cache_coherent e' ∧
    (2%positive = 1%positive →
       range_sum_no_cache 2%positive 0 1 two_lists
       = Some (py_sum (py_slice [1; 2; 3] 0 (1 + 1)))) ∧
    (2%positive ≠ 1%positive → ∀ al, ∃ e'',
       range_sum_with_cache 2%positive 0 1
         (mkEnv (<[2%positive := al]> (objects two_lists)) (global_array two_lists)
                (cache two_lists))
       = Some (py_sum (py_slice [1; 2; 3] 0 (1 + 1)), e'')).
Proof.
  split; [reflexivity|]. split; [vm_compute; reflexivity|].
  split; [intros ? ? ? ? ?; discriminate|].
  apply range_sum_with_cache_reads_global;
    [reflexivity|vm_compute; reflexivity|intros ? ? ? ? ?; discriminate].
Defined.

(** On the sample, asking for the sum of the list at identity 2 returns 3,
    the sum over the global list, where [range_sum_no_cache] returns 30. *)
Example range_sum_other_list :
  fst <$> range_sum_with_cache 2%positive 0 1 two_lists = Some 3 ∧
  range_sum_no_cache 2%positive 0 1 two_lists = Some 30.
Proof. split; vm_compute; reflexivity. Qed.

(** A cached result survives an update that does not clear the cache: the
    coherence hypothesis of the theorem cannot be dropped. *)
Example range_sum_stale :
  ∃ e1 e2 e3,
    range_sum_with_cache 1%positive 0 1 two_lists = Some (3, e1) ∧
    update_no_cache 1%positive 0 100 e1 = Some e2 ∧
    range_sum_with_cache 1%positive 0 1 e2 = Some (3, e3) ∧
    range_sum_no_cache 1%positive 0 1 e2 = Some 102.
Proof. do 3 eexists. repeat (split; [vm_compute; reflexivity|]). vm_compute. reflexivity. Qed.

(** * Further properties of the splay tree *)

(** ** The tree as a finite map *)

Section Map.
Implicit Types (t a b c : tree) (fs : path) (x y : loc) (l : list (Z * Z)).

Lemma wf_contents_NoDup s : wf s → NoDup (fst <$> contents s).
Proof.
  intros (t & H & Hb)%wf_rep. rewrite (rep_contents _ _ H), <- keys_items.
  by apply bst_keys_NoDup.
Qed.

Lemma wf_size_map s : wf s → size (heap s) = size (to_map s).
Proof.
  intros Hwf. unfold to_map.
  rewrite map_size_list_to_map by (by apply wf_contents_NoDup).
  apply wf_rep in Hwf as (t & H & _).
  rewrite (rep_size _ _ _ _ _ H), (rep_contents _ _ H). simpl.
  unfold items. by rewrite length_fmap.
Qed.

Lemma list_to_map_middle (k v : Z) l1 l2 :
  NoDup (fst <$> (l1 ++ (k, v) :: l2)) →
  (list_to_map (l1 ++ (k, v) :: l2) : gmap Z Z) = <[k := v]> (list_to_map (l1 ++ l2)).
Proof.
  intros ND. rewrite <- list_to_map_cons. apply list_to_map_proper; [done|].
  by rewrite Permutation_middle.
Qed.

Lemma NoDup_middle_drop (k v w : Z) l1 l2 :
  NoDup (fst <$> (l1 ++ (k, w) :: l2)) → NoDup (fst <$> (l1 ++ (k, v) :: l2)).
Proof. by rewrite !fmap_app, !fmap_cons. Qed.

(** [insert] is the insertion of the finite map. *)
Lemma insert_map fuel s k v :
  wf s → (size (heap s) ≤ fuel)%nat →
  ∃ s', insert fuel k v s = Ok tt s' ∧ wf s' ∧ root_key s' = Some k ∧
    to_map s' = <[k := v]> (to_map s).
Proof.
  intros Hwf Hf.
  destruct (insert_correct fuel s k v Hwf Hf) as (s' & E & Hwf' & Hr & Hc).
  exists s'. split_and!; [done..|].
  pose proof (wf_contents_NoDup _ Hwf) as ND.
  pose proof (wf_contents_NoDup _ Hwf') as ND'.
  unfold to_map.
  destruct Hc as [(_ & _ & l1 & w & l2 & Hs & Hs')|(_ & _ & l1 & l2 & Hs & Hs')];
    rewrite Hs, Hs' in *.
  - rewrite !list_to_map_middle by done. by rewrite insert_insert_eq.
  - by rewrite list_to_map_middle.
Qed.

(** [search] is the lookup of the finite map, and changes nothing in it. *)
Lemma search_map fuel s k :
  wf s → (size (heap s) ≤ fuel)%nat →
  ∃ r s', search fuel k s = Ok r s' ∧ wf s' ∧ contents s' = contents s ∧
    dom (heap s') = dom (heap s) ∧
    match r with
    | Some x => ∃ n, heap s' !! x = Some n ∧ key n = k ∧ root s' = Some x ∧
                     to_map s !! k = Some (val n)
    | None => to_map s !! k = None
    end.
Proof.
  intros Hwf Hf. pose proof (wf_contents_NoDup _ Hwf) as ND.
  destruct (search_correct fuel s k Hwf Hf) as (r & s' & E & Hwf' & Hc & Hd & Hcases).
  exists r, s'. split_and!; [done..|].
  destruct Hcases as [(Hk & x & n0 & -> & _)|(Hk & -> & _)].
  - apply wf_rep in Hwf as (t & H & Hb).
    rewrite (rep_inorder_keys _ _ H) in Hk.
    destruct (search_found fuel _ _ _ H Hb Hk Hf)
      as (a & x' & v & b & fs & s'' & a' & b' & H' & Ep & E' & H'' & En).
    rewrite E in E'. injection E' as <- <-.
    destruct (rep_root _ _ _ _ _ _ _ _ _ H'') as (_ & _ & n & Hn & Hkn & Hvn & _).
    exists n. split_and!; [done..|exact (proj1 (rep_root_key _ _ _ _ _ _ H''))|].
    unfold to_map. apply elem_of_list_to_map; [done|].
    rewrite (rep_contents _ _ H), items_entries, <- Ep, entries_plug, Hvn. simpl.
    rewrite !fmap_app, fmap_cons. simpl. set_solver.
  - unfold to_map. by apply not_elem_of_list_to_map.
Qed.
End Map.

(** X1. [insert] acts on the key-value pairs of the tree as the insertion
    of a finite map: afterwards the key is bound to the value, key at the
    root, and every other binding is as before. *)
Theorem insert_is_map_insert (fuel : nat) (s : SplayTree) (k v : Z) :
  wf s → (size (heap s) ≤ fuel)%nat →
  ∃ s', insert fuel k v s = Ok tt s' ∧ wf s' ∧ root_key s' = Some k ∧
    to_map s' = <[k := v]> (to_map s).
Proof. apply insert_map. Qed.

Lemma insert_is_map_insert_witness :
  wf seeded ∧ (size (heap seeded) ≤ 2)%nat ∧
  ∃ s', insert 2 5 8 seeded = Ok tt s' ∧ wf s' ∧ root_key s' = Some 5 ∧
    to_map s' = <[5 := 8]> (to_map seeded).
Proof.
  split; [ground|]. split; [vm_compute; lia|].
  apply insert_is_map_insert; [ground|vm_compute; lia].
Defined.

(** X2. [search] acts as the lookup of the finite map: it returns a node
    exactly when the key is bound, that node holds the key and the bound
    value and is the root afterwards; and [search], hit or miss, changes
    neither the key-value pairs nor the set of live nodes. *)
Theorem search_is_map_lookup (fuel : nat) (s : SplayTree) (k : Z) :
  wf s → (size (heap s) ≤ fuel)%nat →
  ∃ r s', search fuel k s = Ok r s' ∧ wf s' ∧ contents s' = contents s ∧
    dom (heap s') = dom (heap s) ∧
    match r with
    | Some x => ∃ n, heap s' !! x = Some n ∧ key n = k ∧ root s' = Some x ∧
                     to_map s !! k = Some (val n)
    | None => to_map s !! k = None
    end.
Proof. apply search_map. Qed.

Lemma search_is_map_lookup_witness :
  wf spine ∧ (size (heap spine) ≤ 4)%nat ∧
  ∃ r s', search 4 1 spine = Ok r s' ∧ wf s' ∧ contents s' = contents spine ∧
    dom (heap s') = dom (heap spine) ∧
    match r with
    | Some x => ∃ n, heap s' !! x = Some n ∧ key n = 1 ∧ root s' = Some x ∧
                     to_map spine !! 1 = Some (val n)
    | None => to_map spine !! 1 = None
    end.
Proof.
  split; [ground|]. split; [vm_compute; lia|].
  apply search_is_map_lookup; [ground|vm_compute; lia].
Defined.

(** X3. Round trip: after [insert(k, v)], [search(k)] finds a node holding
    [v], and [search] of any other key finds what was bound to it before
    the insert, or nothing if nothing was. *)
Theorem insert_then_search (fuel : nat) (s : SplayTree) (k v : Z) :
  wf s → (size (heap s) < fuel)%nat →
  ∃ s1, insert fuel k v s = Ok tt s1 ∧
    (∃ x n s2, search fuel k s1 = Ok (Some x) s2 ∧
               heap s2 !! x = Some n ∧ key n = k ∧ val n = v) ∧
    (∀ k', k' ≠ k →
       ∃ r s2, search fuel k' s1 = Ok r s2 ∧
         match r with
         | Some x => ∃ n, heap s2 !! x = Some n ∧ key n = k' ∧
                          to_map s !! k' = Some (val n)
         | None => to_map s !! k' = None
         end).
Proof.
  intros Hwf Hf.
  destruct (insert_map fuel s k v Hwf ltac:(lia)) as (s1 & E & Hwf1 & _ & Hm).
  assert (size (heap s1) ≤ fuel)%nat as Hf1.
  { rewrite (wf_size_map _ Hwf1), Hm. rewrite (wf_size_map _ Hwf) in Hf.
    pose proof (map_size_insert k v (to_map s)) as Hsz.
    destruct (to_map s !! k); simpl in Hsz; lia. }
  exists s1. split; [done|]. split.
  - destruct (search_map fuel s1 k Hwf1 Hf1) as (r & s2 & E2 & _ & _ & _ & Hr).
    rewrite Hm, lookup_insert_eq in Hr. destruct r as [x|]; [|done].
    destruct Hr as (n & Hn & Hk & _ & [= ->]). eauto 10.
  - intros k' Hne.
    destruct (search_map fuel s1 k' Hwf1 Hf1) as (r & s2 & E2 & _ & _ & _ & Hr).
    rewrite Hm, lookup_insert_ne in Hr by done.
    exists r, s2. split; [done|]. destruct r; [|done].
    destruct Hr as (n & ? & ? & ? & ?). eauto.
Qed.

Lemma insert_then_search_witness :
  wf seeded ∧ (size (heap seeded) < 3)%nat ∧
  ∃ s1, insert 3 5 8 seeded = Ok tt s1 ∧
    (∃ x n s2, search 3 5 s1 = Ok (Some x) s2 ∧
               heap s2 !! x = Some n ∧ key n = 5 ∧ val n = 8) ∧
    (∀ k', k' ≠ 5 →
       ∃ r s2, search 3 k' s1 = Ok r s2 ∧
         match r with
         | Some x => ∃ n, heap s2 !! x = Some n ∧ key n = k' ∧
                          to_map seeded !! k' = Some (val n)
         | None => to_map seeded !! k' = None
         end).
Proof.
  split; [ground|]. split; [vm_compute; lia|].
  apply insert_then_search; [ground|vm_compute; lia].
Defined.

(** ** Rotations and splaying keep the contents *)

Section Restructure.
Implicit Types (t a b c : tree) (fs : path) (x y : loc) (pp o : option loc).

Lemma plug_cons t f fs : plug t (f :: fs) = plug (plug t [f]) fs.
Proof. by destruct f. Qed.

(** From the whole tree back to any of its decompositions. *)
Lemma rep_unplug s t fs :
  rep s (plug t fs) [] None (root s) → ∃ pp o, rep s t fs pp o.
Proof.
  revert t. induction fs as [|f fs IH]; intros t H; [eauto|].
  rewrite plug_cons in H. destruct (IH _ H) as (pp & o & H').
  destruct f; simpl in H'.
  - destruct (rep_down_l _ _ _ _ _ _ _ _ _ H'); eauto.
  - destruct (rep_down_r _ _ _ _ _ _ _ _ _ H'); eauto.
Qed.

Lemma rep_wf s t fs pp o : rep s t fs pp o → bst (plug t fs) → wf s.
Proof. intros H Hb. apply wf_rep. exists (plug t fs). split; [by eapply rep_plug|done]. Qed.

Lemma rep_plug_contents s t fs pp o : rep s t fs pp o → contents s = items (plug t fs).
Proof. intros H. apply rep_contents. by eapply rep_plug. Qed.

Lemma rotate_levels s x d :
  wf s → depth s x = Some d →
  ∃ s', _rotate x s = Ok tt s' ∧ wf s' ∧ contents s' = contents s ∧
    depth s' x = Some (Nat.pred d) ∧
    (d = O → s' = s) ∧
    (∀ n p, heap s !! x = Some n → parent n = Some p →
       depth s p = Some (Nat.pred d) ∧ depth s' p = Some d).
Proof.
  intros Hwf Hd. pose proof (depth_is_Some _ _ _ Hd) as Hx.
  destruct (rotate_wf s x Hwf Hx) as (s' & E & Hwf' & Hc).
  exists s'. split_and!; [done..| | |].
  - apply wf_rep in Hwf as (t & H & Hb).
    assert (x ∈ locs t) as Hin by (by apply (rep_dom _ _ _ _ _ H)).
    destruct (rep_focus _ _ _ _ _ _ H Hin) as (a & k & v & b & fs & H' & _ & _).
    rewrite (depth_spec _ _ _ _ _ _ _ _ _ H') in Hd. injection Hd as <-.
    destruct fs as [|f fs].
    + rewrite (rotate_root _ _ _ _ _ _ _ _ H') in E. injection E as <-.
      by rewrite (depth_spec _ _ _ _ _ _ _ _ _ H').
    + destruct (rotate_spec _ _ _ _ _ _ _ _ _ _ H') as (s'' & E' & H'').
      rewrite E in E'. injection E' as <-.
      destruct f; simpl in H''; by rewrite (depth_spec _ _ _ _ _ _ _ _ _ H'').
  - intros ->. apply wf_rep in Hwf as (t & H & Hb).
    assert (x ∈ locs t) as Hin by (by apply (rep_dom _ _ _ _ _ H)).
    destruct (rep_focus _ _ _ _ _ _ H Hin) as (a & k & v & b & fs & H' & _ & _).
    rewrite (depth_spec _ _ _ _ _ _ _ _ _ H') in Hd. injection Hd as Hd.
    destruct fs; [|done].
    rewrite (rotate_root _ _ _ _ _ _ _ _ H') in E. by injection E as <-.
  - intros n p Hn Hp. apply wf_rep in Hwf as (t & H & Hb).
    assert (x ∈ locs t) as Hin by (by apply (rep_dom _ _ _ _ _ H)).
    destruct (rep_focus _ _ _ _ _ _ H Hin) as (a & k & v & b & fs & H' & _ & _).
    rewrite (depth_spec _ _ _ _ _ _ _ _ _ H') in Hd. injection Hd as <-.
    destruct (rep_root _ _ _ _ _ _ _ _ _ H') as (_ & _ & n' & Hn' & _ & _ & Hp').
    rewrite Hn in Hn'. injection Hn' as <-. rewrite Hp in Hp'.
    destruct fs as [|f fs]; [done|]. injection Hp' as ->.
    destruct (rotate_spec _ _ _ _ _ _ _ _ _ _ H') as (s'' & E' & H'').
    rewrite E in E'. injection E' as <-.
    pose proof (rep_up _ _ _ _ _ _ H') as Hup.
    destruct f as [p kp vp c|c p kp vp]; simpl in *.
    + split; [by rewrite (depth_spec _ _ _ _ _ _ _ _ _ Hup)|].
      destruct (rep_down_r _ _ _ _ _ _ _ _ _ H'') as (ro & Hp2).
      by rewrite (depth_spec _ _ _ _ _ _ _ _ _ Hp2).
    + split; [by rewrite (depth_spec _ _ _ _ _ _ _ _ _ Hup)|].
      destruct (rep_down_l _ _ _ _ _ _ _ _ _ H'') as (lo & Hp2).
      by rewrite (depth_spec _ _ _ _ _ _ _ _ _ Hp2).
Qed.

Lemma splay_wf fuel s x :
  wf s → is_Some (heap s !! x) → (size (heap s) ≤ fuel)%nat →
  ∃ s', _splay fuel x s = Ok tt s' ∧ wf s' ∧ contents s' = contents s ∧
    dom (heap s') = dom (heap s) ∧ root s' = Some x.
Proof.
  intros (t & H & Hb)%wf_rep Hx Hf.
  assert (x ∈ locs t) as Hin by (by apply (rep_dom _ _ _ _ _ H)).
  destruct (rep_focus _ _ _ _ _ _ H Hin) as (a & k & v & b & fs & H' & Ep & _).
  simpl in Ep.
  destruct (splay_spec fuel _ _ _ _ _ _ _ _ _ H') as (s' & a' & b' & E & H'' & En).
  { pose proof (rep_path_length _ _ _ _ _ H'). lia. }
  rewrite Ep in En. apply rep_nil_root in H''.
  exists s'. split_and!; [done| | | |].
  - apply wf_rep. eexists. split; [done|]. by eapply bst_entries.
  - by rewrite (rep_contents _ _ H''), (rep_contents _ _ H), !items_entries, En.
  - rewrite (rep_dom_set _ _ _ _ _ H''), (rep_dom_set _ _ _ _ _ H). simpl.
    unfold locs. by rewrite En.
  - exact (proj1 (rep_root_key _ _ _ _ _ _ H'')).
Qed.

(** One iteration of the loop of [_splay], with the trees it produces. *)
Lemma splay_step_shape s a x k v b f fs pp o :
  rep s (Br a x k v b) (f :: fs) pp o →
  ∃ s', _splay_step x (frame_loc f) s = Ok tt s' ∧
    rep s' (match fs with
            | [] => rot (Br a x k v b) f
            | f2 :: _ => splay2 (Br a x k v b) f f2
            end) (tail fs) (hole_parent (tail fs)) (Some x).
Proof.
  intros H. pose proof (rep_frame _ _ _ _ _ _ _ _ _ _ H) as (np & Hnp & Hpp & Hside).
  unfold _splay_step. step. rewrite Hpp.
  destruct fs as [|f2 fs]; simpl.
  - destruct (rotate_spec _ _ _ _ _ _ _ _ _ _ H) as (s' & E & H'). eauto.
  - pose proof (rep_up _ _ _ _ _ _ H) as Hup.
    assert (∃ c p kp vp d, plug (Br a x k v b) [f] = Br c p kp vp d ∧ p = frame_loc f)
      as (c & p & kp & vp & d & Ef & Ep) by (destruct f; simpl; eauto 10).
    rewrite Ef in Hup.
    pose proof (rep_frame _ _ _ _ _ _ _ _ _ _ Hup) as (ng & Hng & _ & Hside2).
    step. rewrite Hside. rewrite Ep in Hside2. rewrite Hside2.
    destruct (rotate_spec _ _ _ _ _ _ _ _ _ _ Hup) as (s1 & E1 & H1).
    destruct (rotate_spec _ _ _ _ _ _ _ _ _ _ H) as (s1' & E1' & H1').
    destruct f as [p' kp' vp' c'|c' p' kp' vp'], f2 as [g kg vg e|e g kg vg];
      simpl in *; injection Ef as <- <- <- <- <-.
    + rewrite (bind_Ok _ _ _ _ _ E1). clear E1' H1'.
      apply rep_down_l in H1 as [lo H1].
      pose proof (rep_root _ _ _ _ _ _ _ _ _ H1) as (-> & _).
      destruct (rotate_spec _ _ _ _ _ _ _ _ _ _ H1) as (s2 & E2 & H2). eauto.
    + rewrite (bind_Ok _ _ _ _ _ E1'). clear E1 H1.
      destruct (rotate_spec _ _ _ _ _ _ _ _ _ _ H1') as (s2 & E2 & H2). eauto.
    + rewrite (bind_Ok _ _ _ _ _ E1'). clear E1 H1.
      destruct (rotate_spec _ _ _ _ _ _ _ _ _ _ H1') as (s2 & E2 & H2). eauto.
    + rewrite (bind_Ok _ _ _ _ _ E1). clear E1' H1'.
      apply rep_down_r in H1 as [ro H1].
      pose proof (rep_root _ _ _ _ _ _ _ _ _ H1) as (-> & _).
      destruct (rotate_spec _ _ _ _ _ _ _ _ _ _ H1) as (s2 & E2 & H2). eauto.
Qed.
End Restructure.

(** X4. [_rotate] of a node returns, keeps the state well formed and the
    in-order key-value pairs unchanged; the node moves up one level and
    its former parent moves down one level; on the root nothing changes. *)
Theorem rotate_exchanges_levels (s : SplayTree) (x : loc) (d : nat) :
  wf s → depth s x = Some d →
  ∃ s', _rotate x s = Ok tt s' ∧ wf s' ∧ contents s' = contents s ∧
    depth s' x = Some (Nat.pred d) ∧
    (d = O → s' = s) ∧
    (∀ n p, heap s !! x = Some n → parent n = Some p →
       depth s p = Some (Nat.pred d) ∧ depth s' p = Some d).
Proof. apply rotate_levels. Qed.

Lemma rotate_exchanges_levels_witness :
  wf spine ∧ depth spine 1%positive = Some 3%nat ∧
  ∃ s', _rotate 1%positive spine = Ok tt s' ∧ wf s' ∧ contents s' = contents spine ∧
    depth s' 1%positive = Some (Nat.pred 3) ∧
    (3%nat = O → s' = spine) ∧
    (∀ n p, heap spine !! 1%positive = Some n → parent n = Some p →
       depth spine p = Some (Nat.pred 3) ∧ depth s' p = Some 3%nat).
Proof.
  split; [ground|]. split; [vm_compute; reflexivity|].
  apply rotate_exchanges_levels; [ground|vm_compute; reflexivity].
Defined.

(** X5. [_splay] of any live node returns (fuel at least the node count),
    leaves that node at the root, keeps the state well formed, and changes
    neither the in-order key-value pairs nor the set of live nodes. *)
Theorem splay_preserves_contents (fuel : nat) (s : SplayTree) (x : loc) :
  wf s → is_Some (heap s !! x) → (size (heap s) ≤ fuel)%nat →
  ∃ s', _splay fuel x s = Ok tt s' ∧ wf s' ∧ contents s' = contents s ∧
    dom (heap s') = dom (heap s) ∧ root s' = Some x.
Proof. apply splay_wf. Qed.

Lemma splay_preserves_contents_witness :
  wf spine ∧ is_Some (heap spine !! 1%positive) ∧ (size (heap spine) ≤ 4)%nat ∧
  ∃ s', _splay 4 1%positive spine = Ok tt s' ∧ wf s' ∧ contents s' = contents spine ∧
    dom (heap s') = dom (heap spine) ∧ root s' = Some 1%positive.
Proof.
  split; [ground|]. split; [vm_compute; eauto|]. split; [vm_compute; lia|].
  apply splay_preserves_contents; [ground|vm_compute; eauto|vm_compute; lia].
Defined.

(** X6. One iteration of the loop of [_splay] on node [x], read on the
    tree the state holds: below a parent that is the root it is the single
    rotation (zig); otherwise, with parent [p] and grandparent [g], it
    replaces the three-node chain by the zig-zig shape when [x] and [p] are
    children on the same side (the chain is reversed, [g] ends two levels
    below [x]) and by the zig-zag shape when they are on opposite sides
    ([p] and [g] become the two children of [x]). *)
Theorem splay_step_restructures (s : SplayTree) (a b : tree) (x : loc) (k v : Z)
    (f1 : frame) (fs : path) :
  wf s → abs s = Some (plug (Br a x k v b) (f1 :: fs)) →
  ∃ s', _splay_step x (frame_loc f1) s = Ok tt s' ∧
    abs s' = Some (match fs with
                   | [] => rot (Br a x k v b) f1
                   | f2 :: fs' => plug (splay2 (Br a x k v b) f1 f2) fs'
                   end).
Proof.
  intros (t & H & Hb)%wf_rep Habs.
  rewrite (rep_abs _ _ H) in Habs. injection Habs as ->.
  destruct (rep_unplug s (Br a x k v b) (f1 :: fs) H) as (pp & o & H').
  destruct (splay_step_shape _ _ _ _ _ _ _ _ _ _ H') as (s' & E & H'').
  exists s'. split; [done|]. apply rep_plug in H''.
  rewrite (rep_abs _ _ H''). by destruct fs.
Qed.

Lemma splay_step_restructures_witness :
  wf spine ∧
  abs spine = Some (plug (Br Leaf 1%positive 0 0 Leaf)
                      [InL 2%positive 1 1 Leaf; InL 3%positive 2 2 Leaf;
                       InL 4%positive 3 3 Leaf]) ∧
  ∃ s', _splay_step 1%positive 2%positive spine = Ok tt s' ∧
    abs s' = Some (plug (splay2 (Br Leaf 1%positive 0 0 Leaf)
                           (InL 2%positive 1 1 Leaf) (InL 3%positive 2 2 Leaf))
                        [InL 4%positive 3 3 Leaf]).
Proof.
  split; [ground|]. split; [vm_compute; reflexivity|].
  apply (splay_step_restructures spine Leaf Leaf 1%positive 0 0
           (InL 2%positive 1 1 Leaf)
           [InL 3%positive 2 2 Leaf; InL 4%positive 3 3 Leaf]);
    [ground|vm_compute; reflexivity].
Defined.

(** ** The node a failed search leaves at the root *)

Section Neighbour.
Implicit Types (t a b c : tree) (fs : path) (x y : loc) (pp o : option loc).

Lemma search_miss_neighbour fuel s t k :
  rep s t [] None (root s) → bst t → k ∉ keys t → t ≠ Leaf →
  (size (heap s) ≤ fuel)%nat →
  ∃ s' k', search fuel k s = Ok None s' ∧ root_key s' = Some k' ∧ k' ∈ keys t ∧
    ((k' < k ∧ ∀ j, j ∈ keys t → j < k → j ≤ k') ∨
     (k < k' ∧ ∀ j, j ∈ keys t → k < j → k' ≤ j)).
Proof.
  intros H Hb Hk Hne Hf.
  destruct (descend_missed _ _ _ _ H Hb Hk Hf) as (fs0 & E & H' & Ep & Hbt & Hnil).
  destruct fs0 as [|f fs]; [by destruct (Hnil Hne)|].
  change (hole_parent (f :: fs)) with (Some (frame_loc f)) in *.
  pose proof (rep_up _ _ _ _ _ _ H') as Hup.
  apply bst_sorted in Hb. rewrite <- Ep in Hb |- *. rewrite keys_plug in Hb |- *.
  change (keys Leaf) with (@nil Z) in *. simpl app in *.
  destruct Hbt as [Hbef Haft].
  destruct f as [p kp vp c|c p kp vp]; simpl in Hup.
  - destruct (splay_spec fuel _ _ _ _ _ _ _ _ _ Hup) as (s' & a' & b' & E' & H'' & _).
    { pose proof (rep_path_length _ _ _ _ _ H'). simpl in *. lia. }
    apply rep_nil_root in H''.
    exists s', kp. split_and!.
    + unfold search. rewrite get_root_bind, (bind_Ok _ _ _ _ _ E). cbn beta iota.
      by rewrite (bind_Ok _ _ _ _ _ E').
    + exact (proj2 (rep_root_key _ _ _ _ _ _ H'')).
    + rewrite fmap_cons. set_solver.
    + right. cbn [after] in Haft. rewrite fmap_cons in Hb |- *. cbn [fst snd] in Hb |- *.
      apply Forall_cons in Haft as [Hkp _]. simpl in Hkp. split; [done|].
      apply StronglySorted_app in Hb as (_ & _ & Hb).
      apply StronglySorted_cons in Hb as [Hb _]. rewrite Forall_forall in Hb.
      intros j Hj Hkj. apply elem_of_app in Hj as [Hj|Hj].
      * apply list_elem_of_fmap in Hj as (e & -> & He).
        rewrite Forall_forall in Hbef. specialize (Hbef _ He). simpl in Hbef. lia.
      * apply elem_of_cons in Hj as [->|Hj]; [lia|]. specialize (Hb _ Hj). lia.
  - destruct (splay_spec fuel _ _ _ _ _ _ _ _ _ Hup) as (s' & a' & b' & E' & H'' & _).
    { pose proof (rep_path_length _ _ _ _ _ H'). simpl in *. lia. }
    apply rep_nil_root in H''.
    exists s', kp. split_and!.
    + unfold search. rewrite get_root_bind, (bind_Ok _ _ _ _ _ E). cbn beta iota.
      by rewrite (bind_Ok _ _ _ _ _ E').
    + exact (proj2 (rep_root_key _ _ _ _ _ _ H'')).
    + rewrite !fmap_app. set_solver.
    + left. cbn [before] in Hbef. rewrite !fmap_app in Hb |- *.
      change ((λ e : loc * Z * Z, e.1.2) <$> [(p, kp, vp)]) with [kp] in *.
      rewrite !Forall_app in Hbef. destruct Hbef as (_ & _ & Hkp).
      apply Forall_cons in Hkp as [Hkp _]. simpl in Hkp. split; [done|].
      rewrite (assoc (++)) in Hb.
      apply StronglySorted_app in Hb as (_ & Hb & _).
      apply StronglySorted_app in Hb as (Hb & _ & _).
      intros j Hj Hjk. rewrite (assoc (++)) in Hj.
      apply elem_of_app in Hj as [Hj|Hj].
      * apply elem_of_app in Hj as [Hj|Hj].
        -- specialize (Hb j kp Hj ltac:(set_solver)). lia.
        -- apply list_elem_of_singleton in Hj. lia.
      * apply list_elem_of_fmap in Hj as (e & -> & He).
        rewrite Forall_forall in Haft. specialize (Haft _ He). simpl in Haft. lia.
Qed.
End Neighbour.

(** X7. When the key is absent from a non-empty tree, the node a failed
    [search] splays to the root holds a key that is present and next to
    the searched key in the order: the greatest key below it or the least
    key above it. *)
Theorem search_miss_splays_neighbour (fuel : nat) (s : SplayTree) (k : Z) :
  wf s → k ∉ inorder_keys s → root s ≠ None → (size (heap s) ≤ fuel)%nat →
  ∃ s' k', search fuel k s = Ok None s' ∧ root_key s' = Some k' ∧
    k' ∈ inorder_keys s ∧
    ((k' < k ∧ ∀ j, j ∈ inorder_keys s → j < k → j ≤ k') ∨
     (k < k' ∧ ∀ j, j ∈ inorder_keys s → k < j → k' ≤ j)).
Proof.
  intros (t & H & Hb)%wf_rep Hk Hr Hf.
  rewrite (rep_inorder_keys _ _ H) in *.
  apply (search_miss_neighbour fuel s t k); try done.
  intros ->. destruct H as [Ht _ _ _]. simpl in Ht. done.
Qed.

Lemma search_miss_splays_neighbour_witness :
  wf spine ∧ (7 ∉ inorder_keys spine) ∧ root spine ≠ None ∧
  (size (heap spine) ≤ 4)%nat ∧
  ∃ s' k', search 4 7 spine = Ok None s' ∧ root_key s' = Some k' ∧
    k' ∈ inorder_keys spine ∧
    ((k' < 7 ∧ ∀ j, j ∈ inorder_keys spine → j < 7 → j ≤ k') ∨
     (7 < k' ∧ ∀ j, j ∈ inorder_keys spine → 7 < j → k' ≤ j)).
Proof.
  split; [ground|]. split; [ground|]. split; [vm_compute; discriminate|].
  split; [vm_compute; lia|].
  apply search_miss_splays_neighbour;
    [ground|ground|vm_compute; discriminate|vm_compute; lia].
Defined.

(** * The two Fibonacci evaluators *)

Section Fib.
Lemma fib_SS (p : nat) : fib (S (S p)) = fib (S p) + fib p.
Proof. done. Qed.

Lemma fib_value_nonneg (m : Z) : 0 ≤ m → fib_value m = fib (Z.to_nat m).
Proof.
  intros Hm. unfold fib_value. case_bool_decide; [|done].
  assert (m = 0 ∨ m = 1) as [-> | ->] by lia; done.
Qed.

Lemma fib_value_rec (n : Z) :
  2 ≤ n → fib_value n = fib_value (n - 1) + fib_value (n - 2).
Proof.
  intros Hn. rewrite !fib_value_nonneg by lia.
  replace (Z.to_nat n) with (S (S (Z.to_nat (n - 2)))) by lia.
  replace (Z.to_nat (n - 1)) with (S (Z.to_nat (n - 2))) by lia.
  apply fib_SS.
Qed.

Lemma fib_loop_spec (i m : nat) :
  fib_loop i (fib m) (fib (S m)) = fib (S m + i).
Proof.
  revert m. induction i as [|i IH]; intros m; cbn [fib_loop].
  - by rewrite Nat.add_0_r.
  - rewrite (Z.add_comm (fib m)), <- fib_SS, IH. f_equal. lia.
Qed.

(** The loop of [fibonacci_lru] computes what the recurrence defines. *)
Lemma fibonacci_lru_body_spec (n : Z) : fibonacci_lru_body n = fib_value n.
Proof.
  unfold fibonacci_lru_body, fib_value. case_bool_decide; [done|].
  change 0 with (fib 0) at 1. change 1 with (fib 1) at 2.
  rewrite fib_loop_spec. f_equal. lia.
Qed.

Lemma elem_of_fib_keys (n k : Z) : k ∈ fib_keys n ↔ 2 ≤ k ≤ n.
Proof. unfold fib_keys. rewrite elem_of_list_to_set, elem_of_seqZ. lia. Qed.

Lemma fib_keys_size (n : Z) : (size (fib_keys n) ≤ Z.to_nat n)%nat.
Proof.
  unfold fib_keys. rewrite size_list_to_set by apply NoDup_seqZ.
  rewrite length_seqZ. lia.
Qed.

(** The table invariant, read on the finite map. *)
Lemma fib_table_map s :
  wf s → fib_table s ↔ ∀ k v, to_map s !! k = Some v → v = fib_value k.
Proof.
  intros Hwf. pose proof (wf_contents_NoDup _ Hwf) as ND.
  unfold fib_table, to_map. rewrite Forall_forall. split.
  - intros H k v Hkv. apply elem_of_list_to_map in Hkv; [|done]. by apply (H (k, v)).
  - intros H [k v] Hkv. apply H. by apply elem_of_list_to_map.
Qed.

Lemma wf_keys_size s : wf s → size (heap s) = size (dom (to_map s)).
Proof. intros Hwf. by rewrite size_dom, wf_size_map. Qed.

Lemma fibonacci_splay_gen fuel depth :
  ∀ n s, wf s → fib_table s → (Z.to_nat n ≤ depth)%nat →
    (size (dom (to_map s) ∪ fib_keys n) ≤ fuel)%nat →
    ∃ s', fibonacci_splay depth fuel n s = Ok (fib_value n) s' ∧
      wf s' ∧ fib_table s' ∧ to_map s ⊆ to_map s' ∧
      dom (to_map s') ⊆ dom (to_map s) ∪ fib_keys n.
Proof.
  induction depth as [|depth IH]; intros n s Hwf Htab Hd Hf.
  - assert (n < 2) as Hn by lia. exists s.
    cbn [fibonacci_splay]. rewrite bool_decide_true by done.
    unfold fib_value; rewrite bool_decide_true by done.
    split_and!; (done || set_solver).
  - destruct (decide (n < 2)) as [Hn|Hn].
    { exists s. cbn [fibonacci_splay]. rewrite bool_decide_true by done.
      unfold fib_value; rewrite bool_decide_true by done.
      split_and!; (done || set_solver). }
    cbn [fibonacci_splay]. rewrite bool_decide_false by done.
    assert (size (heap s) ≤ fuel)%nat as Hsz.
    { rewrite (wf_keys_size _ Hwf). etrans; [|exact Hf].
      apply subseteq_size. set_solver. }
    destruct (search_map fuel s n Hwf Hsz) as (r & s0 & E0 & Hwf0 & Hc0 & _ & Hr).
    rewrite (bind_Ok _ _ _ _ _ E0).
    assert (to_map s0 = to_map s) as Hm0 by (unfold to_map; by rewrite Hc0).
    assert (fib_table s0) as Htab0 by (unfold fib_table; by rewrite Hc0).
    destruct r as [x|].
    + destruct Hr as (nx & Hnx & _ & _ & Hv).
      rewrite (bind_Ok _ _ _ _ _ (get_Ok _ _ _ Hnx)).
      rewrite (proj1 (fib_table_map _ Hwf) Htab _ _ Hv).
      exists s0. rewrite Hm0. split_and!; (done || set_solver).
    + destruct (IH (n - 1) s0 Hwf0 Htab0 ltac:(lia)) as (s1 & E1 & Hwf1 & Htab1 & Hs1 & Hk1).
      { etrans; [|exact Hf]. apply subseteq_size. rewrite Hm0.
        intros k. rewrite !elem_of_union, !elem_of_fib_keys. intros [?|?]; [by left|right; lia]. }
      rewrite (bind_Ok _ _ _ _ _ E1).
      destruct (IH (n - 2) s1 Hwf1 Htab1 ltac:(lia)) as (s2 & E2 & Hwf2 & Htab2 & Hs2 & Hk2).
      { etrans; [|exact Hf]. apply subseteq_size. rewrite Hm0 in Hk1.
        intros k. rewrite elem_of_union. intros [Hk|Hk].
        - apply Hk1 in Hk. revert Hk. rewrite !elem_of_union, !elem_of_fib_keys.
          intros [?|?]; [by left|right; lia].
        - revert Hk. rewrite !elem_of_union, !elem_of_fib_keys. intros ?; right; lia. }
      rewrite (bind_Ok _ _ _ _ _ E2).
      assert (dom (to_map s2) ⊆ dom (to_map s) ∪ fib_keys (n - 1)) as Hk2'.
      { rewrite Hm0 in Hk1. intros k Hk. apply Hk2 in Hk.
        apply elem_of_union in Hk as [Hk|Hk].
        - by apply Hk1.
        - revert Hk. rewrite !elem_of_union, !elem_of_fib_keys. intros ?; right; lia. }
      destruct (insert_map fuel s2 n (fib_value (n - 1) + fib_value (n - 2)) Hwf2)
        as (s3 & E3 & Hwf3 & _ & Hm3).
      { rewrite (wf_keys_size _ Hwf2). etrans; [|exact Hf]. apply subseteq_size.
        intros k Hk. apply Hk2' in Hk. revert Hk.
        rewrite !elem_of_union, !elem_of_fib_keys. intros [?|?]; [by left|right; lia]. }
      cbn zeta. rewrite (bind_Ok _ _ _ _ _ E3).
      rewrite <- fib_value_rec by lia.
      exists s3. split_and!; [done|done| | |].
      * apply (proj2 (fib_table_map _ Hwf3)). rewrite Hm3. intros k v.
        rewrite lookup_insert. case_decide as Hkn.
        -- subst k. intros [= <-]. symmetry. apply fib_value_rec. lia.
        -- apply (proj1 (fib_table_map _ Hwf2) Htab2).
      * rewrite Hm3. apply insert_subseteq_r.
        -- exact Hr.
        -- rewrite <- Hm0. by etrans.
      * rewrite Hm3, dom_insert. intros k. rewrite elem_of_union, elem_of_singleton.
        intros [->|Hk].
        -- apply elem_of_union. right. apply elem_of_fib_keys. lia.
        -- apply Hk2' in Hk. revert Hk.
           rewrite !elem_of_union, !elem_of_fib_keys. intros [?|?]; [by left|right; lia].
Qed.

Lemma fibonacci_splay_spec depth fuel n s :
  wf s → fib_table s → (Z.to_nat n ≤ depth)%nat →
  (size (heap s) + Z.to_nat n ≤ fuel)%nat →
  ∃ s', fibonacci_splay depth fuel n s = Ok (fib_value n) s' ∧
    wf s' ∧ fib_table s' ∧ to_map s ⊆ to_map s'.
Proof.
  intros Hwf Htab Hd Hf.
  destruct (fibonacci_splay_gen fuel depth n s Hwf Htab Hd) as (s' & ? & ? & ? & ? & _).
  - rewrite size_union_alt.
    assert (size (fib_keys n ∖ dom (to_map s)) ≤ size (fib_keys n))%nat
      by (apply subseteq_size; set_solver).
    pose proof (fib_keys_size n). rewrite (wf_keys_size _ Hwf) in Hf. lia.
  - eauto.
Qed.

Lemma fibonacci_lru_spec n table :
  lru_table_ok table →
  (fibonacci_lru n table).1 = fib_value n ∧
  lru_table_ok (fibonacci_lru n table).2 ∧
  table ⊆ (fibonacci_lru n table).2 ∧
  fibonacci_lru n (fibonacci_lru n table).2 = (fib_value n, (fibonacci_lru n table).2).
Proof.
  intros Hok. unfold fibonacci_lru. destruct (table !! n) as [v|] eqn:Hn; simpl.
  - pose proof (Hok _ _ Hn) as Hv. simpl in Hv. rewrite fibonacci_lru_body_spec in Hv.
    subst v. rewrite Hn. done.
  - rewrite lookup_insert_eq, fibonacci_lru_body_spec. split_and!; [done| |by apply insert_subseteq|done].
    apply map_Forall_insert; [done|]. split; [|done]. simpl. by rewrite fibonacci_lru_body_spec.
Qed.

Lemma run_splay_spec depth fuel n :
  (Z.to_nat n ≤ depth)%nat → (2 + Z.to_nat n ≤ fuel)%nat →
  ∃ s', run_splay depth fuel n empty_tree = Ok (fib_value n) s' ∧
    wf s' ∧ fib_table s' ∧ to_map seeded ⊆ to_map s'.
Proof.
  intros Hd Hf. unfold run_splay.
  destruct (SplayTree_init_wf fuel ltac:(lia)) as [E Hwf].
  rewrite (bind_Ok _ _ _ _ _ E).
  apply fibonacci_splay_spec; [done| |done|].
  - apply (bool_decide_eq_true_1 _). vm_compute. reflexivity.
  - replace (size (heap seeded)) with 2%nat by (vm_compute; reflexivity). lia.
Qed.
End Fib.

(** X8. On a well-formed tree whose stored values are the ones the
    evaluator returns for their keys (the tree of [SplayTree()] is one, and
    so is the empty tree), [fibonacci_splay(n, tree)] returns for every
    integer [n]: [n] itself when [n < 2], the [n]-th Fibonacci number
    otherwise, given a recursion bound of [n] and loop fuel of the node
    count plus [n].  The tree keeps the two properties and loses no
    binding. *)
Theorem fibonacci_splay_correct (depth fuel : nat) (n : Z) (s : SplayTree) :
  wf s → fib_table s → (Z.to_nat n ≤ depth)%nat →
  (size (heap s) + Z.to_nat n ≤ fuel)%nat →
  ∃ s', fibonacci_splay depth fuel n s = Ok (fib_value n) s' ∧
    wf s' ∧ fib_table s' ∧ to_map s ⊆ to_map s'.
Proof. apply fibonacci_splay_spec. Qed.

Lemma fibonacci_splay_correct_witness :
  wf seeded ∧ fib_table seeded ∧ (Z.to_nat 10 ≤ 10)%nat ∧
  (size (heap seeded) + Z.to_nat 10 ≤ 12)%nat ∧
  ∃ s', fibonacci_splay 10 12 10 seeded = Ok (fib_value 10) s' ∧
    wf s' ∧ fib_table s' ∧ to_map seeded ⊆ to_map s'.
Proof.
  split; [ground|]. split; [ground|]. split; [vm_compute; lia|]. split; [vm_compute; lia|].
  apply fibonacci_splay_correct; [ground|ground|vm_compute; lia|vm_compute; lia].
Defined.

(** X9. While its table holds only results of its own body,
    [fibonacci_lru(n)] returns [n] when [n < 2] and the [n]-th Fibonacci
    number otherwise; the table keeps that property and every entry it
    had, and a second call with the same argument returns the same number
    from the table without changing it. *)
Theorem fibonacci_lru_correct (n : Z) (table : gmap Z Z) :
  lru_table_ok table →
  (fibonacci_lru n table).1 = fib_value n ∧
  lru_table_ok (fibonacci_lru n table).2 ∧
  table ⊆ (fibonacci_lru n table).2 ∧
  fibonacci_lru n (fibonacci_lru n table).2 = (fib_value n, (fibonacci_lru n table).2).
Proof. apply fibonacci_lru_spec. Qed.

Lemma fibonacci_lru_correct_witness :
  lru_table_ok (<[3 := 2]> ∅) ∧
  (fibonacci_lru 10 (<[3 := 2]> ∅)).1 = fib_value 10 ∧
  lru_table_ok (fibonacci_lru 10 (<[3 := 2]> ∅)).2 ∧
  <[3 := 2]> ∅ ⊆ (fibonacci_lru 10 (<[3 := 2]> ∅)).2 ∧
  fibonacci_lru 10 (fibonacci_lru 10 (<[3 := 2]> ∅)).2
    = (fib_value 10, (fibonacci_lru 10 (<[3 := 2]> ∅)).2).
Proof.
  split; [ground|]. apply fibonacci_lru_correct. ground.
Defined.

(** X10. The two evaluators agree: on such a tree and such a table,
    [fibonacci_splay(n, tree)] returns what [fibonacci_lru(n)] returns, for
    every integer [n]. *)
Theorem fibonacci_evaluators_agree (depth fuel : nat) (n : Z) (s : SplayTree)
    (table : gmap Z Z) :
  wf s → fib_table s → lru_table_ok table → (Z.to_nat n ≤ depth)%nat →
  (size (heap s) + Z.to_nat n ≤ fuel)%nat →
  ∃ s', fibonacci_splay depth fuel n s = Ok (fibonacci_lru n table).1 s'.
Proof.
  intros Hwf Htab Hok Hd Hf.
  destruct (fibonacci_splay_spec depth fuel n s Hwf Htab Hd Hf) as (s' & E & _).
  exists s'. by rewrite (proj1 (fibonacci_lru_spec n table Hok)).
Qed.

Lemma fibonacci_evaluators_agree_witness :
  wf empty_tree ∧ fib_table empty_tree ∧ lru_table_ok ∅ ∧ (Z.to_nat 10 ≤ 10)%nat ∧
  (size (heap empty_tree) + Z.to_nat 10 ≤ 10)%nat ∧
  ∃ s', fibonacci_splay 10 10 10 empty_tree = Ok (fibonacci_lru 10 ∅).1 s'.
Proof.
  split; [ground|]. split; [ground|]. split; [ground|].
  split; [vm_compute; lia|]. split; [vm_compute; lia|].
  apply fibonacci_evaluators_agree; [ground|ground|ground|vm_compute; lia|vm_compute; lia].
Defined.

(** X11. [run_splay] of the main block, a new [SplayTree()] followed by
    [fibonacci_splay(n, tree)], returns for every integer [n]: [n] itself
    when [n < 2] and the [n]-th Fibonacci number otherwise, given a
    recursion bound of [n] and loop fuel of [n + 2].  The tree it leaves
    is well formed, stores Fibonacci numbers only, and still binds 0 to 0
    and 1 to 1. *)
Theorem run_splay_correct (depth fuel : nat) (n : Z) :
  (Z.to_nat n ≤ depth)%nat → (2 + Z.to_nat n ≤ fuel)%nat →
  ∃ s', run_splay depth fuel n empty_tree = Ok (fib_value n) s' ∧
    wf s' ∧ fib_table s' ∧ to_map seeded ⊆ to_map s'.
Proof. apply run_splay_spec. Qed.

Lemma run_splay_correct_witness :
  (Z.to_nat 12 ≤ 12)%nat ∧ (2 + Z.to_nat 12 ≤ 14)%nat ∧
  ∃ s', run_splay 12 14 12 empty_tree = Ok (fib_value 12) s' ∧
    wf s' ∧ fib_table s' ∧ to_map seeded ⊆ to_map s'.
Proof.
  split; [vm_compute; lia|]. split; [vm_compute; lia|].
  apply run_splay_correct; vm_compute; lia.
Defined.

(** * Range sums and updates of task_1.py *)

Section Slices.
Implicit Types (l : list Z) (e : Env).

Lemma foldl_add a l : foldl Z.add a l = a + py_sum l.
Proof.
  unfold py_sum. revert a. induction l as [|x l IH]; intros a; cbn [foldl]; [lia|].
  rewrite (IH (a + x)), (IH (0 + x)). lia.
Qed.

Lemma py_sum_nil : py_sum [] = 0.
Proof. done. Qed.

Lemma py_sum_cons x l : py_sum (x :: l) = x + py_sum l.
Proof. unfold py_sum at 1. cbn [foldl]. rewrite foldl_add. lia. Qed.

Lemma py_sum_app l1 l2 : py_sum (l1 ++ l2) = py_sum l1 + py_sum l2.
Proof.
  induction l1 as [|x l1 IH]; cbn [app].
  - rewrite py_sum_nil. lia.
  - rewrite !py_sum_cons, IH. lia.
Qed.

Lemma py_sum_insert l j v old :
  l !! j = Some old → py_sum (<[j := v]> l) = py_sum l + (v - old).
Proof.
  intros H. rewrite insert_take_drop by (by eapply lookup_lt_Some).
  assert (py_sum l = py_sum (take j l ++ old :: drop (S j) l)) as ->
    by (by rewrite take_drop_middle).
  rewrite !py_sum_app, !py_sum_cons. lia.
Qed.

(** A slice between two indices that are not negative. *)
Lemma py_slice_nonneg l a b :
  0 ≤ a → 0 ≤ b →
  py_slice l a b = take (Z.to_nat b - Z.to_nat a) (drop (Z.to_nat a) l).
Proof.
  intros Ha Hb. unfold py_slice, clamp_index. cbv zeta.
  rewrite !bool_decide_false by lia.
  destruct (decide (Z.of_nat (length l) ≤ a)) as [Hge|Hlt].
  - rewrite !drop_ge by lia. by rewrite !take_nil.
  - replace (a `min` Z.of_nat (length l)) with a by lia.
    destruct (decide (Z.of_nat (length l) ≤ b)).
    + rewrite !take_ge; [done|..]; rewrite length_drop; lia.
    + f_equal. lia.
Qed.

Lemma py_slice_split l L M R :
  0 ≤ L ≤ M → M ≤ R →
  py_slice l L (R + 1) = py_slice l L (M + 1) ++ py_slice l (M + 1) (R + 1).
Proof.
  intros HL HM. rewrite !py_slice_nonneg by lia.
  replace (drop (Z.to_nat (M + 1)) l)
    with (drop (Z.to_nat (M + 1) - Z.to_nat L) (drop (Z.to_nat L) l))
    by (rewrite drop_drop; f_equal; lia).
  rewrite take_take_drop. f_equal. lia.
Qed.

Lemma sum_take_drop l (a n : nat) :
  (a + n ≤ length l)%nat →
  py_sum (take n (drop a l)) = foldr (λ i acc, default 0 (l !! i) + acc) 0 (seq a n).
Proof.
  revert a. induction n as [|n IH]; intros a Hlen; [done|].
  destruct (lookup_lt_is_Some_2 l a ltac:(lia)) as [x Hx].
  rewrite (drop_S _ _ _ Hx). cbn [take seq foldr]. rewrite py_sum_cons, Hx.
  rewrite IH by lia. done.
Qed.

Lemma range_sum_in_range e a l L R :
  objects e !! a = Some l → 0 ≤ L → L ≤ R → R < Z.of_nat (length l) →
  range_sum_no_cache a L R e = Some (sum_between l L R).
Proof.
  intros Hl HL HR Hlen. unfold range_sum_no_cache. rewrite Hl. simpl. f_equal.
  rewrite py_slice_nonneg by lia. unfold sum_between.
  replace (Z.to_nat (R + 1) - Z.to_nat L)%nat with (Z.to_nat (R - L + 1)) by lia.
  apply sum_take_drop. lia.
Qed.

Lemma range_sum_edges e a l L R :
  objects e !! a = Some l → 0 ≤ L →
  (-1 ≤ R < L → range_sum_no_cache a L R e = Some 0) ∧
  (Z.of_nat (length l) - 1 ≤ R →
     range_sum_no_cache a L R e
     = range_sum_no_cache a L (Z.of_nat (length l) - 1) e) ∧
  (Z.of_nat (length l) ≤ L → -1 ≤ R → range_sum_no_cache a L R e = Some 0).
Proof.
  intros Hl HL. unfold range_sum_no_cache. rewrite Hl. simpl. split_and!.
  - intros HR. rewrite py_slice_nonneg by lia.
    replace (Z.to_nat (R + 1) - Z.to_nat L)%nat with 0%nat by lia. done.
  - intros HR. destruct (decide (0 ≤ Z.of_nat (length l) - 1 + 1)); [|lia].
    rewrite !py_slice_nonneg by lia. do 2 f_equal.
    rewrite !take_ge; [done|..]; rewrite length_drop; lia.
  - intros HLn HR. rewrite py_slice_nonneg by lia.
    rewrite drop_ge by lia. by rewrite take_nil.
Qed.

Lemma py_setitem_in_range l i v :
  0 ≤ i < Z.of_nat (length l) → py_setitem l i v = Some (<[Z.to_nat i := v]> l).
Proof.
  intros Hi. unfold py_setitem. cbv zeta. rewrite (bool_decide_false (i < 0)) by lia.
  by rewrite bool_decide_true by lia.
Qed.

Lemma py_setitem_spec l i v :
  (py_setitem l i v = None ↔ ¬ (- Z.of_nat (length l) ≤ i < Z.of_nat (length l))) ∧
  (∀ l', py_setitem l i v = Some l' →
     l' = <[Z.to_nat (i mod Z.of_nat (length l)) := v]> l ∧
     0 ≤ i mod Z.of_nat (length l) < Z.of_nat (length l)).
Proof.
  unfold py_setitem. cbv zeta. set (n := Z.of_nat (length l)).
  destruct (decide (i < 0)) as [Hneg|Hpos].
  - rewrite (bool_decide_true (i < 0)) by done. case_bool_decide as Hr.
    + assert (i mod n = i + n) as ->.
      { rewrite <- (Z_mod_plus_full i 1 n), Z.mul_1_l. apply Z.mod_small. lia. }
      split; [split; [done|intros ?; exfalso; lia]|].
      intros l' [= <-]. split; [done|lia].
    + split; [split; [intros _; lia|done]|]. done.
  - rewrite (bool_decide_false (i < 0)) by done. case_bool_decide as Hr.
    + rewrite Z.mod_small by lia.
      split; [split; [done|intros ?; exfalso; lia]|].
      intros l' [= <-]. split; [done|lia].
    + split; [split; [intros _; lia|done]|]. done.
Qed.

Lemma range_sum_single e a l j x :
  objects e !! a = Some l → l !! Z.to_nat j = Some x → 0 ≤ j →
  range_sum_no_cache a j j e = Some x.
Proof.
  intros Hl Hx Hj. unfold range_sum_no_cache. rewrite Hl. simpl. f_equal.
  rewrite py_slice_nonneg by lia. rewrite (drop_S _ _ _ Hx).
  replace (Z.to_nat (j + 1) - Z.to_nat j)%nat with 1%nat by lia.
  cbn [take]. rewrite take_0, py_sum_cons, py_sum_nil. lia.
Qed.

Lemma update_no_cache_spec e a l i v :
  objects e !! a = Some l →
  (update_no_cache a i v e = None
     ↔ ¬ (- Z.of_nat (length l) ≤ i < Z.of_nat (length l))) ∧
  (∀ e', update_no_cache a i v e = Some e' →
     objects e' = <[a := <[Z.to_nat (i mod Z.of_nat (length l)) := v]> l]> (objects e) ∧
     global_array e' = global_array e ∧ cache e' = cache e ∧
     range_sum_no_cache a (i mod Z.of_nat (length l)) (i mod Z.of_nat (length l)) e'
     = Some v).
Proof.
  intros Hl. destruct (py_setitem_spec l i v) as [Hnone Hsome].
  unfold update_no_cache. rewrite Hl. simpl.
  destruct (py_setitem l i v) as [l'|] eqn:E; simpl.
  - split; [split; [done|by intros ?%Hnone]|].
    intros e' [= <-]. destruct (Hsome l' eq_refl) as [-> Hr]. simpl.
    split_and!; [done..|].
    eapply range_sum_single; [apply lookup_insert_eq| |lia].
    apply list_lookup_insert_eq. lia.
  - split; [split; [by intros _; apply Hnone|done]|done].
Qed.

Lemma update_shifts e e' a l i v old L R :
  objects e !! a = Some l → l !! Z.to_nat i = Some old → 0 ≤ i → 0 ≤ L → -1 ≤ R →
  update_no_cache a i v e = Some e' →
  ∃ x, range_sum_no_cache a L R e = Some x ∧
    range_sum_no_cache a L R e'
    = Some (if bool_decide (L ≤ i ≤ R) then x + (v - old) else x).
Proof.
  intros Hl Hold Hi HL HR Hup.
  pose proof (lookup_lt_Some _ _ _ Hold) as Hlen.
  unfold update_no_cache in Hup. rewrite Hl in Hup. simpl in Hup.
  rewrite py_setitem_in_range in Hup by lia. injection Hup as <-.
  unfold range_sum_no_cache. simpl. rewrite lookup_insert_eq, Hl. simpl.
  eexists. split; [done|]. f_equal. rewrite !py_slice_nonneg by lia.
  set (a' := Z.to_nat L). set (b' := Z.to_nat (R + 1)). set (j := Z.to_nat i) in *.
  case_bool_decide as Hin.
  - rewrite drop_insert_ge by lia. rewrite take_insert_lt by lia.
    apply py_sum_insert. rewrite lookup_take_lt by lia. rewrite lookup_drop.
    by replace (a' + (j - a'))%nat with j by lia.
  - destruct (decide (j < a')%nat).
    + by rewrite drop_insert_lt by lia.
    + rewrite drop_insert_ge by lia. by rewrite take_insert_ge by lia.
Qed.
End Slices.

Section CacheUse.
Implicit Types (e : Env).

Lemma update_then_cached_sum e e' a i v L R :
  global_array e = Some a → update_with_cache a i v e = Some e' →
  ∃ x, range_sum_no_cache a L R e' = Some x ∧
    range_sum_with_cache a L R e'
    = Some (x, mkEnv (objects e') (global_array e') [((a, L, R), x)]).
Proof.
  intros Hg Hup. unfold update_with_cache in Hup.
  destruct (objects e !! a) as [l|]; simpl in Hup; [|done].
  destruct (py_setitem l i v) as [l'|]; simpl in Hup; [|done].
  injection Hup as <-.
  unfold range_sum_no_cache, range_sum_with_cache, _cached_sum, _cached_sum_body.
  simpl. rewrite Hg. simpl. rewrite lookup_insert_eq. simpl. eauto.
Qed.

Lemma cached_after_call e e1 a L R x :
  range_sum_with_cache a L R e = Some (x, e1) →
  cache_find (a, L, R) (cache e1) = Some x ∧
  objects e1 = objects e ∧ global_array e1 = global_array e.
Proof.
  unfold range_sum_with_cache, _cached_sum.
  destruct (cache_find (a, L, R) (cache e)) as [v|] eqn:Hfind.
  - intros [= <- <-]. simpl. by rewrite decide_True by done.
  - destruct (_cached_sum_body a L R e) as [v|]; simpl; [|done].
    intros [= <- <-]. cbn [cache objects global_array cache_find].
    by rewrite decide_True by done.
Qed.

Lemma stale_after_update_no_cache e e1 e2 a b L R x i v :
  range_sum_with_cache a L R e = Some (x, e1) →
  update_no_cache b i v e1 = Some e2 →
  ∃ e3, range_sum_with_cache a L R e2 = Some (x, e3) ∧ objects e3 = objects e2.
Proof.
  intros H1 H2. destruct (cached_after_call _ _ _ _ _ _ H1) as (Hfind & _ & _).
  unfold update_no_cache in H2.
  destruct (objects e1 !! b) as [l|]; simpl in H2; [|done].
  destruct (py_setitem l i v) as [l'|]; simpl in H2; [|done].
  injection H2 as <-.
  unfold range_sum_with_cache, _cached_sum. simpl. rewrite Hfind. eauto.
Qed.

(** A call of [range_sum_with_cache] returns while the global name is
    bound to a list, changes the cache only, and keeps it coherent. *)
Lemma cached_sum_keeps e a g gl L R :
  global_array e = Some g → objects e !! g = Some gl →
  ∃ x c, range_sum_with_cache a L R e
         = Some (x, mkEnv (objects e) (global_array e) c) ∧
    (cache_coherent e → cache_coherent (mkEnv (objects e) (global_array e) c)).
Proof.
  intros Hg Hgl. unfold range_sum_with_cache, _cached_sum.
  destruct (cache_find (a, L, R) (cache e)) as [v|] eqn:Hfind.
  - do 2 eexists. split; [done|]. intros Hcoh a' L' R' v'.
    rewrite (cached_sum_body_env _ a' _ _ e) by done. simpl.
    destruct (decide ((a, L, R) = (a', L', R'))) as [[= <- <- <-]|Hne].
    + intros [= <-]. by apply Hcoh.
    + rewrite cache_find_filter_ne by done. apply Hcoh.
  - unfold _cached_sum_body at 1. rewrite Hg. simpl. rewrite Hgl. simpl.
    do 2 eexists. split; [done|]. intros Hcoh a' L' R' v'.
    rewrite (cached_sum_body_env _ a' _ _ e) by done. simpl.
    destruct (decide ((a, L, R) = (a', L', R'))) as [[= <- <- <-]|Hne].
    + intros [= <-]. unfold _cached_sum_body. rewrite Hg. simpl. by rewrite Hgl.
    + intros Hf. apply Hcoh. by apply cache_find_take in Hf.
Qed.
End CacheUse.

Section Loops.
Implicit Types (e : Env) (l : list Z) (qs : list Query) (q : Query).

Lemma write_generated l q :
  generated (Z.of_nat (length l)) q →
  write q l = match q with
              | QRange _ _ => l
              | QUpdate i v => <[Z.to_nat i := v]> l
              end.
Proof.
  destruct q as [L R|i v]; [done|]. intros [Hi _]. unfold write.
  by rewrite py_setitem_in_range by done.
Qed.

Lemma write_length l q : length (write q l) = length l.
Proof.
  destruct q as [L R|i v]; [done|]. unfold write.
  destruct (py_setitem l i v) as [l'|] eqn:E; [|done].
  destruct (py_setitem_spec l i v) as [_ H]. destruct (H _ E) as [-> _].
  apply length_insert.
Qed.

Lemma apply_updates_length qs l : length (apply_updates qs l) = length l.
Proof.
  revert l. induction qs as [|q qs IH]; intros l; [done|].
  unfold apply_updates. cbn [foldl]. fold (apply_updates qs (write q l)).
  by rewrite IH, write_length.
Qed.

Lemma apply_updates_snoc qs q l :
  apply_updates (qs ++ [q]) l = write q (apply_updates qs l).
Proof. unfold apply_updates. by rewrite foldl_app. Qed.

Lemma apply_updates_bounds qs l (lo hi : Z) :
  Forall (generated (Z.of_nat (length l))) qs →
  (∀ q, generated (Z.of_nat (length l)) q →
     match q with QRange _ _ => True | QUpdate _ v => lo ≤ v ≤ hi end) →
  Forall (λ x, lo ≤ x ≤ hi) l → Forall (λ x, lo ≤ x ≤ hi) (apply_updates qs l).
Proof.
  intros Hqs Hq. revert l Hqs Hq. induction qs as [|q qs IH]; intros l Hqs Hq Hl; [done|].
  apply Forall_cons in Hqs as [Hgen Hqs].
  unfold apply_updates. cbn [foldl]. fold (apply_updates qs (write q l)).
  apply IH; rewrite ?write_length; [done..|].
  rewrite write_generated by done. specialize (Hq _ Hgen).
  destruct q as [L R|i v]; [done|]. by apply Forall_insert.
Qed.

(** A write absorbs an earlier write at the same index, whatever was
    written in between. *)
Lemma write_absorbs qs l (j : nat) v :
  Forall (generated (Z.of_nat (length l))) qs →
  <[j := v]> (apply_updates qs (<[j := v]> l)) = <[j := v]> (apply_updates qs l).
Proof.
  revert l. induction qs as [|q qs IH]; intros l Hqs.
  - apply list_insert_insert_eq.
  - apply Forall_cons in Hqs as [Hgen Hqs].
    unfold apply_updates. cbn [foldl].
    fold (apply_updates qs (write q (<[j := v]> l))).
    fold (apply_updates qs (write q l)).
    rewrite (write_generated (<[j := v]> l)) by (by rewrite length_insert).
    rewrite (write_generated l) by done.
    destruct q as [L R|i w].
    + by apply IH.
    + destruct (decide (Z.to_nat i = j)) as [<-|Hne].
      * by rewrite list_insert_insert_eq.
      * rewrite list_insert_insert_ne by done. apply IH.
        by rewrite length_insert.
Qed.

(** Running the same queries a second time changes nothing. *)
Lemma apply_updates_twice qs l :
  Forall (generated (Z.of_nat (length l))) qs →
  apply_updates qs (apply_updates qs l) = apply_updates qs l.
Proof.
  induction qs as [|q qs IH] using rev_ind; intros Hqs; [done|].
  apply Forall_app in Hqs as [Hqs Hq]. rewrite Forall_singleton in Hq.
  rewrite !apply_updates_snoc.
  rewrite (write_generated (apply_updates qs l)) by (by rewrite apply_updates_length).
  destruct q as [L R|i v].
  - rewrite write_generated by (by rewrite !apply_updates_length). by apply IH.
  - rewrite write_generated
      by (by rewrite apply_updates_length, length_insert, apply_updates_length).
    rewrite write_absorbs by (by rewrite apply_updates_length).
    by rewrite IH.
Qed.

Lemma main_loop_no_cache_spec g qs :
  ∀ e l, global_array e = Some g → objects e !! g = Some l →
    Forall (generated (Z.of_nat (length l))) qs →
    main_loop_no_cache qs e
    = Some (mkEnv (<[g := apply_updates qs l]> (objects e)) (Some g) (cache e)).
Proof.
  induction qs as [|q qs IH]; intros e l Hg Hl Hqs.
  - destruct e as [o ga c]. simpl in *. subst ga. by rewrite insert_id.
  - apply Forall_cons in Hqs as [Hgen Hqs].
    unfold apply_updates. cbn [foldl]. fold (apply_updates qs (write q l)).
    destruct q as [L R|i v]; cbn [main_loop_no_cache]; rewrite Hg; simpl.
    + unfold range_sum_no_cache. rewrite Hl. simpl. by apply IH.
    + destruct Hgen as [Hi _]. unfold update_no_cache. rewrite Hl. simpl.
      rewrite py_setitem_in_range by done. simpl.
      rewrite (IH _ (<[Z.to_nat i := v]> l)); simpl;
        [|done|apply lookup_insert_eq|by rewrite length_insert].
      by rewrite insert_insert_eq.
Qed.

Lemma main_loop_with_cache_spec g qs :
  ∀ e l, global_array e = Some g → objects e !! g = Some l →
    Forall (generated (Z.of_nat (length l))) qs →
    ∃ c, main_loop_with_cache qs e
         = Some (mkEnv (<[g := apply_updates qs l]> (objects e)) (Some g) c) ∧
      (cache_coherent e →
         cache_coherent (mkEnv (<[g := apply_updates qs l]> (objects e)) (Some g) c)).
Proof.
  induction qs as [|q qs IH]; intros e l Hg Hl Hqs.
  - exists (cache e). destruct e as [o ga c]. simpl in *. subst ga.
    by rewrite insert_id.
  - apply Forall_cons in Hqs as [Hgen Hqs].
    unfold apply_updates. cbn [foldl]. fold (apply_updates qs (write q l)).
    destruct q as [L R|i v]; cbn [main_loop_with_cache]; rewrite Hg; simpl.
    + destruct (cached_sum_keeps e g g l L R Hg Hl) as (x & c & -> & Hcoh). simpl.
      destruct (IH (mkEnv (objects e) (global_array e) c) l Hg Hl Hqs)
        as (c' & -> & Hcoh').
      exists c'. split; [done|]. intros H. apply Hcoh', Hcoh, H.
    + destruct Hgen as [Hi _]. unfold update_with_cache. rewrite Hl. simpl.
      rewrite py_setitem_in_range by done. simpl.
      destruct (IH (mkEnv (<[g := <[Z.to_nat i := v]> l]> (objects e)) (global_array e) [])
                  (<[Z.to_nat i := v]> l)) as (c' & -> & Hcoh');
        [done|apply lookup_insert_eq|by rewrite length_insert|].
      simpl in *. rewrite insert_insert_eq in *.
      exists c'. split; [done|]. intros _. apply Hcoh'. apply empty_cache_coherent.
Qed.

Lemma main_loops_spec e g l qs :
  global_array e = Some g → objects e !! g = Some l → cache e = [] →
  Forall (generated (Z.of_nat (length l))) qs →
  ∃ e1 e2 l1,
    main_loop_no_cache qs e = Some e1 ∧ main_loop_with_cache qs e1 = Some e2 ∧
    objects e1 !! g = Some l1 ∧ length l1 = length l ∧
    (Forall (λ x, 1 ≤ x ≤ 100) l → Forall (λ x, 1 ≤ x ≤ 100) l1) ∧
    objects e2 = objects e1 ∧ cache_coherent e2.
Proof.
  intros Hg Hl Hc Hqs.
  rewrite (main_loop_no_cache_spec g qs e l Hg Hl Hqs).
  set (e1 := mkEnv _ _ _).
  destruct (main_loop_with_cache_spec g qs e1 (apply_updates qs l))
    as (c & E2 & Hcoh); [done|apply lookup_insert_eq|by rewrite apply_updates_length|].
  rewrite apply_updates_twice in E2, Hcoh by done.
  unfold e1 in E2, Hcoh. simpl in E2, Hcoh. rewrite insert_insert_eq in E2, Hcoh.
  do 3 eexists. split; [done|]. split; [exact E2|]. simpl.
  split; [apply lookup_insert_eq|]. split; [apply apply_updates_length|].
  split; [|split; [done|]].
  - apply apply_updates_bounds; [done|]. by intros [L R|i v]; [|intros [_ ?]].
  - apply Hcoh. rewrite Hc. apply empty_cache_coherent.
Qed.
End Loops.

(** X12. A range sum splits at any index of the range: for
    [0 <= L <= M <= R], [range_sum_no_cache(array, L, R)] is the sum of
    [range_sum_no_cache(array, L, M)] and
    [range_sum_no_cache(array, M + 1, R)], whatever the length of the
    list. *)
Theorem range_sum_splits (e : Env) (a : positive) (L M R : Z) :
  0 ≤ L ≤ M → M ≤ R →
  range_sum_no_cache a L R e
  = (x ← range_sum_no_cache a L M e;
     y ← range_sum_no_cache a (M + 1) R e;
     Some (x + y)).
Proof.
  intros HL HM. unfold range_sum_no_cache.
  destruct (objects e !! a) as [l|]; simpl; [|done].
  by rewrite (py_slice_split l L M R), py_sum_app.
Qed.

Lemma range_sum_splits_witness :
  0 ≤ 0 ≤ 1 ∧ 1 ≤ 5 ∧
  range_sum_no_cache 2%positive 0 5 two_lists
  = (x ← range_sum_no_cache 2%positive 0 1 two_lists;
     y ← range_sum_no_cache 2%positive (1 + 1) 5 two_lists;
     Some (x + y)).
Proof. split; [lia|]. split; [lia|]. apply range_sum_splits; lia. Defined.

(** X13. With both indices inside the list, [0 <= L <= R < len(array)],
    [range_sum_no_cache(array, L, R)] returns
    [array[L] + ... + array[R]], both ends included. *)
Theorem range_sum_no_cache_in_range (e : Env) (a : positive) (l : list Z) (L R : Z) :
  objects e !! a = Some l → 0 ≤ L → L ≤ R → R < Z.of_nat (length l) →
  range_sum_no_cache a L R e = Some (sum_between l L R).
Proof. apply range_sum_in_range. Qed.

Lemma range_sum_no_cache_in_range_witness :
  objects two_lists !! 2%positive = Some [10; 20; 30] ∧ 0 ≤ 1 ∧ 1 ≤ 2 ∧
  2 < Z.of_nat (length [10; 20; 30]) ∧
  range_sum_no_cache 2%positive 1 2 two_lists = Some (sum_between [10; 20; 30] 1 2).
Proof.
  split; [vm_compute; reflexivity|]. split; [lia|]. split; [lia|].
  split; [simpl; lia|].
  apply range_sum_no_cache_in_range; [vm_compute; reflexivity|lia|lia|simpl; lia].
Defined.

(** X14. Indices outside the list raise nothing in
    [range_sum_no_cache(array, L, R)] with [L >= 0]: an empty range
    ([-1 <= R < L]) sums to 0, an [R] at or past the last index is read as
    the last index, and an [L] past the end sums to 0. *)
Theorem range_sum_no_cache_out_of_range (e : Env) (a : positive) (l : list Z) (L R : Z) :
  objects e !! a = Some l → 0 ≤ L →
  (-1 ≤ R < L → range_sum_no_cache a L R e = Some 0) ∧
  (Z.of_nat (length l) - 1 ≤ R →
     range_sum_no_cache a L R e = range_sum_no_cache a L (Z.of_nat (length l) - 1) e) ∧
  (Z.of_nat (length l) ≤ L → -1 ≤ R → range_sum_no_cache a L R e = Some 0).
Proof. apply range_sum_edges. Qed.

Lemma range_sum_no_cache_out_of_range_witness :
  objects two_lists !! 2%positive = Some [10; 20; 30] ∧ 0 ≤ 1 ∧
  (-1 ≤ 7 < 1 → range_sum_no_cache 2%positive 1 7 two_lists = Some 0) ∧
  (Z.of_nat (length [10; 20; 30]) - 1 ≤ 7 →
     range_sum_no_cache 2%positive 1 7 two_lists
     = range_sum_no_cache 2%positive 1 (Z.of_nat (length [10; 20; 30]) - 1) two_lists) ∧
  (Z.of_nat (length [10; 20; 30]) ≤ 1 → -1 ≤ 7 →
     range_sum_no_cache 2%positive 1 7 two_lists = Some 0).
Proof.
  split; [vm_compute; reflexivity|]. split; [lia|].
  apply range_sum_no_cache_out_of_range; [vm_compute; reflexivity|lia].
Defined.

(** X15. [update_no_cache(array, index, value)] raises exactly when
    [index] is outside [-len(array) .. len(array) - 1]; otherwise it writes
    [value] at position [index mod len(array)] of that list (a negative
    index counts from the end), leaves the other lists, the global name
    and the cache alone, and the range sum over that single position is
    then [value]. *)
Theorem update_no_cache_effect (e : Env) (a : positive) (l : list Z) (i v : Z) :
  objects e !! a = Some l →
  (update_no_cache a i v e = None
     ↔ ¬ (- Z.of_nat (length l) ≤ i < Z.of_nat (length l))) ∧
  (∀ e', update_no_cache a i v e = Some e' →
     objects e' = <[a := <[Z.to_nat (i mod Z.of_nat (length l)) := v]> l]> (objects e) ∧
     global_array e' = global_array e ∧ cache e' = cache e ∧
     range_sum_no_cache a (i mod Z.of_nat (length l)) (i mod Z.of_nat (length l)) e'
     = Some v).
Proof. apply update_no_cache_spec. Qed.

Lemma update_no_cache_effect_witness :
  objects two_lists !! 1%positive = Some [1; 2; 3] ∧
  (update_no_cache 1%positive (-1) 9 two_lists = None
     ↔ ¬ (- Z.of_nat (length [1; 2; 3]) ≤ -1 < Z.of_nat (length [1; 2; 3]))) ∧
  (∀ e', update_no_cache 1%positive (-1) 9 two_lists = Some e' →
     objects e'
     = <[1%positive := <[Z.to_nat (-1 mod Z.of_nat (length [1; 2; 3])) := 9]> [1; 2; 3]]>
         (objects two_lists) ∧
     global_array e' = global_array two_lists ∧ cache e' = cache two_lists ∧
     range_sum_no_cache 1%positive (-1 mod Z.of_nat (length [1; 2; 3]))
       (-1 mod Z.of_nat (length [1; 2; 3])) e'
     = Some 9).
Proof.
  split; [vm_compute; reflexivity|].
  apply update_no_cache_effect. vm_compute; reflexivity.
Defined.

(** X16. Writing [value] over [old] at an index [i >= 0] of the list moves
    every range sum with [L >= 0] and [R >= -1] by [value - old] when
    [L <= i <= R], and leaves it as it was otherwise. *)
Theorem update_shifts_range_sum (e e' : Env) (a : positive) (l : list Z)
    (i v old L R : Z) :
  objects e !! a = Some l → l !! Z.to_nat i = Some old → 0 ≤ i → 0 ≤ L → -1 ≤ R →
  update_no_cache a i v e = Some e' →
  ∃ x, range_sum_no_cache a L R e = Some x ∧
    range_sum_no_cache a L R e'
    = Some (if bool_decide (L ≤ i ≤ R) then x + (v - old) else x).
Proof. apply update_shifts. Qed.

Lemma update_shifts_range_sum_witness :
  objects two_lists !! 2%positive = Some [10; 20; 30] ∧
  [10; 20; 30] !! Z.to_nat 1 = Some 20 ∧ 0 ≤ 1 ∧ 0 ≤ 0 ∧ -1 ≤ 1 ∧
  update_no_cache 2%positive 1 5 two_lists
  = Some (mkEnv (<[2%positive := [10; 5; 30]]> (objects two_lists))
                (global_array two_lists) (cache two_lists)) ∧
  ∃ x, range_sum_no_cache 2%positive 0 1 two_lists = Some x ∧
    range_sum_no_cache 2%positive 0 1
      (mkEnv (<[2%positive := [10; 5; 30]]> (objects two_lists))
             (global_array two_lists) (cache two_lists))
    = Some (if bool_decide (0 ≤ 1 ≤ 1) then x + (5 - 20) else x).
Proof.
  split; [vm_compute; reflexivity|]. split; [reflexivity|].
  split; [lia|]. split; [lia|]. split; [lia|]. split; [reflexivity|].
  apply (update_shifts_range_sum two_lists
           (mkEnv (<[2%positive := [10; 5; 30]]> (objects two_lists))
                  (global_array two_lists) (cache two_lists))
           2%positive [10; 20; 30] 1 5 20 0 1);
    [vm_compute; reflexivity|reflexivity|lia|lia|lia|reflexivity].
Defined.

(** X17. After [update_with_cache(array, index, value)] on the global
    list, [range_sum_with_cache(array, L, R)] returns what
    [range_sum_no_cache(array, L, R)] returns on the updated list, whatever
    the cache held before the update, and the cache then holds that one
    result. *)
Theorem update_with_cache_then_range_sum (e e' : Env) (a : positive) (i v L R : Z) :
  global_array e = Some a → update_with_cache a i v e = Some e' →
  ∃ x, range_sum_no_cache a L R e' = Some x ∧
    range_sum_with_cache a L R e'
    = Some (x, mkEnv (objects e') (global_array e') [((a, L, R), x)]).
Proof. apply update_then_cached_sum. Qed.

Lemma update_with_cache_then_range_sum_witness :
  global_array two_lists = Some 1%positive ∧
  update_with_cache 1%positive 0 100 two_lists
  = Some (mkEnv (<[1%positive := [100; 2; 3]]> (objects two_lists)) (Some 1%positive) []) ∧
  ∃ x, range_sum_no_cache 1%positive 0 1
         (mkEnv (<[1%positive := [100; 2; 3]]> (objects two_lists)) (Some 1%positive) [])
       = Some x ∧
    range_sum_with_cache 1%positive 0 1
      (mkEnv (<[1%positive := [100; 2; 3]]> (objects two_lists)) (Some 1%positive) [])
    = Some (x, mkEnv (<[1%positive := [100; 2; 3]]> (objects two_lists))
                     (Some 1%positive) [((1%positive, 0, 1), x)]).
Proof.
  split; [reflexivity|]. split; [reflexivity|].
  exact (update_with_cache_then_range_sum two_lists
           (mkEnv (<[1%positive := [100; 2; 3]]> (objects two_lists)) (Some 1%positive) [])
           1%positive 0 100 0 1 eq_refl eq_refl).
Defined.

(** X18. [update_no_cache] does not clear the cache: once
    [range_sum_with_cache(array, L, R)] has returned [x], the same call
    after an [update_no_cache] on any list returns [x] again, whether or
    not the sum has changed. *)
Theorem update_no_cache_keeps_cached_result (e e1 e2 : Env) (a b : positive)
    (L R x i v : Z) :
  range_sum_with_cache a L R e = Some (x, e1) →
  update_no_cache b i v e1 = Some e2 →
  ∃ e3, range_sum_with_cache a L R e2 = Some (x, e3) ∧ objects e3 = objects e2.
Proof. apply stale_after_update_no_cache. Qed.

Lemma update_no_cache_keeps_cached_result_witness :
  range_sum_with_cache 1%positive 0 1 two_lists
  = Some (3, mkEnv (objects two_lists) (Some 1%positive) [((1%positive, 0, 1), 3)]) ∧
  update_no_cache 1%positive 0 100
    (mkEnv (objects two_lists) (Some 1%positive) [((1%positive, 0, 1), 3)])
  = Some (mkEnv (<[1%positive := [100; 2; 3]]> (objects two_lists)) (Some 1%positive)
                [((1%positive, 0, 1), 3)]) ∧
  ∃ e3, range_sum_with_cache 1%positive 0 1
          (mkEnv (<[1%positive := [100; 2; 3]]> (objects two_lists)) (Some 1%positive)
                 [((1%positive, 0, 1), 3)])
        = Some (3, e3) ∧
    objects e3 = <[1%positive := [100; 2; 3]]> (objects two_lists).
Proof.
  split; [reflexivity|]. split; [reflexivity|].
  exact (update_no_cache_keeps_cached_result two_lists
           (mkEnv (objects two_lists) (Some 1%positive) [((1%positive, 0, 1), 3)])
           (mkEnv (<[1%positive := [100; 2; 3]]> (objects two_lists)) (Some 1%positive)
                  [((1%positive, 0, 1), 3)])
           1%positive 1%positive 0 1 3 0 100 eq_refl eq_refl).
Defined.

(** X19. The two query loops of the main block, run one after the other on
    the global list with an empty cache and queries as the block
    generates them (indices inside the list, [L <= R], values from 1 to
    100): neither loop raises; the list keeps its length, and its elements
    stay between 1 and 100 if they were; the second loop leaves every list
    as the first loop left it, and ends with a cache whose results are the
    sums of the final list. *)
Theorem main_loops_complete (e : Env) (g : positive) (l : list Z) (qs : list Query) :
  global_array e = Some g → objects e !! g = Some l → cache e = [] →
  Forall (generated (Z.of_nat (length l))) qs →
  ∃ e1 e2 l1,
    main_loop_no_cache qs e = Some e1 ∧ main_loop_with_cache qs e1 = Some e2 ∧
    objects e1 !! g = Some l1 ∧ length l1 = length l ∧
    (Forall (λ x, 1 ≤ x ≤ 100) l → Forall (λ x, 1 ≤ x ≤ 100) l1) ∧
    objects e2 = objects e1 ∧ cache_coherent e2.
Proof. apply main_loops_spec. Qed.

Lemma main_loops_complete_witness :
  global_array two_lists = Some 1%positive ∧
  objects two_lists !! 1%positive = Some [1; 2; 3] ∧ cache two_lists = [] ∧
  Forall (generated (Z.of_nat (length [1; 2; 3])))
    [QRange 0 2; QUpdate 1 50; QRange 1 2; QUpdate 0 7; QRange 0 2; QUpdate 1 9] ∧
  ∃ e1 e2 l1,
    main_loop_no_cache
      [QRange 0 2; QUpdate 1 50; QRange 1 2; QUpdate 0 7; QRange 0 2; QUpdate 1 9]
      two_lists = Some e1 ∧
    main_loop_with_cache
      [QRange 0 2; QUpdate 1 50; QRange 1 2; QUpdate 0 7; QRange 0 2; QUpdate 1 9]
      e1 = Some e2 ∧
    objects e1 !! 1%positive = Some l1 ∧ length l1 = length [1; 2; 3] ∧
    (Forall (λ x, 1 ≤ x ≤ 100) [1; 2; 3] → Forall (λ x, 1 ≤ x ≤ 100) l1) ∧
    objects e2 = objects e1 ∧ cache_coherent e2.
Proof.
  split; [reflexivity|]. split; [vm_compute; reflexivity|]. split; [reflexivity|].
  split; [ground|].
  apply main_loops_complete; [reflexivity|vm_compute; reflexivity|reflexivity|ground].
Defined.

(** * The last node a failed search visits *)

Section Last.
Implicit Types (t a b c : tree) (fs : path) (x y : loc) (pp o : option loc).

Lemma between_InL k x kx v r fs :
  between k (InL x kx v r :: fs) → k < kx ∧ between k fs.
Proof.
  intros [Hbef Haft]. cbn [before after] in *.
  apply Forall_cons in Haft as [Hk Haft]. apply Forall_app in Haft as [_ Haft].
  done.
Qed.

Lemma between_InR k l x kx v fs :
  between k (InR l x kx v :: fs) → kx < k ∧ between k fs.
Proof.
  intros [Hbef Haft]. cbn [before after] in *.
  rewrite !Forall_app in Hbef. destruct Hbef as (Hbef & _ & Hk).
  apply Forall_cons in Hk as [Hk _]. done.
Qed.

(** The node in the hole of a path the key lies on is visited. *)
Lemma path_visited s k fs :
  ∀ pp x, is_path (heap s) (root s) fs pp (Some x) → between k fs → visited s k x.
Proof.
  induction fs as [|[p kp vp r|l p kp vp] fs IH]; intros pp x Hp Hb.
  - destruct Hp as [Hr _]. by apply visited_root.
  - destruct Hp as (_ & ro & gp & Hn & _ & Hfs).
    apply between_InL in Hb as [Hk Hb].
    eapply visited_left; [by eapply IH|exact Hn|done|done].
  - destruct Hp as (_ & lo & gp & Hn & _ & Hfs).
    apply between_InR in Hb as [Hk Hb].
    eapply visited_right; [by eapply IH|exact Hn|done|done].
Qed.

Lemma search_miss_last fuel s t k :
  rep s t [] None (root s) → bst t → k ∉ keys t → t ≠ Leaf →
  (size (heap s) ≤ fuel)%nat →
  ∃ s' last nl,
    descend fuel k (root s) None s = Ok (Missed (Some last)) s ∧
    _splay fuel last s = Ok tt s' ∧
    search fuel k s = Ok None s' ∧
    root s' = Some last ∧ root_key s' = Some (key nl) ∧
    visited s k last ∧ heap s !! last = Some nl ∧
    (k < key nl → left nl = None) ∧ (key nl < k → right nl = None) ∧
    key nl ≠ k.
Proof.
  intros H Hb Hk Hne Hf.
  destruct (descend_missed _ _ _ _ H Hb Hk Hf) as (fs0 & E & H' & Ep & Hbt & Hnil).
  destruct fs0 as [|f fs]; [by destruct (Hnil Hne)|].
  change (hole_parent (f :: fs)) with (Some (frame_loc f)) in *.
  pose proof (rep_up _ _ _ _ _ _ H') as Hup.
  pose proof H' as [_ Hp _ _].
  destruct f as [p kp vp c|c p kp vp]; simpl in Hup.
  - destruct (splay_spec fuel _ _ _ _ _ _ _ _ _ Hup) as (s' & a' & b' & E' & H'' & _).
    { pose proof (rep_path_length _ _ _ _ _ H'). simpl in *. lia. }
    apply rep_nil_root in H''. destruct (rep_root_key _ _ _ _ _ _ H'') as [Hr Hrk].
    destruct Hp as (_ & ro & gp & Hn & _ & Hfs).
    apply between_InL in Hbt as [Hlt Hbt].
    exists s', p, (mkNode kp vp None ro gp). cbn [frame_loc key left right].
    split_and!; try done.
    + unfold search. rewrite get_root_bind, (bind_Ok _ _ _ _ _ E). cbn beta iota.
      by rewrite (bind_Ok _ _ _ _ _ E').
    + by eapply path_visited.
    + lia.
    + lia.
  - destruct (splay_spec fuel _ _ _ _ _ _ _ _ _ Hup) as (s' & a' & b' & E' & H'' & _).
    { pose proof (rep_path_length _ _ _ _ _ H'). simpl in *. lia. }
    apply rep_nil_root in H''. destruct (rep_root_key _ _ _ _ _ _ H'') as [Hr Hrk].
    destruct Hp as (_ & lo & gp & Hn & _ & Hfs).
    apply between_InR in Hbt as [Hlt Hbt].
    exists s', p, (mkNode kp vp lo None gp). cbn [frame_loc key left right].
    split_and!; try done.
    + unfold search. rewrite get_root_bind, (bind_Ok _ _ _ _ _ E). cbn beta iota.
      by rewrite (bind_Ok _ _ _ _ _ E').
    + by eapply path_visited.
    + lia.
    + lia.
Qed.
End Last.

(** C4. For every well-formed state and every key absent from the tree,
    [search] returns normally with the result [None] (no exception), keeps
    the state well formed and creates no node.  On a non-empty tree the
    node splayed to the root is the last node visited by the failed
    descent: it is reached from the root by going left where the key is
    smaller and right where it is larger, it has no child on the side of
    the key, and its key is the neighbour of the searched key among the
    keys of the tree.  On the empty tree nothing changes. *)
Theorem search_absent (fuel : nat) (s : SplayTree) (k : Z) :
  wf s → k ∉ inorder_keys s → (size (heap s) ≤ fuel)%nat →
  ∃ s', search fuel k s = Ok None s' ∧
    (root s ≠ None →
       ∃ last nl,
         descend fuel k (root s) None s = Ok (Missed (Some last)) s ∧
         _splay fuel last s = Ok tt s' ∧ root s' = Some last ∧
         visited s k last ∧ heap s !! last = Some nl ∧
         (k < key nl → left nl = None) ∧ (key nl < k → right nl = None) ∧
         root_key s' = Some (key nl) ∧ key nl ∈ inorder_keys s ∧
         ((key nl < k ∧ ∀ j, j ∈ inorder_keys s → j < k → j ≤ key nl) ∨
          (k < key nl ∧ ∀ j, j ∈ inorder_keys s → k < j → key nl ≤ j))) ∧
    (root s = None → s' = s ∧ heap s' = ∅) ∧
    contents s' = contents s ∧ wf s' ∧ dom (heap s') = dom (heap s).
Proof.
  intros Hwf Hk Hf. pose proof Hwf as (t & H & Hb)%wf_rep.
  destruct (search_correct fuel s k Hwf Hf)
    as (r & s' & E & Hwf' & Hc & Hd & [(Hk' & _)|(_ & -> & Hm)]); [done|].
  exists s'. split_and!; [done| | |done..].
  - intros Hr. rewrite (rep_inorder_keys _ _ H) in *.
    assert (t ≠ Leaf) as Hne.
    { intros ->. destruct H as [Ht _ _ _]. simpl in Ht. done. }
    destruct (search_miss_last fuel s t k H Hb Hk Hne Hf)
      as (s1 & last & nl & Ed & Es & E1 & Hr1 & Hrk1 & Hv & Hn & Hl & Hrt & Hkn).
    rewrite E in E1. apply Ok_inj in E1 as [_ <-].
    destruct (search_miss_neighbour fuel s t k H Hb Hk Hne Hf)
      as (s2 & k' & E2 & Hrk2 & Hin & Hnb).
    rewrite E in E2. apply Ok_inj in E2 as [_ <-].
    rewrite Hrk1 in Hrk2. injection Hrk2 as <-.
    exists last, nl. split_and!; done.
  - intros Hr. rewrite Hr in Hm. subst s'. split; [done|].
    apply (rep_root_None _ _ H) in Hr. subst t.
    apply map_size_empty_iff. by rewrite (rep_size _ _ _ _ _ H).
Qed.

Lemma search_absent_witness :
  wf seeded ∧ (-5 ∉ inorder_keys seeded) ∧ (size (heap seeded) ≤ 2)%nat ∧
  ∃ s', search 2 (-5) seeded = Ok None s' ∧
    (root seeded ≠ None →
       ∃ last nl,
         descend 2 (-5) (root seeded) None seeded = Ok (Missed (Some last)) seeded ∧
         _splay 2 last seeded = Ok tt s' ∧ root s' = Some last ∧
         visited seeded (-5) last ∧ heap seeded !! last = Some nl ∧
         (-5 < key nl → left nl = None) ∧ (key nl < -5 → right nl = None) ∧
         root_key s' = Some (key nl) ∧ key nl ∈ inorder_keys seeded ∧
         ((key nl < -5 ∧ ∀ j, j ∈ inorder_keys seeded → j < -5 → j ≤ key nl) ∨
          (-5 < key nl ∧ ∀ j, j ∈ inorder_keys seeded → -5 < j → key nl ≤ j))) ∧
    (root seeded = None → s' = seeded ∧ heap s' = ∅) ∧
    contents s' = contents seeded ∧ wf s' ∧ dom (heap s') = dom (heap seeded).
Proof.
  split; [ground|]. split; [ground|]. split; [vm_compute; lia|].
  apply search_absent; [ground|ground|vm_compute; lia].
Defined.

(** On the tree of [SplayTree()], key 1 at the root above key 0, the
    failed [search(-5)] goes left twice and brings key 0 to the root. *)
Example search_absent_seeded :
  ∃ s', search 2 (-5) seeded = Ok None s' ∧ root_key seeded = Some 1 ∧
    root_key s' = Some 0 ∧ inorder_keys s' = [0; 1].
Proof. eexists. run_all. Qed.

(** On the empty tree [search(42)] returns [None] and the tree is still
    empty: no node is created. *)
Example search_absent_empty :
  search 0 42 empty_tree = Ok None empty_tree ∧ heap empty_tree = ∅.
Proof. split; reflexivity. Qed.

(** C10, as stated, fails: a result cached before [update_no_cache] is
    returned as cached.  Starting from an empty cache with the global list
    [1, 2, 3], after [range_sum_with_cache(array, 0, 1)] and
    [update_no_cache(array, 0, 100)] the call
    [range_sum_with_cache(array, 0, 1)] on the global list itself returns
    3, where the slice of the global list sums to 102. *)
Lemma range_sum_with_cache_stale_counterexample :
  ∃ e1 e2,
    range_sum_with_cache 1%positive 0 1 two_lists = Some (3, e1) ∧
    update_no_cache 1%positive 0 100 e1 = Some e2 ∧
    global_array e2 = Some 1%positive ∧
    objects e2 !! 1%positive = Some [100; 2; 3] ∧
    py_sum (py_slice [100; 2; 3] 0 (1 + 1)) = 102 ∧
    fst <$> range_sum_with_cache 1%positive 0 1 e2 = Some 3 ∧
    fst <$> range_sum_with_cache 1%positive 0 1 e2
      ≠ Some (py_sum (py_slice [100; 2; 3] 0 (1 + 1))) ∧
    fst <$> range_sum_with_cache 1%positive 0 1 e2
      ≠ range_sum_no_cache 1%positive 0 1 e2.
Proof.
  do 2 eexists. repeat (split; [vm_compute; reflexivity|]).
  split; vm_compute; discriminate.
Qed.
